(** * libpgs-js: a shallow embedding of the PGS decode pipeline

  The development follows the TypeScript sources class by class:
  - [ArrayBinaryReader], [CombinedBinaryReader]: the byte sources;
  - [RunLengthEncoding]: [decode] and [decodeFast];
  - [PgsRendererHelper]: [getIndexFromTimestamps];
  - [SubtitleCache] and [Pgs]: the LRU cache, loading, the backward
    context scan and the subtitle compiler.

  JavaScript numbers that are used as indices or counters are natural
  numbers here; numbers that go through bit operations are integers with
  the 32-bit conversion written out; a read past the end of an array is
  the value [undefined]; an exception is the result [Throw]. *)

From Stdlib Require Import ZArith List Bool Lia QArith Permutation.
From Stdlib.Strings Require Import Byte.
Import ListNotations.

Set Implicit Arguments.
Local Open Scope nat_scope.

(** ** JavaScript values and results *)

Module Js.

(** The values that flow through the decoder: a number or [undefined]. *)
Inductive Value : Type :=
| undefined
| number (z : Z).

Inductive Error : Type :=
| TypeError            (* a method call on [null] *)
| IndexSizeError       (* an ImageData of zero width or height *)
| HttpError (status : Z)
| TransportError.      (* a rejected fetch, body read or stream read *)

(** The outcome of a call: a value, an exception, or a loop of the model
    that was given too little fuel. *)
Inductive Result (A : Type) : Type :=
| Ok (a : A)
| Throw (e : Error)
| OutOfFuel.

Arguments Throw {A} e.
Arguments OutOfFuel {A}.

Definition bind {A B} (c : Result A) (k : A -> Result B) : Result B :=
  match c with
  | Ok a => k a
  | Throw e => Throw e
  | OutOfFuel => OutOfFuel
  end.

(** ToInt32 on an integral number. *)
Definition int32 (z : Z) : Z := ((z + 2 ^ 31) mod 2 ^ 32 - 2 ^ 31)%Z.

(** ToUint32 on an integral number. *)
Definition uint32 (z : Z) : Z := (z mod 2 ^ 32)%Z.

(** ToInt32 of a value; [undefined] converts to NaN and then to 0. *)
Definition toInt32 (v : Value) : Z :=
  match v with
  | undefined => 0%Z
  | number z => int32 z
  end.

(** [a & b] *)
Definition and (a : Value) (b : Z) : Z := Z.land (toInt32 a) (int32 b).

(** [(a << n) | b] *)
Definition shl_or (a : Z) (n : Z) (b : Value) : Z :=
  Z.lor (int32 (Z.shiftl (int32 a) n)) (toInt32 b).

(** [v !== 0] *)
Definition strictNeq0 (v : Value) : bool :=
  match v with
  | undefined => true
  | number z => negb (z =? 0)%Z
  end.

(** [v === 0] *)
Definition strictEq0 (v : Value) : bool := negb (strictNeq0 v).

(** The truthiness of the result of a bit operation. *)
Definition truthy (z : Z) : bool := negb (z =? 0)%Z.

End Js.

Import Js.

Notation "x <- c ;; k" := (Js.bind c (fun x => k))
(at level 61, c at next level, right associativity).
Notation "' pat <- c ;; k" := (Js.bind c (fun x => match x with pat => k end))
(at level 61, pat pattern, c at next level, right associativity).

(** ** Arrays *)

(** The value of a byte of a [Uint8Array]. *)
Definition u8 (b : byte) : Z := Z.of_N (Byte.to_N b).

Fixpoint set_nth {A : Type} (l : list A) (i : nat) (v : A) : list A :=
match l, i with
| [], _ => []
| _ :: t, O => v :: t
| h :: t, S i' => h :: set_nth t i' v
end.

Module NumArray.

Inductive Kind : Type := Uint8 | Uint8Clamped | Uint16 | Uint32.

(** [number[] | Uint8Array | Uint8ClampedArray | Uint16Array | Uint32Array],
    the type of both the palette ([source]) and the pixel buffer
    ([target]) of the decoder. A hole of a [number[]] reads as
    [undefined] and is represented by it. *)
Inductive t : Type :=
| NumberArray (elems : list Value)
| TypedArray (kind : Kind) (cells : list Z).

(** The conversion a typed array applies to a stored value. *)
Definition toElement (k : Kind) (v : Value) : Z :=
  match v with
  | undefined => 0%Z
  | number z =>
      match k with
      | Uint8 => (z mod 2 ^ 8)%Z
      | Uint16 => (z mod 2 ^ 16)%Z
      | Uint32 => uint32 z
      | Uint8Clamped => Z.max 0 (Z.min 255 z)
      end
  end.

(** [a[i]] for a numeric [i] *)
Definition at_ (a : t) (i : nat) : Value :=
  match a with
  | NumberArray elems => nth i elems undefined
  | TypedArray _ cells =>
      match nth_error cells i with
      | Some c => number c
      | None => undefined
      end
  end.

(** [a[v]] for a value [v] read from the input: [a[undefined]] is the
    property named "undefined", which no array has. *)
Definition get (a : t) (v : Value) : Value :=
  match v with
  | undefined => undefined
  | number z => if (z <? 0)%Z then undefined else at_ a (Z.to_nat z)
  end.

(** [a[i] = v]: a typed array drops a store outside its bounds, a
    [number[]] grows. *)
Definition store (a : t) (i : nat) (v : Value) : t :=
  match a with
  | NumberArray elems =>
      NumberArray (if i <? length elems then set_nth elems i v
                   else elems ++ repeat undefined (i - length elems) ++ [v])
  | TypedArray k cells => TypedArray k (set_nth cells i (toElement k v))
  end.

Fixpoint fill_cells (cells : list Z) (v : Z) (start end_ : nat) : list Z :=
  match cells with
  | [] => []
  | c :: rest =>
      match start, end_ with
      | _, O => cells
      | O, S e => v :: fill_cells rest v 0 e
      | S s, S e => c :: fill_cells rest v s e
      end
  end.

(** [a.fill(v, start, end_)] of a typed array. *)
Definition fill (k : Kind) (cells : list Z) (v : Value) (start end_ : nat)
  : list Z :=
  fill_cells cells (toElement k v) start end_.

End NumArray.

(** ** Rectangles *)

Module Rect.

(** The coordinates are whole numbers. *)
Record t : Type := make {
  empty : bool;
  x : Z;
  y : Z;
  width : Z;
  height : Z
}.

Definition new : t := make true 0 0 0 0.

Definition reset (this : t) : t := make true 0 0 0 0.

(** A parameter with the default value 0: [None] is an argument that the
    caller left out. *)
Definition orZero (v : option Z) : Z :=
  match v with
  | Some z => z
  | None => 0%Z
  end.

Definition set (this : t) (x y : Z) (width height : option Z) : t :=
  make false x y (orZero width) (orZero height).

Definition union (this : t) (x y : Z) (width height : option Z) : t :=
  let width := orZero width in
  let height := orZero height in
  if empty this then make false x y width height
  else
    let right := (x + width)%Z in
    let bottom := (y + height)%Z in
    let thisRight := (Rect.x this + Rect.width this)%Z in
    let thisBottom := (Rect.y this + Rect.height this)%Z in
    let newX := Z.min (Rect.x this) x in
    let newY := Z.min (Rect.y this) y in
    let newRight := Z.max thisRight right in
    let newBottom := Z.max thisBottom bottom in
    make (empty this) newX newY (newRight - newX)%Z (newBottom - newY)%Z.

End Rect.

(** ** Byte sources *)

Module BinaryReader.

(** The interface [BinaryReader], as far as the decoder uses it. A
    reader is a mutable object: every method returns the reader after the
    call. *)
Class Ops (R : Type) : Type := {
  position : R -> nat;
  length : R -> nat;
  eof : R -> bool;
  readByte : R -> Result (Value * R)
}.

End BinaryReader.

Module ArrayBinaryReader.

Record t : Type := make {
  array : list byte;
  position_ : nat
}.

Definition new (array : list byte) : t := make array 0.

Definition position (r : t) : nat := position_ r.

Definition length (r : t) : nat := List.length (array r).

Definition eof (r : t) : bool := length r <=? position r.

(** [return this.array[this.$position++]] *)
Definition readByte (r : t) : Value * t :=
  (match nth_error (array r) (position_ r) with
   | Some b => number (u8 b)
   | None => undefined
   end,
   make (array r) (S (position_ r))).

#[global] Instance ops : BinaryReader.Ops t := {
  BinaryReader.position := position;
  BinaryReader.length := length;
  BinaryReader.eof := eof;
  BinaryReader.readByte := fun r => Ok (readByte r)
}.

(** [array.subarray(start, end_)] and [array.slice(start, end_)]: both
    bounds are clamped to the array; a view and a copy are the same bytes. *)
Definition subarray (array : list byte) (start end_ : nat) : list byte :=
  firstn (end_ - start) (skipn start array).

Definition readBytes (r : t) (count : nat) : list byte * t :=
  let start := position_ r in
  let r := make (array r) (position_ r + count) in
  (subarray (array r) start (position_ r), r).

Definition readBytesCopy (r : t) (count : nat) : list byte * t :=
  let data := subarray (array r) (position_ r) (position_ r + count) in
  (data, make (array r) (position_ r + count)).

End ArrayBinaryReader.

Module CombinedBinaryReader.

(** [currentSubReader] is a reference to one of the objects of
    [subReaders]: it is kept as the index of that object, and a read
    through it updates the object in [subReaders]. *)
Record t : Type := make {
  subReaders : list ArrayBinaryReader.t;
  length_ : nat;
  position_ : nat;
  subReaderIndex : nat;
  currentSubReader : option nat
}.

(** The constructor, on [Uint8Array] chunks. *)
Definition new (chunks : list (list byte)) : t :=
  let subReaders := map ArrayBinaryReader.new chunks in
  make subReaders
    (fold_left (fun length subReader => length + ArrayBinaryReader.length subReader)
               subReaders 0)
    0 0
    (match subReaders with [] => None | _ :: _ => Some 0 end).

Definition position (r : t) : nat := position_ r.

Definition length (r : t) : nat := length_ r.

Definition eof (r : t) : bool := length_ r <=? position_ r.

(** [this.subReaders[this.subReaderIndex] || null] *)
Definition subReaderAt (r : t) (i : nat) : option nat :=
  match nth_error (subReaders r) i with
  | Some _ => Some i
  | None => None
  end.

(** The loop that skips the exhausted sub-readers:
    [while (cur && cur.position >= cur.length) { index++; cur = ... }] *)
Fixpoint advance (fuel : nat) (r : t) : Result t :=
  match currentSubReader r with
  | None => Ok r
  | Some c =>
      match nth_error (subReaders r) c with
      | None => Ok r
      | Some cur =>
          if ArrayBinaryReader.length cur <=? ArrayBinaryReader.position cur then
            match fuel with
            | O => OutOfFuel
            | S fuel' =>
                let index := S (subReaderIndex r) in
                advance fuel'
                  (make (subReaders r) (length_ r) (position_ r) index
                        (subReaderAt r index))
            end
          else Ok r
      end
  end.

Definition readByte (r : t) : Result (Value * t) :=
  r <- advance (S (List.length (subReaders r))) r ;;
  let r := make (subReaders r) (length_ r) (S (position_ r))
                (subReaderIndex r) (currentSubReader r) in
  match currentSubReader r with
  | None => Throw TypeError
  | Some c =>
      match nth_error (subReaders r) c with
      | None => Throw TypeError
      | Some cur =>
          let '(v, cur') := ArrayBinaryReader.readByte cur in
          Ok (v, make (set_nth (subReaders r) c cur') (length_ r)
                      (position_ r) (subReaderIndex r) (currentSubReader r))
      end
  end.

(** [push], for a [Uint8Array]. *)
Definition push (r : t) (subReader : list byte) : t :=
  let reader := ArrayBinaryReader.new subReader in
  make (subReaders r ++ [reader])
       (length_ r + List.length subReader)
       (position_ r) (subReaderIndex r)
       (match currentSubReader r with
        | None => Some (List.length (subReaders r))
        | Some c => Some c
        end).

(** [result.set(chunk, offset)]. The chunk always fits here: it holds at
    most [count - offset] bytes, so the range error of [set] cannot
    arise. *)
Fixpoint blit (result chunk : list byte) (offset : nat) : list byte :=
  match result with
  | [] => []
  | b :: rest =>
      match offset with
      | S offset' => b :: blit rest chunk offset'
      | O =>
          match chunk with
          | [] => result
          | c :: chunk' => c :: blit rest chunk' 0
          end
      end
  end.

(** The [while (offset < count)] loop of [readBytes]. *)
Fixpoint readBytesLoop (fuel : nat) (r : t) (count : nat) (result : list byte)
  (offset : nat) : Result (list byte * t) :=
  if offset <? count then
    match fuel with
    | O => OutOfFuel
    | S fuel' =>
        r <- advance (S (List.length (subReaders r))) r ;;
        match currentSubReader r with
        | None => Ok (result, r)
        | Some c =>
            match nth_error (subReaders r) c with
            | None => Ok (result, r)
            | Some cur =>
                let available :=
                  ArrayBinaryReader.length cur - ArrayBinaryReader.position cur in
                let toRead := Nat.min available (count - offset) in
                let '(chunk, cur') := ArrayBinaryReader.readBytes cur toRead in
                let result := blit result chunk offset in
                readBytesLoop fuel'
                  (make (set_nth (subReaders r) c cur') (length_ r)
                        (position_ r + toRead) (subReaderIndex r)
                        (currentSubReader r))
                  count result (offset + toRead)
            end
        end
    end
  else Ok (result, r).

(** [readBytes]: the result starts as [count] zero bytes. Every turn of
    the loop copies at least one byte, so [count] turns are enough. *)
Definition readBytes (r : t) (count : nat) : Result (list byte * t) :=
  readBytesLoop count r count (repeat x00 count) 0.

#[global] Instance ops : BinaryReader.Ops t := {
  BinaryReader.position := position;
  BinaryReader.length := length;
  BinaryReader.eof := eof;
  BinaryReader.readByte := readByte
}.

End CombinedBinaryReader.

(** ** The run-length image decoder *)

Module RunLengthEncoding.

(** The two fill loops of [decode], on the [remaining = end - idx] stores
    that are left: four stores at a time while [idx + 4 <= end], then one
    store at a time while [idx < end]. The result is the buffer and the
    final [idx]. *)
Fixpoint fillTail (target : NumArray.t) (value : Value) (idx remaining : nat)
  : NumArray.t * nat :=
  match remaining with
  | O => (target, idx)
  | S remaining' =>
      fillTail (NumArray.store target idx value) value (S idx) remaining'
  end.

Fixpoint fillUnrolled (target : NumArray.t) (value : Value) (idx remaining : nat)
  : NumArray.t * nat :=
  match remaining with
  | S (S (S (S remaining'))) =>
      let target := NumArray.store target idx value in
      let target := NumArray.store target (idx + 1) value in
      let target := NumArray.store target (idx + 2) value in
      let target := NumArray.store target (idx + 3) value in
      fillUnrolled target value (idx + 4) remaining'
  | _ => fillTail target value idx remaining
  end.

(** The body of the [while (reader.position < len)] loop of [decode], on
    any [BinaryReader]. *)
Fixpoint decodeLoop {R : Type} `{BinaryReader.Ops R} (fuel : nat) (reader : R)
  (len : nat) (source target : NumArray.t) (idx : nat)
  : Result (nat * NumArray.t) :=
  match fuel with
  | O => OutOfFuel
  | S fuel' =>
      if BinaryReader.position reader <? len then
        '(byte1, reader) <- BinaryReader.readByte reader ;;
        if strictNeq0 byte1 then
          decodeLoop fuel' reader len source
            (NumArray.store target idx (NumArray.get source byte1)) (S idx)
        else
          '(byte2, reader) <- BinaryReader.readByte reader ;;
          if strictEq0 byte2 then
            decodeLoop fuel' reader len source target idx
          else
            let bit8 := Js.and byte2 128 in
            let bit7 := Js.and byte2 64 in
            let num := Js.and byte2 63 in
            '(num, reader) <-
              (if truthy bit7 then
                 '(byte3, reader) <- BinaryReader.readByte reader ;;
                 Ok (shl_or num 8 byte3, reader)
               else Ok (num, reader)) ;;
            '(value, reader) <-
              (if truthy bit8 then
                 '(color, reader) <- BinaryReader.readByte reader ;;
                 Ok (NumArray.get source color, reader)
               else Ok (NumArray.get source (number 0), reader)) ;;
            let '(target, idx) := fillUnrolled target value idx (Z.to_nat num) in
            decodeLoop fuel' reader len source target idx
      else Ok (idx, target)
  end.

(** [data[pos]] of a [Uint8Array] *)
Definition byteAt (data : list byte) (pos : nat) : Value :=
  match nth_error data pos with
  | Some b => number (u8 b)
  | None => undefined
  end.

(** The body of the [while (pos < len)] loop of [decodeFast]. *)
Fixpoint decodeFastLoop (fuel : nat) (data : list byte) (len : nat)
  (source target : NumArray.t) (pos idx : nat) : Result (nat * NumArray.t) :=
  match fuel with
  | O => OutOfFuel
  | S fuel' =>
      if pos <? len then
        let byte1 := byteAt data pos in
        let pos := S pos in
        if strictNeq0 byte1 then
          decodeFastLoop fuel' data len source
            (NumArray.store target idx (NumArray.get source byte1)) pos (S idx)
        else
          let byte2 := byteAt data pos in
          let pos := S pos in
          if strictEq0 byte2 then
            decodeFastLoop fuel' data len source target pos idx
          else
            let bit8 := Js.and byte2 128 in
            let bit7 := Js.and byte2 64 in
            let num := Js.and byte2 63 in
            let '(num, pos) :=
              if truthy bit7 then (shl_or num 8 (byteAt data pos), S pos)
              else (num, pos) in
            let '(value, pos) :=
              if truthy bit8 then (NumArray.get source (byteAt data pos), S pos)
              else (NumArray.get source (number 0), pos) in
            let '(target, idx) :=
              match target with
              | NumArray.TypedArray NumArray.Uint32 cells =>
                  if (16 <? num)%Z then
                    (NumArray.TypedArray NumArray.Uint32
                       (NumArray.fill NumArray.Uint32 cells value idx
                          (idx + Z.to_nat num)),
                     idx + Z.to_nat num)
                  else fillUnrolled target value idx (Z.to_nat num)
              | _ => fillUnrolled target value idx (Z.to_nat num)
              end in
            decodeFastLoop fuel' data len source target pos idx
      else Ok (idx, target)
  end.

(** Every turn of the loop reads at least one byte, so [S data.length]
    turns are never used up (lemma [decodeLoop_array_total]). *)
Definition decodeFast (data : list byte) (source target : NumArray.t)
  : Result (nat * NumArray.t) :=
  decodeFastLoop (S (List.length data)) data (List.length data) source target 0 0.

(** [decode]: the reader is a [BinaryReader] or a [Uint8Array]; the result
    is the number of decoded pixels and the pixel buffer after the call. *)
Definition decode {R : Type} `{BinaryReader.Ops R} (reader : R + list byte)
  (source target : NumArray.t) : Result (nat * NumArray.t) :=
  match reader with
  | inr data => decodeFast data source target
  | inl reader =>
      let len := BinaryReader.length reader in
      decodeLoop (S len) reader len source target 0
  end.

End RunLengthEncoding.


(** ** The timestamp index *)

Module PgsRendererHelper.

(** [pgsTimestamps[i] <= pgsTime]; a read outside the array is
    [undefined], which compares false. *)
Definition atMost (pgsTimestamps : list Z) (i : Z) (pgsTime : Q) : bool :=
  if (i <? 0)%Z then false
  else match nth_error pgsTimestamps (Z.to_nat i) with
       | Some ts => Qle_bool (inject_Z ts) pgsTime
       | None => false
       end.

(** The binary search loop. [(left + right + 1) >>> 1] converts the sum
    to an unsigned 32-bit integer before it shifts. *)
Fixpoint search (fuel : nat) (pgsTimestamps : list Z) (pgsTime : Q)
  (left right : Z) : Result Z :=
  if (left <? right)%Z then
    match fuel with
    | O => OutOfFuel
    | S fuel' =>
        let mid := Z.shiftr (uint32 (left + right + 1)) 1 in
        if atMost pgsTimestamps mid pgsTime then
          search fuel' pgsTimestamps pgsTime mid right
        else
          search fuel' pgsTimestamps pgsTime left (mid - 1)%Z
    end
  else Ok left.

(** [time] is in seconds; the product [time * 90000] is exact here (the
    rounding of the floating-point product is not modelled). The result is
    the index or [-1]. *)
Definition getIndexFromTimestamps (time : Q) (pgsTimestamps : list Z) : Result Z :=
  let len := Z.of_nat (List.length pgsTimestamps) in
  if (len =? 0)%Z then Ok (-1)%Z
  else
    let pgsTime := (time * inject_Z 90000)%Q in
    if atMost pgsTimestamps (len - 1) pgsTime then Ok (-1)%Z
    else if negb (atMost pgsTimestamps 0 pgsTime) then Ok (-1)%Z
    else search (List.length pgsTimestamps) pgsTimestamps pgsTime 0 (len - 1).

End PgsRendererHelper.

(** ** Segments and display sets *)

(** Modelled from the spec: the segment classes and [DisplaySet] are not
    among the sources; their fields are the ones section 3 of the
    specification lists and [Pgs] reads. *)
Module WindowDefinition.
Record t : Type := make {
  id : Z;
  horizontalPosition : Z;
  verticalPosition : Z;
  width : Z;
  height : Z
}.
End WindowDefinition.

Module WindowDefinitionSegment.
Record t : Type := make {
  windows : list WindowDefinition.t
}.
End WindowDefinitionSegment.

Module PaletteDefinitionSegment.
Record t : Type := make {
  id : Z;
  rgba : NumArray.t
}.
End PaletteDefinitionSegment.

Module ObjectDefinitionSegment.
Record t : Type := make {
  id : Z;
  isFirstInSequence : bool;
  width : Z;
  height : Z;
  data : option (list byte)
}.
End ObjectDefinitionSegment.

Module CompositionObject.
Record t : Type := make {
  id : Z;
  windowId : Z;
  horizontalPosition : Z;
  verticalPosition : Z;
  hasCropping : bool;
  croppingHorizontalPosition : Z;
  croppingVerticalPosition : Z;
  croppingWidth : Z;
  croppingHeight : Z
}.
End CompositionObject.

Module PresentationCompositionSegment.
Record t : Type := make {
  width : Z;
  height : Z;
  paletteId : Z;
  compositionState : Z;
  compositionObjects : list CompositionObject.t
}.
End PresentationCompositionSegment.

Module DisplaySet.
Record t : Type := make {
  presentationTimestamp : Z;
  presentationComposition : option PresentationCompositionSegment.t;
  paletteDefinitions : list PaletteDefinitionSegment.t;
  objectDefinitions : list ObjectDefinitionSegment.t;
  windowDefinitions : list WindowDefinitionSegment.t
}.
End DisplaySet.

(** ** Compiled subtitles *)

Module ImageData.
(** The pixels are the 32-bit view ([Uint32Array]) of the image buffer. *)
Record t : Type := make {
  width : Z;
  height : Z;
  data : list Z
}.
End ImageData.

Module SubtitleCompositionData.
Record t : Type := make {
  compositionObject : CompositionObject.t;
  window : WindowDefinition.t;
  pixelData : ImageData.t
}.
End SubtitleCompositionData.

Module SubtitleData.
Record t : Type := make {
  width : Z;
  height : Z;
  compositionData : list SubtitleCompositionData.t
}.
End SubtitleData.

(** ** The subtitle cache *)

(** A JavaScript [Map] with number keys: the entries in insertion order. *)
Module JsMap.

Definition t (V : Type) : Type := list (Z * V).

Fixpoint get {V : Type} (m : t V) (k : Z) : option V :=
  match m with
  | [] => None
  | (k', v) :: rest => if (k' =? k)%Z then Some v else get rest k
  end.

Definition has {V : Type} (m : t V) (k : Z) : bool :=
  match get m k with
  | Some _ => true
  | None => false
  end.

Fixpoint delete {V : Type} (m : t V) (k : Z) : t V :=
  match m with
  | [] => []
  | (k', v) :: rest => if (k' =? k)%Z then rest else (k', v) :: delete rest k
  end.

(** [set] keeps the position of a key that is present and appends a new
    one. *)
Fixpoint set {V : Type} (m : t V) (k : Z) (v : V) : t V :=
  match m with
  | [] => [(k, v)]
  | (k', v') :: rest =>
      if (k' =? k)%Z then (k, v) :: rest else (k', v') :: set rest k v
  end.

Definition size {V : Type} (m : t V) : nat := List.length m.

(** [m.keys().next().value] *)
Definition firstKey {V : Type} (m : t V) : option Z :=
  match m with
  | [] => None
  | (k, _) :: _ => Some k
  end.

Definition keys {V : Type} (m : t V) : list Z := map fst m.

End JsMap.

Module SubtitleCache.

(** A value of the map is a [SubtitleData] or [undefined] ([None]). *)
Record t : Type := make {
  maxSize : nat;
  cache : JsMap.t (option SubtitleData.t)
}.

Definition new (maxSize : nat) : t := make maxSize [].

(** The result is [null] ([None]) or the value. [Map.get] answers
    [undefined] both for a key that is missing and for a key whose value is
    [undefined]. *)
Definition get (c : t) (index : Z) : option (option SubtitleData.t) * t :=
  let value :=
    match JsMap.get (cache c) index with
    | Some v => v
    | None => None
    end in
  match value with
  | Some data =>
      let m := JsMap.delete (cache c) index in
      let m := JsMap.set m index value in
      (Some (Some data), make (maxSize c) m)
  | None => (None, c)
  end.

Definition set (c : t) (index : Z) (value : option SubtitleData.t) : t :=
  let m :=
    if JsMap.has (cache c) index then JsMap.delete (cache c) index
    else if maxSize c <=? JsMap.size (cache c) then
      match JsMap.firstKey (cache c) with
      | Some firstKey => JsMap.delete (cache c) firstKey
      | None => cache c
      end
    else cache c in
  make (maxSize c) (JsMap.set m index value).

Definition clear (c : t) : t := make (maxSize c) [].

End SubtitleCache.

(** ** The decoded stream *)

Module Pgs.

Record t : Type := make {
  displaySets : list DisplaySet.t;
  updateTimestamps : list Z;
  subtitleCache : SubtitleCache.t
}.

(** A new [Pgs]. *)
Definition new : t := make [] [] (SubtitleCache.new 8).

(** *** Loading *)

Section Loading.

(** [DisplaySet.read] and the readers of a network stream are not among
    the sources: the byte source is any type [R], with its [eof] and with
    the outcome of [await displaySet.read(bigEndianReader, true)] on it,
    which is the display set read and the reader after it, or an
    exception. *)
Variable R : Type.
Variable eof : R -> bool.
Variable read : R -> Result (DisplaySet.t * R).

(** The [while (!reader.eof)] loop. The [onProgress] callback is a call
    out of the model and leaves no trace here. The state is returned with
    the outcome, also when the loop ends by an exception. *)
Fixpoint loadLoop (fuel : nat) (reader : R) (this : t) : Result unit * t :=
  if eof reader then (Ok tt, this)
  else
    match fuel with
    | O => (OutOfFuel, this)
    | S fuel' =>
        match read reader with
        | Ok (displaySet, reader) =>
            loadLoop fuel' reader
              (make (displaySets this ++ [displaySet])
                    (updateTimestamps this
                       ++ [DisplaySet.presentationTimestamp displaySet])
                    (subtitleCache this))
        | Throw e => (Throw e, this)
        | OutOfFuel => (OutOfFuel, this)
        end
    end.

Definition loadFromReader (fuel : nat) (reader : R) (this : t)
  : Result unit * t :=
  loadLoop fuel reader
    (make [] [] (SubtitleCache.clear (subtitleCache this))).

(** What [await fetch(url)] resolved to: the [ok] flag, the status, and the
    reader that [response.body?.getReader()] or
    [await response.arrayBuffer()] gives, unless the latter is rejected. *)
Record Response : Type := makeResponse {
  ok : bool;
  status : Z;
  reader : Result R
}.

(** [fetch] is the outcome of [await fetch(url)]. *)
Definition loadFromUrl (fuel : nat) (fetch : Result Response) (this : t)
  : Result unit * t :=
  match fetch with
  | Ok response =>
      if negb (ok response) then (Throw (HttpError (status response)), this)
      else
        match reader response with
        | Ok reader => loadFromReader fuel reader this
        | Throw e => (Throw e, this)
        | OutOfFuel => (OutOfFuel, this)
        end
  | Throw e => (Throw e, this)
  | OutOfFuel => (OutOfFuel, this)
  end.

End Loading.

(** [loadFromBuffer]: the reader is an [ArrayBinaryReader] over the
    buffer; [read] is the outcome of [DisplaySet.read] on such a reader. *)
Definition loadFromBuffer
  (read : ArrayBinaryReader.t -> Result (DisplaySet.t * ArrayBinaryReader.t))
  (fuel : nat) (buffer : list byte) (this : t) : Result unit * t :=
  loadFromReader ArrayBinaryReader.eof read fuel (ArrayBinaryReader.new buffer)
    this.

(** *** The subtitle compiler *)

(** The state of the loop over [ctxObjects] in
    [getPixelDataFromComposition]. *)
Definition gather (composition : CompositionObject.t)
  (ctxObjects : list ObjectDefinitionSegment.t)
  : Z * Z * list (list byte) :=
  fold_left
    (fun '(width, height, dataChunks) ods =>
       if negb (ObjectDefinitionSegment.id ods =? CompositionObject.id composition)%Z
       then (width, height, dataChunks)
       else
         let '(width, height) :=
           if ObjectDefinitionSegment.isFirstInSequence ods
           then (ObjectDefinitionSegment.width ods, ObjectDefinitionSegment.height ods)
           else (width, height) in
         match ObjectDefinitionSegment.data ods with
         | Some data => (width, height, dataChunks ++ [data])
         | None => (width, height, dataChunks)
         end)
    ctxObjects (0%Z, 0%Z, []).

(** Both branches of the source ([document] defined or not) build an
    image of [width * height] zeroed pixels, decode into its 32-bit view
    and fail on an image without pixels; they are one branch here. *)
Definition getPixelDataFromComposition (composition : CompositionObject.t)
  (palette : PaletteDefinitionSegment.t)
  (ctxObjects : list ObjectDefinitionSegment.t) : Result (option ImageData.t) :=
  let '(width, height, dataChunks) := gather composition ctxObjects in
  match dataChunks with
  | [] => Ok None
  | _ :: _ =>
      let data := CombinedBinaryReader.new dataChunks in
      if ((width <=? 0) || (height <=? 0))%Z then Throw IndexSizeError
      else
        let imageBuffer :=
          NumArray.TypedArray NumArray.Uint32
            (repeat 0%Z (Z.to_nat (width * height))) in
        '(_, imageBuffer) <-
          RunLengthEncoding.decode (inl data)
            (PaletteDefinitionSegment.rgba palette) imageBuffer ;;
        match imageBuffer with
        | NumArray.TypedArray _ cells => Ok (Some (ImageData.make width height cells))
        | NumArray.NumberArray _ => Throw TypeError
        end
  end.

(** The three accumulators of the backward scan. *)
Record Context : Type := makeContext {
  ctxObjects : list ObjectDefinitionSegment.t;
  ctxPalettes : list PaletteDefinitionSegment.t;
  ctxWindows : list WindowDefinition.t
}.

(** The statements of one turn of the scan that [unshift] the definitions
    of [currentSet]. *)
Definition unshiftSet (currentSet : DisplaySet.t) (ctx : Context) : Context :=
  makeContext
    (DisplaySet.objectDefinitions currentSet ++ ctxObjects ctx)
    (DisplaySet.paletteDefinitions currentSet ++ ctxPalettes ctx)
    (fold_left
       (fun ctxWindows windowDefinition =>
          WindowDefinitionSegment.windows windowDefinition ++ ctxWindows)
       (DisplaySet.windowDefinitions currentSet) (ctxWindows ctx)).

(** [currentSet.presentationComposition?.compositionState !== 0] *)
Definition stateIsNot0 (currentSet : DisplaySet.t) : bool :=
  match DisplaySet.presentationComposition currentSet with
  | None => true
  | Some composition =>
      negb (PresentationCompositionSegment.compositionState composition =? 0)%Z
  end.

(** The [while (curIndex >= 0)] loop. *)
Fixpoint scan (displaySets : list DisplaySet.t) (curIndex : nat) (ctx : Context)
  : Result Context :=
  match nth_error displaySets curIndex with
  | None => Throw TypeError
  | Some currentSet =>
      let ctx := unshiftSet currentSet ctx in
      if stateIsNot0 currentSet then Ok ctx
      else
        match curIndex with
        | O => Ok ctx
        | S curIndex' => scan displaySets curIndex' ctx
        end
  end.

(** The loop over the composition objects. *)
Fixpoint compile (compositionObjects : list CompositionObject.t)
  (palette : PaletteDefinitionSegment.t) (ctx : Context)
  (compositionData : list SubtitleCompositionData.t)
  : Result (list SubtitleCompositionData.t) :=
  match compositionObjects with
  | [] => Ok compositionData
  | compositionObject :: rest =>
      match find (fun w => (WindowDefinition.id w =?
                            CompositionObject.windowId compositionObject)%Z)
                 (ctxWindows ctx) with
      | None => compile rest palette ctx compositionData
      | Some window =>
          pixelData <- getPixelDataFromComposition compositionObject palette
                         (ctxObjects ctx) ;;
          match pixelData with
          | Some pixelData =>
              compile rest palette ctx
                (compositionData
                   ++ [SubtitleCompositionData.make compositionObject window pixelData])
          | None => compile rest palette ctx compositionData
          end
      end
  end.

Definition computeSubtitleAtIndex (this : t) (index : Z)
  : Result (option SubtitleData.t) :=
  if ((index <? 0) || (Z.of_nat (length (displaySets this)) <=? index))%Z
  then Ok None
  else
    match nth_error (displaySets this) (Z.to_nat index) with
    | None => Ok None
    | Some displaySet =>
        match DisplaySet.presentationComposition displaySet with
        | None => Ok None
        | Some composition =>
            ctx <- scan (displaySets this) (Z.to_nat index)
                     (makeContext [] [] []) ;;
            match find (fun w => (PaletteDefinitionSegment.id w =?
                          PresentationCompositionSegment.paletteId composition)%Z)
                       (ctxPalettes ctx) with
            | None => Ok None
            | Some palette =>
                compositionData <-
                  compile (PresentationCompositionSegment.compositionObjects composition)
                          palette ctx [] ;;
                match compositionData with
                | [] => Ok None
                | _ :: _ =>
                    Ok (Some (SubtitleData.make
                                (PresentationCompositionSegment.width composition)
                                (PresentationCompositionSegment.height composition)
                                compositionData))
                end
            end
        end
    end.

(** *** Queries *)

Definition getSubtitleAtIndex (this : t) (index : Z)
  : Result (option SubtitleData.t) * t :=
  let '(cached, cache) := SubtitleCache.get (subtitleCache this) index in
  let this := make (displaySets this) (updateTimestamps this) cache in
  match cached with
  | Some cached => (Ok cached, this)
  | None =>
      match computeSubtitleAtIndex this index with
      | Ok result =>
          (Ok result,
           make (displaySets this) (updateTimestamps this)
                (SubtitleCache.set (subtitleCache this) index result))
      | Throw e => (Throw e, this)
      | OutOfFuel => (OutOfFuel, this)
      end
  end.

Definition cacheSubtitleAtIndex (this : t) (index : Z) : Result unit * t :=
  let '(cached, cache) := SubtitleCache.get (subtitleCache this) index in
  let this := make (displaySets this) (updateTimestamps this) cache in
  match cached with
  | Some _ => (Ok tt, this)
  | None =>
      match computeSubtitleAtIndex this index with
      | Ok subtitleData =>
          (Ok tt,
           make (displaySets this) (updateTimestamps this)
                (SubtitleCache.set (subtitleCache this) index subtitleData))
      | Throw e => (Throw e, this)
      | OutOfFuel => (OutOfFuel, this)
      end
  end.

Definition getSubtitleAtTimestamp (this : t) (time : Q)
  : Result (option SubtitleData.t) * t :=
  match PgsRendererHelper.getIndexFromTimestamps time (updateTimestamps this) with
  | Ok index => getSubtitleAtIndex this index
  | Throw e => (Throw e, this)
  | OutOfFuel => (OutOfFuel, this)
  end.

End Pgs.

(** ** The statements of the specification *)

Module Spec.

(** [palette[B]] for an input byte [B]. *)
Definition paletteAt (palette : NumArray.t) (b : byte) : Value :=
  NumArray.at_ palette (Z.to_nat (u8 b)).

Definition run (l : Z) (color : Value) (rest : option (list Value))
  : option (list Value) :=
  option_map (app (repeat color (Z.to_nat l))) rest.

(** The decoding rule of section 4.4, in the specification's words: the
    pixels that an input emits, left to right. The rule says nothing
    about an input that ends inside an item; the result is [None] there. *)
Fixpoint rleDecode (palette : NumArray.t) (input : list byte)
  : option (list Value) :=
  match input with
  | [] => Some []
  | b1 :: input1 =>
      if negb (u8 b1 =? 0)%Z then
        option_map (cons (paletteAt palette b1)) (rleDecode palette input1)
      else
        match input1 with
        | [] => None
        | b2 :: input2 =>
            if (u8 b2 =? 0)%Z then rleDecode palette input2
            else
              let l := Z.land (u8 b2) 0x3F in
              if negb (Z.land (u8 b2) 0x40 =? 0)%Z then
                match input2 with
                | [] => None
                | b3 :: input3 =>
                    let l := Z.lor (Z.shiftl l 8) (u8 b3) in
                    if negb (Z.land (u8 b2) 0x80 =? 0)%Z then
                      match input3 with
                      | [] => None
                      | c :: input4 =>
                          run l (paletteAt palette c) (rleDecode palette input4)
                      end
                    else run l (paletteAt palette x00) (rleDecode palette input3)
                end
              else if negb (Z.land (u8 b2) 0x80 =? 0)%Z then
                match input2 with
                | [] => None
                | c :: input3 =>
                    run l (paletteAt palette c) (rleDecode palette input3)
                end
              else run l (paletteAt palette x00) (rleDecode palette input2)
        end
  end.

(** Emitting [pixels] into [target] from position [idx] on. *)
Fixpoint emit (target : NumArray.t) (idx : nat) (pixels : list Value)
  : NumArray.t :=
  match pixels with
  | [] => target
  | p :: rest => emit (NumArray.store target idx p) (S idx) rest
  end.

(** The display sets with indices [stop], ..., [index]. *)
Definition slice {A : Type} (l : list A) (stop index : nat) : list A :=
  firstn (S index - stop) (skipn stop l).

(** "The visited DisplaySet's composition has compositionState <> Normal". *)
Definition epochStart (d : DisplaySet.t) : bool :=
  match DisplaySet.presentationComposition d with
  | Some composition =>
      negb (PresentationCompositionSegment.compositionState composition =? 0)%Z
  | None => false
  end.

(** The context that the display sets [sets] define, the last one
    unshifted first. *)
Definition contextOf (sets : list DisplaySet.t) : Pgs.Context :=
  fold_right Pgs.unshiftSet (Pgs.makeContext [] [] []) sets.

(** The windows of a display set in arrival order. *)
Definition windowsOf (d : DisplaySet.t) : list WindowDefinition.t :=
  flat_map WindowDefinitionSegment.windows (DisplaySet.windowDefinitions d).

Fixpoint increasing (l : list Z) : Prop :=
  match l with
  | [] => True
  | x :: rest =>
      match rest with
      | [] => True
      | y :: _ => (x < y)%Z /\ increasing rest
      end
  end.

Fixpoint nondecreasing (l : list Z) : Prop :=
  match l with
  | [] => True
  | x :: rest =>
      match rest with
      | [] => True
      | y :: _ => (x <= y)%Z /\ nondecreasing rest
      end
  end.

(** [i] is the largest index of [timestamps] whose entry is at most [t]. *)
Definition largestAtMost (timestamps : list Z) (t : Q) (i : nat) : Prop :=
  (exists x, nth_error timestamps i = Some x /\ (inject_Z x <= t)%Q)
  /\ forall j y, nth_error timestamps j = Some y -> (inject_Z y <= t)%Q -> j <= i.

(** The operations of the cache. *)
Inductive CacheOp : Type :=
| Get (index : Z)
| Set_ (index : Z) (value : option SubtitleData.t).

Definition step (c : SubtitleCache.t) (op : CacheOp) : SubtitleCache.t :=
  match op with
  | Get index => snd (SubtitleCache.get c index)
  | Set_ index value => SubtitleCache.set c index value
  end.

(** The cache of a [Pgs] after [getSubtitleAtIndex] on each of [indices]. *)
Definition lookups (this : Pgs.t) (indices : list Z) : Pgs.t :=
  fold_left (fun this index => snd (Pgs.getSubtitleAtIndex this index))
            indices this.

End Spec.

(** A byte source for the examples: the outcomes that the successive
    [DisplaySet.read] calls on it will have. *)
Module ScriptedReader.

Definition t : Type := list (Result DisplaySet.t).

Definition eof (r : t) : bool :=
  match r with
  | [] => true
  | _ :: _ => false
  end.

Definition read (r : t) : Result (DisplaySet.t * t) :=
  match r with
  | [] => Throw TypeError
  | Ok displaySet :: rest => Ok (displaySet, rest)
  | Throw e :: _ => Throw e
  | OutOfFuel :: _ => OutOfFuel
  end.

End ScriptedReader.

(** ** The readers as sequences of remaining bytes *)

(** [array_remains len r input]: the reader [r], of length [len], has the
    bytes [input] left to read. *)
Definition array_remains (len : nat) (r : ArrayBinaryReader.t)
  (input : list byte) : Prop :=
  len = List.length (ArrayBinaryReader.array r)
  /\ skipn (ArrayBinaryReader.position_ r) (ArrayBinaryReader.array r) = input.


(** The same for a [CombinedBinaryReader]: the rest of the current
    sub-reader, then the sub-readers after it, none of them started. *)
Definition combined_remains (len : nat) (r : CombinedBinaryReader.t)
  (input : list byte) : Prop :=
  len = CombinedBinaryReader.length_ r
  /\ CombinedBinaryReader.position_ r + List.length input
     = CombinedBinaryReader.length_ r
  /\ match CombinedBinaryReader.currentSubReader r with
     | None => input = []
     | Some c =>
         c = CombinedBinaryReader.subReaderIndex r
         /\ exists cur rest,
              skipn c (CombinedBinaryReader.subReaders r) = cur :: rest
              /\ Forall (fun s => ArrayBinaryReader.position_ s = 0) rest
              /\ input = skipn (ArrayBinaryReader.position_ cur)
                               (ArrayBinaryReader.array cur)
                         ++ concat (map ArrayBinaryReader.array rest)
     end.


(** ** The backward scan, as a statement *)

(** [scanStopsBy boundary displaySets index]: the scan from [index] visits
    [index], [index - 1], ... and stops at the first visited display set
    that is a [boundary], or at index 0; the accumulators hold the
    definitions of the display sets from the stopping point to [index] and
    no others. *)
Definition scanStopsBy (boundary : DisplaySet.t -> bool)
  (displaySets : list DisplaySet.t) (index : nat) : Prop :=
  exists stop,
    stop <= index
    /\ (stop = 0 \/ exists d, nth_error displaySets stop = Some d
                              /\ boundary d = true)
    /\ (forall j d, stop < j <= index -> nth_error displaySets j = Some d ->
                    boundary d = false)
    /\ Pgs.scan displaySets index (Pgs.makeContext [] [] [])
       = Ok (Spec.contextOf (Spec.slice displaySets stop index)).

(** ** Example streams *)

Module Example.

Definition window1 : WindowDefinition.t := WindowDefinition.make 1 4 32 2 1.
Definition window2 : WindowDefinition.t := WindowDefinition.make 2 0 0 8 8.
Definition window3 : WindowDefinition.t := WindowDefinition.make 3 8 8 8 8.

Definition palette0 : PaletteDefinitionSegment.t :=
  PaletteDefinitionSegment.make 0
    (NumArray.TypedArray NumArray.Uint32 [0; 4278190335; 4294967295]%Z).

Definition object1 : ObjectDefinitionSegment.t :=
  ObjectDefinitionSegment.make 1 true 2 1 (Some [x01; x02]).

Definition placement1 : CompositionObject.t :=
  CompositionObject.make 1 1 4 32 false 0 0 0 0.

(** An epoch start (composition state 0x80) that defines all it shows. *)
Definition epochSet (timestamp : Z) : DisplaySet.t :=
  DisplaySet.make timestamp
    (Some (PresentationCompositionSegment.make 128 64 0 128 [placement1]))
    [palette0] [object1] [WindowDefinitionSegment.make [window1]].

(** A display set without a composition and without definitions. *)
Definition bareSet (timestamp : Z) : DisplaySet.t :=
  DisplaySet.make timestamp None [] [] [].

(** A display set of state Normal that relies on earlier definitions. *)
Definition normalSet (timestamp : Z) : DisplaySet.t :=
  DisplaySet.make timestamp
    (Some (PresentationCompositionSegment.make 128 64 0 0 [placement1]))
    [] [] [].

(** A display set with two window definition segments. *)
Definition twoSegments : DisplaySet.t :=
  DisplaySet.make 90000
    (Some (PresentationCompositionSegment.make 128 64 0 128 [placement1]))
    [palette0] [object1]
    [WindowDefinitionSegment.make [window1; window2];
     WindowDefinitionSegment.make [window3]].

(** One display set, loaded. *)
Definition loaded : Pgs.t :=
  Pgs.make [epochSet 90000] [90000%Z] (SubtitleCache.new 8).

End Example.

(** ** The cache, as statements *)

(** The entries that stay when [index] is stored: the others when the key
    is present, all but the oldest when the cache is full, all otherwise. *)
Definition kept (c : SubtitleCache.t) (index : Z)
  : JsMap.t (option SubtitleData.t) :=
  if JsMap.has (SubtitleCache.cache c) index
  then JsMap.delete (SubtitleCache.cache c) index
  else if SubtitleCache.maxSize c <=? JsMap.size (SubtitleCache.cache c)
       then tl (SubtitleCache.cache c)
       else SubtitleCache.cache c.

(** The invariant of the cache: every key once, at most [maxSize]
    entries. *)
Definition cache_ok (c : SubtitleCache.t) : Prop :=
  NoDup (JsMap.keys (SubtitleCache.cache c))
  /\ JsMap.size (SubtitleCache.cache c) <= SubtitleCache.maxSize c.


(** ** Further statements *)

(** [Rect.covers r x y width height]: the rectangle [r] includes the area
    at [(x, y)] of the given size. *)
Definition covers (r : Rect.t) (x y width height : Z) : Prop :=
  (Rect.x r <= x)%Z /\ (Rect.y r <= y)%Z
  /\ (x + width <= Rect.x r + Rect.width r)%Z
  /\ (y + height <= Rect.y r + Rect.height r)%Z.

(** The unions of a list of areas [(x, y, width, height)], in order. *)
Definition unions (areas : list (Z * Z * Z * Z)) (r : Rect.t) : Rect.t :=
  fold_left (fun r '(x, y, width, height) =>
               Rect.union r x y (Some width) (Some height))
            areas r.

(** [count] calls of [readByte] on an [ArrayBinaryReader]: the values read
    and the reader after them. *)
Fixpoint readByteTimes (count : nat) (r : ArrayBinaryReader.t)
  : list Value * ArrayBinaryReader.t :=
  match count with
  | O => ([], r)
  | S count' =>
      let '(v, r) := ArrayBinaryReader.readByte r in
      let '(vs, r) := readByteTimes count' r in
      (v :: vs, r)
  end.

(** [kept_outside cells cells' lo hi]: the buffer [cells'] has the length
    of [cells] and the same content outside the positions [lo], ...,
    [hi - 1]. *)
Definition kept_outside (cells cells' : list Z) (lo hi : nat) : Prop :=
  length cells' = length cells
  /\ forall i, i < lo \/ hi <= i -> nth_error cells' i = nth_error cells i.

(** [coherent this]: every entry of the cache holds what the compiler
    returns for its index on the display sets of [this]. *)
Definition coherent (this : Pgs.t) : Prop :=
  forall index value,
    In (index, value) (SubtitleCache.cache (Pgs.subtitleCache this)) ->
    Pgs.computeSubtitleAtIndex this index = Ok value.

(** [count] calls of [readByte] on a [CombinedBinaryReader]: the values
    read and the reader after them, or the exception of the first call
    that fails. *)
Fixpoint combinedReadByteTimes (count : nat) (r : CombinedBinaryReader.t)
  : Result (list Value * CombinedBinaryReader.t) :=
  match count with
  | O => Ok ([], r)
  | S count' =>
      '(v, r) <- CombinedBinaryReader.readByte r ;;
      '(vs, r) <- combinedReadByteTimes count' r ;;
      Ok (v :: vs, r)
  end.

(** * Properties *)

(** ** Bytes and 32-bit operations *)

Lemma u8_range (b : byte) : (0 <= u8 b < 256)%Z.
Proof.
  unfold u8. pose proof (Byte.to_N_bounded b) as Hb. lia.
Qed.

Lemma int32_small (z : Z) : (- 2 ^ 31 <= z < 2 ^ 31)%Z -> int32 z = z.
Proof.
  intros Hz. unfold int32. rewrite Z.mod_small; lia.
Qed.

Lemma land_63_range (a : Z) : (0 <= Z.land a 63 < 64)%Z.
Proof.
  change 63%Z with (Z.ones 6). rewrite Z.land_ones by lia.
  apply Z.mod_pos_bound. lia.
Qed.

Lemma and_byte (b : byte) (m : Z) :
  (0 <= m < 256)%Z -> Js.and (number (u8 b)) m = Z.land (u8 b) m.
Proof.
  intros Hm. unfold Js.and, toInt32. pose proof (u8_range b).
  rewrite !int32_small; lia.
Qed.

Lemma lor_lt_pow2 (a b n : Z) :
  (0 <= n)%Z -> (0 <= a < 2 ^ n)%Z -> (0 <= b < 2 ^ n)%Z ->
  (0 <= Z.lor a b < 2 ^ n)%Z.
Proof.
  intros Hn Ha Hb. split.
  - apply Z.lor_nonneg. lia.
  - destruct (Z.eq_dec (Z.lor a b) 0) as [->|Hne]; [lia|].
    assert (0 < n)%Z as Hpos.
    { destruct (Z.eq_dec n 0) as [->|]; [|lia].
      assert (a = 0%Z) as -> by lia. assert (b = 0%Z) as -> by lia.
      now elim Hne. }
    apply Z.log2_lt_pow2.
    + assert (0 <= Z.lor a b)%Z by (apply Z.lor_nonneg; lia). lia.
    + rewrite Z.log2_lor by lia.
      apply Z.max_lub_lt.
      * destruct (Z.eq_dec a 0) as [->|]; [simpl; lia|].
        apply Z.log2_lt_pow2; lia.
      * destruct (Z.eq_dec b 0) as [->|]; [simpl; lia|].
        apply Z.log2_lt_pow2; lia.
Qed.

Lemma shl_or_byte (b2 b3 : byte) :
  shl_or (Z.land (u8 b2) 63) 8 (number (u8 b3))
  = Z.lor (Z.shiftl (Z.land (u8 b2) 63) 8) (u8 b3).
Proof.
  unfold shl_or, toInt32.
  pose proof (land_63_range (u8 b2)) as Hl.
  pose proof (u8_range b3) as H3.
  rewrite (int32_small (z := Z.land (u8 b2) 63)) by lia.
  rewrite Z.shiftl_mul_pow2 by lia.
  rewrite !int32_small; lia.
Qed.

Lemma shl_or_undefined (b2 : byte) :
  shl_or (Z.land (u8 b2) 63) 8 undefined = Z.shiftl (Z.land (u8 b2) 63) 8.
Proof.
  unfold shl_or, toInt32.
  pose proof (land_63_range (u8 b2)) as Hl.
  rewrite (int32_small (z := Z.land (u8 b2) 63)) by lia.
  rewrite Z.lor_0_r, Z.shiftl_mul_pow2 by lia.
  rewrite int32_small; lia.
Qed.

Lemma get_byte (source : NumArray.t) (b : byte) :
  NumArray.get source (number (u8 b)) = Spec.paletteAt source b.
Proof.
  unfold NumArray.get, Spec.paletteAt. pose proof (u8_range b).
  destruct (Z.ltb_spec (u8 b) 0); [lia | reflexivity].
Qed.

Lemma get_zero (source : NumArray.t) :
  NumArray.get source (number 0) = Spec.paletteAt source x00.
Proof. reflexivity. Qed.

(** ** The fill loops *)

Lemma emit_app (pixels1 pixels2 : list Value) :
  forall target idx,
    Spec.emit target idx (pixels1 ++ pixels2)
    = Spec.emit (Spec.emit target idx pixels1) (idx + length pixels1) pixels2.
Proof.
  induction pixels1 as [|p pixels1 IH]; intros target idx; simpl.
  - now rewrite Nat.add_0_r.
  - rewrite IH. f_equal. lia.
Qed.

Lemma fillTail_emit (value : Value) (remaining : nat) :
  forall target idx,
    RunLengthEncoding.fillTail target value idx remaining
    = (Spec.emit target idx (repeat value remaining), idx + remaining).
Proof.
  induction remaining as [|n IH]; intros target idx; simpl.
  - now rewrite Nat.add_0_r.
  - rewrite IH. f_equal. lia.
Qed.

(** The unrolled loop stores what the plain loop stores. *)
Lemma fillUnrolled_fillTail (value : Value) (remaining : nat) :
  forall target idx,
    RunLengthEncoding.fillUnrolled target value idx remaining
    = RunLengthEncoding.fillTail target value idx remaining.
Proof.
  induction remaining as [remaining IH] using lt_wf_ind.
  intros target idx.
  destruct remaining as [|[|[|[|n]]]]; try reflexivity.
  cbn [RunLengthEncoding.fillUnrolled]. rewrite IH by lia.
  cbn [RunLengthEncoding.fillTail].
  replace (idx + 1) with (S idx) by lia.
  replace (idx + 2) with (S (S idx)) by lia.
  replace (idx + 3) with (S (S (S idx))) by lia.
  replace (idx + 4) with (S (S (S (S idx)))) by lia.
  reflexivity.
Qed.

Lemma fillUnrolled_emit (target : NumArray.t) (value : Value) (idx remaining : nat) :
  RunLengthEncoding.fillUnrolled target value idx remaining
  = (Spec.emit target idx (repeat value remaining), idx + remaining).
Proof.
  rewrite fillUnrolled_fillTail. apply fillTail_emit.
Qed.

Lemma fill_cells_empty_range (v : Z) (cells : list Z) :
  forall start end_, end_ <= start ->
    NumArray.fill_cells cells v start end_ = cells.
Proof.
  induction cells as [|c cells IH]; intros start end_ Hle; simpl.
  - reflexivity.
  - destruct start, end_; try reflexivity; try lia.
    rewrite IH by lia. reflexivity.
Qed.

Lemma fill_cells_step (v : Z) (cells : list Z) :
  forall idx n,
    NumArray.fill_cells (set_nth cells idx v) v (S idx) (S idx + n)
    = NumArray.fill_cells cells v idx (idx + S n).
Proof.
  induction cells as [|c cells IH]; intros idx n.
  - reflexivity.
  - destruct idx as [|i].
    + simpl. destruct n; reflexivity.
    + cbn [set_nth]. cbn [NumArray.fill_cells Nat.add].
      f_equal. exact (IH i n).
Qed.

(** [fill] on a typed array is the sequence of single stores. *)
Lemma emit_repeat_typed (k : NumArray.Kind) (value : Value) (n : nat) :
  forall cells idx,
    Spec.emit (NumArray.TypedArray k cells) idx (repeat value n)
    = NumArray.TypedArray k (NumArray.fill k cells value idx (idx + n)).
Proof.
  unfold NumArray.fill.
  induction n as [|n IH]; intros cells idx.
  - simpl. rewrite fill_cells_empty_range by lia. reflexivity.
  - cbn [repeat Spec.emit NumArray.store]. rewrite IH.
    rewrite fill_cells_step. reflexivity.
Qed.

(** ** [decodeFast] against [decode] on an [ArrayBinaryReader] *)

Lemma fast_fill (target : NumArray.t) (value : Value) (idx : nat) (num : Z) :
  match target with
  | NumArray.TypedArray NumArray.Uint32 cells =>
      if (16 <? num)%Z then
        (NumArray.TypedArray NumArray.Uint32
           (NumArray.fill NumArray.Uint32 cells value idx (idx + Z.to_nat num)),
         idx + Z.to_nat num)
      else RunLengthEncoding.fillUnrolled target value idx (Z.to_nat num)
  | _ => RunLengthEncoding.fillUnrolled target value idx (Z.to_nat num)
  end = RunLengthEncoding.fillUnrolled target value idx (Z.to_nat num).
Proof.
  destruct target as [elems|[] cells]; try reflexivity.
  destruct (16 <? num)%Z; [|reflexivity].
  rewrite fillUnrolled_emit, emit_repeat_typed. reflexivity.
Qed.

Lemma decodeFastLoop_decodeLoop (fuel : nat) :
  forall data len source target pos idx,
    RunLengthEncoding.decodeFastLoop fuel data len source target pos idx
    = RunLengthEncoding.decodeLoop fuel (ArrayBinaryReader.make data pos)
        len source target idx.
Proof.
  induction fuel as [|fuel IH]; intros data len source target pos idx.
  - reflexivity.
  - cbn [RunLengthEncoding.decodeFastLoop RunLengthEncoding.decodeLoop].
    cbn [BinaryReader.position BinaryReader.readByte ArrayBinaryReader.ops
         ArrayBinaryReader.position ArrayBinaryReader.position_
         ArrayBinaryReader.readByte ArrayBinaryReader.array Js.bind].
    unfold RunLengthEncoding.byteAt.
    set (byte1 := match nth_error data pos with
                  | Some b => number (u8 b) | None => undefined end).
    set (byte2 := match nth_error data (S pos) with
                  | Some b => number (u8 b) | None => undefined end).
    destruct (pos <? len); [|reflexivity].
    destruct (strictNeq0 byte1); [apply IH|].
    destruct (strictEq0 byte2); [apply IH|].
    destruct (truthy (Js.and byte2 64)), (truthy (Js.and byte2 128));
      cbn [Js.bind ArrayBinaryReader.position_ ArrayBinaryReader.array];
      rewrite fast_fill;
      match goal with
      | |- context [RunLengthEncoding.fillUnrolled ?t ?v ?i ?n] =>
          destruct (RunLengthEncoding.fillUnrolled t v i n)
      end; apply IH.
Qed.

(** [decode] on an [ArrayBinaryReader] always returns: every turn of the
    loop moves the position forward. *)
Lemma decodeLoop_array_total (fuel : nat) :
  forall data len source target pos idx,
    len - pos < fuel ->
    exists n target',
      RunLengthEncoding.decodeLoop fuel (ArrayBinaryReader.make data pos)
        len source target idx = Ok (n, target').
Proof.
  induction fuel as [|fuel IH]; intros data len source target pos idx Hfuel.
  - lia.
  - cbn [RunLengthEncoding.decodeLoop].
    cbn [BinaryReader.position BinaryReader.readByte ArrayBinaryReader.ops
         ArrayBinaryReader.position ArrayBinaryReader.position_
         ArrayBinaryReader.readByte ArrayBinaryReader.array Js.bind].
    destruct (Nat.ltb_spec pos len) as [Hlt|Hge]; [|eauto].
    match goal with |- context [strictNeq0 ?b] => destruct (strictNeq0 b) end;
      [apply IH; lia|].
    match goal with |- context [strictEq0 ?b] => destruct (strictEq0 b) end;
      [apply IH; lia|].
    repeat match goal with
           | |- context [if truthy ?z then _ else _] => destruct (truthy z)
           end;
      cbn [Js.bind ArrayBinaryReader.position_ ArrayBinaryReader.array];
      match goal with
      | |- context [RunLengthEncoding.fillUnrolled ?t ?v ?i ?n] =>
          destruct (RunLengthEncoding.fillUnrolled t v i n)
      end; apply IH; lia.
Qed.

(** ** [decode] against the decoding rule, on any reader *)

Section DecodeRule.

Context {R : Type} `{BinaryReader.Ops R}.

(** [remains len r input]: the reader [r], of length [len], has the bytes
    [input] left. *)
Variable remains : nat -> R -> list byte -> Prop.

Hypothesis remains_nil : forall len r,
  remains len r [] -> (BinaryReader.position r <? len) = false.

Hypothesis remains_cons : forall len r b input,
  remains len r (b :: input) ->
  (BinaryReader.position r <? len) = true
  /\ exists r', BinaryReader.readByte r = Ok (number (u8 b), r')
                /\ remains len r' input.

Lemma strictNeq0_byte (b : byte) :
  strictNeq0 (number (u8 b)) = negb (u8 b =? 0)%Z.
Proof. reflexivity. Qed.

Lemma decodeLoop_rule (source : NumArray.t) (len : nat) (fuel : nat) :
  forall input r target idx pixels,
    length input < fuel ->
    remains len r input ->
    Spec.rleDecode source input = Some pixels ->
    RunLengthEncoding.decodeLoop fuel r len source target idx
    = Ok (idx + length pixels, Spec.emit target idx pixels).
Proof.
  induction fuel as [|fuel IH]; intros input r target idx pixels Hfuel Hr Hspec.
  - lia.
  - cbn [RunLengthEncoding.decodeLoop].
    destruct input as [|b1 input].
    { rewrite (remains_nil Hr). injection Hspec as <-. simpl.
      now rewrite Nat.add_0_r. }
    destruct (remains_cons Hr) as [-> (r1 & -> & Hr1)].
    cbn [Js.bind]. rewrite strictNeq0_byte.
    cbn [Spec.rleDecode] in Hspec.
    destruct (negb (u8 b1 =? 0)%Z).
    { destruct (Spec.rleDecode source input) as [rest|] eqn:Hrest;
        [|discriminate].
      injection Hspec as <-.
      rewrite (IH input r1 _ _ rest) by (simpl in Hfuel; auto; lia).
      rewrite get_byte. cbn [Spec.emit length]. f_equal. f_equal. lia. }
    destruct input as [|b2 input]; [discriminate|].
    destruct (remains_cons Hr1) as [_ (r2 & -> & Hr2)].
    cbn [Js.bind]. unfold strictEq0. rewrite strictNeq0_byte, negb_involutive.
    destruct (u8 b2 =? 0)%Z.
    { apply IH with (input := input); simpl in Hfuel; auto; lia. }
    rewrite !and_byte by lia. unfold truthy.
    destruct (negb (Z.land (u8 b2) 64 =? 0)%Z).
    + destruct input as [|b3 input]; [discriminate|].
      destruct (remains_cons Hr2) as [_ (r3 & -> & Hr3)].
      cbn [Js.bind]. rewrite shl_or_byte.
      destruct (negb (Z.land (u8 b2) 128 =? 0)%Z).
      * destruct input as [|c input]; [discriminate|].
        destruct (remains_cons Hr3) as [_ (r4 & -> & Hr4)].
        cbn [Js.bind]. rewrite get_byte, fillUnrolled_emit.
        unfold Spec.run in Hspec.
        destruct (Spec.rleDecode source input) as [rest|] eqn:Hrest;
          [|discriminate].
        injection Hspec as <-.
        rewrite (IH input r4 _ _ rest) by (simpl in Hfuel; auto; lia).
        rewrite emit_app, length_app, repeat_length, Nat.add_assoc. reflexivity.
      * cbn [Js.bind]. rewrite get_zero, fillUnrolled_emit.
        unfold Spec.run in Hspec.
        destruct (Spec.rleDecode source input) as [rest|] eqn:Hrest;
          [|discriminate].
        injection Hspec as <-.
        rewrite (IH input r3 _ _ rest) by (simpl in Hfuel; auto; lia).
        rewrite emit_app, length_app, repeat_length, Nat.add_assoc. reflexivity.
    + cbn [Js.bind].
      destruct (negb (Z.land (u8 b2) 128 =? 0)%Z).
      * destruct input as [|c input]; [discriminate|].
        destruct (remains_cons Hr2) as [_ (r3 & -> & Hr3)].
        cbn [Js.bind]. rewrite get_byte, fillUnrolled_emit.
        unfold Spec.run in Hspec.
        destruct (Spec.rleDecode source input) as [rest|] eqn:Hrest;
          [|discriminate].
        injection Hspec as <-.
        rewrite (IH input r3 _ _ rest) by (simpl in Hfuel; auto; lia).
        rewrite emit_app, length_app, repeat_length, Nat.add_assoc. reflexivity.
      * cbn [Js.bind]. rewrite get_zero, fillUnrolled_emit.
        unfold Spec.run in Hspec.
        destruct (Spec.rleDecode source input) as [rest|] eqn:Hrest;
          [|discriminate].
        injection Hspec as <-.
        rewrite (IH input r2 _ _ rest) by (simpl in Hfuel; auto; lia).
        rewrite emit_app, length_app, repeat_length, Nat.add_assoc. reflexivity.
Qed.

End DecodeRule.

(** ** [decode] on an input that ends inside an item *)

Section DecodeCut.

Context {R : Type} `{BinaryReader.Ops R}.

Variable remains : nat -> R -> list byte -> Prop.

Hypothesis remains_cons : forall len r b input,
  remains len r (b :: input) ->
  (BinaryReader.position r <? len) = true
  /\ exists r', BinaryReader.readByte r = Ok (number (u8 b), r')
                /\ remains len r' input.

(** The reader throws on a read past its end. *)
Hypothesis remains_end : forall len r,
  remains len r [] -> BinaryReader.readByte r = Throw TypeError.

Lemma option_map_None {A B : Type} (f : A -> B) (o : option A) :
  option_map f o = None -> o = None.
Proof. destruct o; [discriminate | reflexivity]. Qed.

Lemma decodeLoop_cut (source : NumArray.t) (len : nat) (fuel : nat) :
  forall input r target idx,
    length input < fuel ->
    remains len r input ->
    Spec.rleDecode source input = None ->
    RunLengthEncoding.decodeLoop fuel r len source target idx = Throw TypeError.
Proof.
  induction fuel as [|fuel IH]; intros input r target idx Hfuel Hr Hspec.
  - lia.
  - cbn [RunLengthEncoding.decodeLoop].
    destruct input as [|b1 input]; [discriminate|].
    destruct (remains_cons Hr) as [-> (r1 & -> & Hr1)].
    cbn [Js.bind]. rewrite strictNeq0_byte.
    cbn [Spec.rleDecode] in Hspec.
    destruct (negb (u8 b1 =? 0)%Z).
    { apply option_map_None in Hspec.
      apply IH with (input := input); simpl in Hfuel; auto; lia. }
    destruct input as [|b2 input].
    { now rewrite (remains_end Hr1). }
    destruct (remains_cons Hr1) as [_ (r2 & -> & Hr2)].
    cbn [Js.bind]. unfold strictEq0. rewrite strictNeq0_byte, negb_involutive.
    destruct (u8 b2 =? 0)%Z.
    { apply IH with (input := input); simpl in Hfuel; auto; lia. }
    rewrite !and_byte by lia. unfold truthy. unfold Spec.run in Hspec.
    destruct (negb (Z.land (u8 b2) 64 =? 0)%Z).
    + destruct input as [|b3 input].
      { now rewrite (remains_end Hr2). }
      destruct (remains_cons Hr2) as [_ (r3 & -> & Hr3)].
      cbn [Js.bind]. rewrite shl_or_byte.
      destruct (negb (Z.land (u8 b2) 128 =? 0)%Z).
      * destruct input as [|c input].
        { now rewrite (remains_end Hr3). }
        destruct (remains_cons Hr3) as [_ (r4 & -> & Hr4)].
        cbn [Js.bind]. rewrite get_byte, fillUnrolled_emit.
        apply option_map_None in Hspec.
        apply IH with (input := input); simpl in Hfuel; auto; lia.
      * cbn [Js.bind]. rewrite get_zero, fillUnrolled_emit.
        apply option_map_None in Hspec.
        apply IH with (input := input); simpl in Hfuel; auto; lia.
    + cbn [Js.bind].
      destruct (negb (Z.land (u8 b2) 128 =? 0)%Z).
      * destruct input as [|c input].
        { now rewrite (remains_end Hr2). }
        destruct (remains_cons Hr2) as [_ (r3 & -> & Hr3)].
        cbn [Js.bind]. rewrite get_byte, fillUnrolled_emit.
        apply option_map_None in Hspec.
        apply IH with (input := input); simpl in Hfuel; auto; lia.
      * cbn [Js.bind]. rewrite get_zero, fillUnrolled_emit.
        apply option_map_None in Hspec.
        apply IH with (input := input); simpl in Hfuel; auto; lia.
Qed.

End DecodeCut.

(** ** The two readers, as sequences of remaining bytes *)

Lemma skipn_cons_inv {A : Type} (l : list A) :
  forall n x rest,
    skipn n l = x :: rest -> nth_error l n = Some x /\ skipn (S n) l = rest.
Proof.
  induction l as [|a l IH]; intros n x rest Hskip.
  - destruct n; discriminate.
  - destruct n as [|n].
    + injection Hskip as -> ->. split; reflexivity.
    + apply IH in Hskip. exact Hskip.
Qed.

Lemma skipn_set_nth {A : Type} (l : list A) :
  forall n x y rest,
    skipn n l = x :: rest -> skipn n (set_nth l n y) = y :: rest.
Proof.
  induction l as [|a l IH]; intros n x y rest Hskip.
  - destruct n; discriminate.
  - destruct n as [|n].
    + injection Hskip as _ ->. reflexivity.
    + simpl. eapply IH. exact Hskip.
Qed.

Lemma array_remains_nil (len : nat) (r : ArrayBinaryReader.t) :
  array_remains len r [] -> (BinaryReader.position r <? len) = false.
Proof.
  intros [-> Hskip]. apply Nat.ltb_ge.
  apply (f_equal (@List.length byte)) in Hskip.
  rewrite length_skipn in Hskip. simpl in *.
  unfold ArrayBinaryReader.position. lia.
Qed.

Lemma array_remains_cons (len : nat) (r : ArrayBinaryReader.t) (b : byte)
  (input : list byte) :
  array_remains len r (b :: input) ->
  (BinaryReader.position r <? len) = true
  /\ exists r', BinaryReader.readByte r = Ok (number (u8 b), r')
                /\ array_remains len r' input.
Proof.
  intros [-> Hskip]. split.
  - apply Nat.ltb_lt.
    apply (f_equal (@List.length byte)) in Hskip.
    rewrite length_skipn in Hskip. simpl in *.
    unfold ArrayBinaryReader.position. lia.
  - destruct (skipn_cons_inv _ _ Hskip) as [Hnth Hnext].
    eexists. split.
    + simpl. unfold ArrayBinaryReader.readByte. rewrite Hnth. reflexivity.
    + split; [reflexivity | exact Hnext].
Qed.

Lemma array_remains_new (data : list byte) :
  array_remains (List.length data) (ArrayBinaryReader.new data) data.
Proof. split; reflexivity. Qed.

(** The skipping loop stops at the sub-reader that holds the next byte. *)
Lemma advance_next (rest : list ArrayBinaryReader.t) :
  forall fuel subReaders len pos c cur b input,
    List.length rest < fuel ->
    skipn c subReaders = cur :: rest ->
    Forall (fun s => ArrayBinaryReader.position_ s = 0) rest ->
    skipn (ArrayBinaryReader.position_ cur) (ArrayBinaryReader.array cur)
      ++ concat (map ArrayBinaryReader.array rest) = b :: input ->
    exists c' cur' rest',
      CombinedBinaryReader.advance fuel
        (CombinedBinaryReader.make subReaders len pos c (Some c))
      = Ok (CombinedBinaryReader.make subReaders len pos c' (Some c'))
      /\ skipn c' subReaders = cur' :: rest'
      /\ Forall (fun s => ArrayBinaryReader.position_ s = 0) rest'
      /\ exists tail,
           skipn (ArrayBinaryReader.position_ cur') (ArrayBinaryReader.array cur')
           = b :: tail
           /\ input = tail ++ concat (map ArrayBinaryReader.array rest').
Proof.
  induction rest as [|next rest IH];
    intros fuel subReaders len pos c cur b input Hfuel Hskip Hzero Hinput.
  - simpl in Hinput. rewrite app_nil_r in Hinput.
    exists c, cur, []. repeat split; auto.
    + destruct fuel; [simpl in Hfuel; lia|].
      cbn [CombinedBinaryReader.advance CombinedBinaryReader.currentSubReader
           CombinedBinaryReader.subReaders].
      destruct (skipn_cons_inv _ _ Hskip) as [-> _].
      apply (f_equal (@List.length byte)) in Hinput.
      rewrite length_skipn in Hinput. simpl in Hinput.
      unfold ArrayBinaryReader.length, ArrayBinaryReader.position.
      destruct (Nat.leb_spec (List.length (ArrayBinaryReader.array cur))
                  (ArrayBinaryReader.position_ cur)); [lia | reflexivity].
    + exists input. split; [exact Hinput | now rewrite app_nil_r].
  - destruct fuel as [|fuel]; [simpl in Hfuel; lia|].
    destruct (skipn_cons_inv _ _ Hskip) as [Hcur Hskip'].
    destruct (skipn_cons_inv _ _ Hskip') as [Hnext _].
    cbn [CombinedBinaryReader.advance CombinedBinaryReader.currentSubReader
         CombinedBinaryReader.subReaders].
    rewrite Hcur.
    unfold ArrayBinaryReader.length, ArrayBinaryReader.position.
    destruct (Nat.leb_spec (List.length (ArrayBinaryReader.array cur))
                (ArrayBinaryReader.position_ cur)) as [Hdone|Hmore].
    + cbn [CombinedBinaryReader.subReaderIndex CombinedBinaryReader.length_
           CombinedBinaryReader.position_].
      unfold CombinedBinaryReader.subReaderAt.
      cbn [CombinedBinaryReader.subReaders]. rewrite Hnext.
      rewrite skipn_all2 in Hinput by exact Hdone.
      inversion Hzero as [|? ? Hnext0 Hzero']; subst.
      apply (IH fuel subReaders len pos (S c) next b input).
      * simpl in Hfuel. lia.
      * exact Hskip'.
      * exact Hzero'.
      * rewrite Hnext0. exact Hinput.
    + exists c, cur, (next :: rest). repeat split; auto.
      destruct (skipn (ArrayBinaryReader.position_ cur)
                  (ArrayBinaryReader.array cur)) as [|b' tail] eqn:Htail.
      * apply (f_equal (@List.length byte)) in Htail.
        rewrite length_skipn in Htail. simpl in Htail. lia.
      * injection Hinput as -> <-. exists tail. split; reflexivity.
Qed.

Lemma combined_remains_nil (len : nat) (r : CombinedBinaryReader.t) :
  combined_remains len r [] -> (BinaryReader.position r <? len) = false.
Proof.
  intros (-> & Hlen & _). apply Nat.ltb_ge. simpl in *.
  unfold CombinedBinaryReader.position. lia.
Qed.

Lemma combined_remains_cons (len : nat) (r : CombinedBinaryReader.t) (b : byte)
  (input : list byte) :
  combined_remains len r (b :: input) ->
  (BinaryReader.position r <? len) = true
  /\ exists r', BinaryReader.readByte r = Ok (number (u8 b), r')
                /\ combined_remains len r' input.
Proof.
  destruct r as [subReaders length_ position_ index current].
  intros (-> & Hlen & Hcur). cbn in Hlen, Hcur. split.
  - apply Nat.ltb_lt. cbn. lia.
  - destruct current as [c|]; [|discriminate].
    destruct Hcur as (-> & cur & rest & Hskip & Hzero & Hinput).
    assert (List.length rest < S (List.length subReaders)) as Hfuel.
    { apply (f_equal (@List.length ArrayBinaryReader.t)) in Hskip.
      rewrite length_skipn in Hskip. simpl in Hskip. lia. }
    destruct (@advance_next rest (S (List.length subReaders)) subReaders
                length_ position_ index cur b input Hfuel Hskip Hzero
                (eq_sym Hinput))
      as (c' & cur' & rest' & Hadv & Hskip' & Hzero' & tail & Htail & Hin).
    destruct (skipn_cons_inv _ _ Hskip') as [Hnth _].
    destruct (skipn_cons_inv _ _ Htail) as [Hbyte Htail'].
    eexists. split.
    + cbn [BinaryReader.readByte CombinedBinaryReader.ops].
      unfold CombinedBinaryReader.readByte.
      cbn [CombinedBinaryReader.subReaders]. rewrite Hadv.
      cbn [Js.bind CombinedBinaryReader.subReaders
           CombinedBinaryReader.currentSubReader CombinedBinaryReader.length_
           CombinedBinaryReader.position_ CombinedBinaryReader.subReaderIndex].
      rewrite Hnth. unfold ArrayBinaryReader.readByte. rewrite Hbyte.
      reflexivity.
    + split; [reflexivity|]. split; [cbn; simpl in Hlen; lia|].
      cbn. split; [reflexivity|].
      eexists _, rest'. split; [|split].
      * eapply skipn_set_nth. exact Hskip'.
      * exact Hzero'.
      * cbn [ArrayBinaryReader.position_ ArrayBinaryReader.array].
        rewrite Htail'. exact Hin.
Qed.

Lemma advance_null (fuel : nat) (r : CombinedBinaryReader.t) :
  CombinedBinaryReader.currentSubReader r = None ->
  CombinedBinaryReader.advance fuel r = Ok r.
Proof.
  intros Hnull. destruct fuel; simpl; now rewrite Hnull.
Qed.

(** With no byte left the skipping loop runs off the list of sub-readers
    and leaves [currentSubReader] null. *)
Lemma advance_end (rest : list ArrayBinaryReader.t) :
  forall fuel subReaders len pos c cur,
    List.length rest < fuel ->
    skipn c subReaders = cur :: rest ->
    Forall (fun s => ArrayBinaryReader.position_ s = 0) rest ->
    skipn (ArrayBinaryReader.position_ cur) (ArrayBinaryReader.array cur)
      ++ concat (map ArrayBinaryReader.array rest) = [] ->
    exists c',
      CombinedBinaryReader.advance fuel
        (CombinedBinaryReader.make subReaders len pos c (Some c))
      = Ok (CombinedBinaryReader.make subReaders len pos c' None).
Proof.
  induction rest as [|next rest IH];
    intros fuel subReaders len pos c cur Hfuel Hskip Hzero Hinput;
    (destruct fuel as [|fuel]; [simpl in Hfuel; lia|]);
    destruct (skipn_cons_inv _ _ Hskip) as [Hcur Hskip'];
    apply app_eq_nil in Hinput; destruct Hinput as [Hdone Hrest];
    apply (f_equal (@List.length byte)) in Hdone;
    rewrite length_skipn in Hdone; simpl in Hdone;
    cbn [CombinedBinaryReader.advance CombinedBinaryReader.currentSubReader
         CombinedBinaryReader.subReaders];
    rewrite Hcur;
    unfold ArrayBinaryReader.length, ArrayBinaryReader.position;
    (destruct (Nat.leb_spec (List.length (ArrayBinaryReader.array cur))
                 (ArrayBinaryReader.position_ cur)); [|lia]);
    cbn [CombinedBinaryReader.subReaderIndex CombinedBinaryReader.length_
         CombinedBinaryReader.position_];
    unfold CombinedBinaryReader.subReaderAt;
    cbn [CombinedBinaryReader.subReaders].
  - assert (nth_error subReaders (S c) = None) as ->.
    { apply nth_error_None.
      apply (f_equal (@List.length ArrayBinaryReader.t)) in Hskip'.
      rewrite length_skipn in Hskip'. simpl in Hskip'. lia. }
    exists (S c). now apply advance_null.
  - destruct (skipn_cons_inv _ _ Hskip') as [Hnext _]. rewrite Hnext.
    inversion Hzero as [|? ? Hnext0 Hzero']; subst.
    apply (IH fuel subReaders len pos (S c) next).
    + simpl in Hfuel. lia.
    + exact Hskip'.
    + exact Hzero'.
    + rewrite Hnext0. exact Hrest.
Qed.

Lemma combined_remains_end (len : nat) (r : CombinedBinaryReader.t) :
  combined_remains len r [] -> BinaryReader.readByte r = Throw TypeError.
Proof.
  destruct r as [subReaders length_ position_ index current].
  intros (-> & Hlen & Hcur). cbn in Hlen, Hcur.
  cbn [BinaryReader.readByte CombinedBinaryReader.ops].
  unfold CombinedBinaryReader.readByte. cbn [CombinedBinaryReader.subReaders].
  destruct current as [c|].
  - destruct Hcur as (-> & cur & rest & Hskip & Hzero & Hinput).
    assert (List.length rest < S (List.length subReaders)) as Hfuel.
    { apply (f_equal (@List.length ArrayBinaryReader.t)) in Hskip.
      rewrite length_skipn in Hskip. simpl in Hskip. lia. }
    destruct (@advance_end rest (S (List.length subReaders)) subReaders
                length_ position_ index cur Hfuel Hskip Hzero
                (eq_sym Hinput)) as (c' & ->).
    reflexivity.
  - rewrite advance_null by reflexivity. reflexivity.
Qed.

Lemma fold_length_concat (chunks : list (list byte)) :
  forall acc,
    fold_left (fun length subReader => length + ArrayBinaryReader.length subReader)
      (map ArrayBinaryReader.new chunks) acc
    = acc + List.length (concat chunks).
Proof.
  induction chunks as [|chunk chunks IH]; intros acc; simpl.
  - lia.
  - rewrite IH, length_app. unfold ArrayBinaryReader.length. simpl. lia.
Qed.

Lemma combined_remains_new (chunks : list (list byte)) :
  combined_remains (List.length (concat chunks))
    (CombinedBinaryReader.new chunks) (concat chunks).
Proof.
  unfold combined_remains, CombinedBinaryReader.new.
  cbn [CombinedBinaryReader.length_ CombinedBinaryReader.position_
       CombinedBinaryReader.currentSubReader CombinedBinaryReader.subReaderIndex
       CombinedBinaryReader.subReaders].
  rewrite fold_length_concat. repeat split.
  destruct chunks as [|chunk chunks]; [reflexivity|].
  cbn [map]. split; [reflexivity|].
  exists (ArrayBinaryReader.new chunk), (map ArrayBinaryReader.new chunks).
  repeat split.
  - apply Forall_forall. intros s Hs. apply in_map_iff in Hs.
    destruct Hs as (x & <- & _). reflexivity.
  - simpl. f_equal. rewrite map_map. simpl. now rewrite map_id.
Qed.

Lemma combined_length_new (chunks : list (list byte)) :
  BinaryReader.length (CombinedBinaryReader.new chunks)
  = List.length (concat chunks).
Proof.
  cbn. unfold CombinedBinaryReader.length, CombinedBinaryReader.new.
  cbn. apply fold_length_concat.
Qed.

(** ** The decoder: claims *)

Lemma emit_number_array (pixels : list Value) :
  forall elems,
    Spec.emit (NumArray.NumberArray elems) (List.length elems) pixels
    = NumArray.NumberArray (elems ++ pixels).
Proof.
  induction pixels as [|p pixels IH]; intros elems; simpl.
  - now rewrite app_nil_r.
  - rewrite Nat.ltb_irrefl, Nat.sub_diag. simpl.
    replace (S (List.length elems)) with (List.length (elems ++ [p]))
      by (rewrite length_app; simpl; lia).
    rewrite IH, <- app_assoc. reflexivity.
Qed.

Lemma emit_empty_number_array (pixels : list Value) :
  Spec.emit (NumArray.NumberArray []) 0 pixels = NumArray.NumberArray pixels.
Proof. exact (@emit_number_array pixels []). Qed.

Lemma decode_array_rule (source target : NumArray.t) (input : list byte)
  (pixels : list Value) :
  Spec.rleDecode source input = Some pixels ->
  RunLengthEncoding.decode (inl (ArrayBinaryReader.new input)) source target
  = Ok (List.length pixels, Spec.emit target 0 pixels).
Proof.
  intros Hrule. unfold RunLengthEncoding.decode.
  change (List.length pixels) with (0 + List.length pixels).
  apply (decodeLoop_rule array_remains array_remains_nil array_remains_cons)
    with (input := input).
  - simpl. unfold ArrayBinaryReader.length. simpl. lia.
  - apply array_remains_new.
  - exact Hrule.
Qed.

Lemma decode_fast_array (source target : NumArray.t) (input : list byte) :
  RunLengthEncoding.decode (R := ArrayBinaryReader.t) (inr input) source target
  = RunLengthEncoding.decode (inl (ArrayBinaryReader.new input)) source target.
Proof.
  unfold RunLengthEncoding.decode, RunLengthEncoding.decodeFast.
  apply decodeFastLoop_decodeLoop.
Qed.

Lemma decode_combined_rule (source target : NumArray.t)
  (chunks : list (list byte)) (pixels : list Value) :
  Spec.rleDecode source (concat chunks) = Some pixels ->
  RunLengthEncoding.decode (inl (CombinedBinaryReader.new chunks)) source target
  = Ok (List.length pixels, Spec.emit target 0 pixels).
Proof.
  intros Hrule. unfold RunLengthEncoding.decode.
  rewrite combined_length_new.
  change (List.length pixels) with (0 + List.length pixels).
  apply (decodeLoop_rule combined_remains combined_remains_nil
           combined_remains_cons) with (input := concat chunks).
  - lia.
  - apply combined_remains_new.
  - exact Hrule.
Qed.

Lemma decode_combined_cut (source target : NumArray.t)
  (chunks : list (list byte)) :
  Spec.rleDecode source (concat chunks) = None ->
  RunLengthEncoding.decode (inl (CombinedBinaryReader.new chunks)) source target
  = Throw TypeError.
Proof.
  intros Hrule. unfold RunLengthEncoding.decode.
  rewrite combined_length_new.
  apply (decodeLoop_cut combined_remains combined_remains_cons
           combined_remains_end) with (input := concat chunks).
  - lia.
  - apply combined_remains_new.
  - exact Hrule.
Qed.



(** C10, as stated, fails: on an input that ends inside an item the
    [CombinedBinaryReader] path throws, the two other paths return. *)
Lemma decode_paths_differ :
  RunLengthEncoding.decode (inl (CombinedBinaryReader.new [[x00]]))
    (NumArray.NumberArray []) (NumArray.TypedArray NumArray.Uint32 [])
  = Throw TypeError
  /\ RunLengthEncoding.decode (inl (ArrayBinaryReader.new (concat [[x00]])))
       (NumArray.NumberArray []) (NumArray.TypedArray NumArray.Uint32 [])
     = Ok (0, NumArray.TypedArray NumArray.Uint32 [])
  /\ RunLengthEncoding.decode (R := ArrayBinaryReader.t) (inr (concat [[x00]]))
       (NumArray.NumberArray []) (NumArray.TypedArray NumArray.Uint32 [])
     = Ok (0, NumArray.TypedArray NumArray.Uint32 [])
  /\ RunLengthEncoding.decode (inl (CombinedBinaryReader.new [[x00]]))
       (NumArray.NumberArray []) (NumArray.TypedArray NumArray.Uint32 [])
     <> RunLengthEncoding.decode (R := ArrayBinaryReader.t) (inr (concat [[x00]]))
          (NumArray.NumberArray []) (NumArray.TypedArray NumArray.Uint32 []).
Proof.
  repeat split; try reflexivity. vm_compute. discriminate.
Qed.

(** C10, amended. The [ArrayBinaryReader] path and the [decodeFast] path
    return the same pixel count and the same buffer on every byte sequence,
    palette and buffer; the [CombinedBinaryReader] path over any chunking
    agrees with them on every byte sequence that does not end inside an
    item of the decoding rule, and throws on the others. *)
Theorem decode_paths_agree (chunks : list (list byte))
  (source target : NumArray.t) :
  (exists n target',
     RunLengthEncoding.decode (inl (ArrayBinaryReader.new (concat chunks)))
       source target = Ok (n, target')
     /\ RunLengthEncoding.decode (R := ArrayBinaryReader.t) (inr (concat chunks))
          source target = Ok (n, target'))
  /\ (forall pixels,
        Spec.rleDecode source (concat chunks) = Some pixels ->
        RunLengthEncoding.decode (inl (CombinedBinaryReader.new chunks))
          source target
        = RunLengthEncoding.decode (R := ArrayBinaryReader.t)
            (inr (concat chunks)) source target)
  /\ (Spec.rleDecode source (concat chunks) = None ->
      RunLengthEncoding.decode (inl (CombinedBinaryReader.new chunks))
        source target
      = Throw TypeError).
Proof.
  split; [|split].
  - rewrite decode_fast_array.
    destruct (@decodeLoop_array_total (S (List.length (concat chunks)))
                (concat chunks) (List.length (concat chunks)) source target 0 0)
      as (n & target' & Hrun); [lia|].
    exists n, target'. split; exact Hrun.
  - intros pixels Hrule.
    rewrite decode_fast_array, (@decode_array_rule _ _ _ _ Hrule).
    now apply decode_combined_rule.
  - apply decode_combined_cut.
Qed.

Lemma decode_paths_agree_witness :
  Spec.rleDecode (NumArray.TypedArray NumArray.Uint32 [7; 8; 9]%Z)
    (concat [[x01; x00]; []; [x03; x00; x82]; [x02; x00; x00; x02]])
  = Some [number 8; number 7; number 7; number 7; number 9; number 9; number 9]
  /\ RunLengthEncoding.decode
       (inl (CombinedBinaryReader.new
               [[x01; x00]; []; [x03; x00; x82]; [x02; x00; x00; x02]]))
       (NumArray.TypedArray NumArray.Uint32 [7; 8; 9]%Z)
       (NumArray.TypedArray NumArray.Uint32 (repeat 0%Z 8))
     = RunLengthEncoding.decode (R := ArrayBinaryReader.t)
         (inr (concat [[x01; x00]; []; [x03; x00; x82]; [x02; x00; x00; x02]]))
         (NumArray.TypedArray NumArray.Uint32 [7; 8; 9]%Z)
         (NumArray.TypedArray NumArray.Uint32 (repeat 0%Z 8)).
Proof.
  split.
  - reflexivity.
  - exact (proj1 (proj2 (decode_paths_agree
                    [[x01; x00]; []; [x03; x00; x82]; [x02; x00; x00; x02]]
                    (NumArray.TypedArray NumArray.Uint32 [7; 8; 9]%Z)
                    (NumArray.TypedArray NumArray.Uint32 (repeat 0%Z 8))))
                 _ eq_refl).
Defined.

(** ** The timestamp index: claims *)

Lemma atMost_true (timestamps : list Z) (i : Z) (t : Q) :
  PgsRendererHelper.atMost timestamps i t = true <->
  (0 <= i)%Z /\ exists x, nth_error timestamps (Z.to_nat i) = Some x
                          /\ (inject_Z x <= t)%Q.
Proof.
  unfold PgsRendererHelper.atMost.
  destruct (Z.ltb_spec i 0) as [Hneg|Hpos].
  - split; [discriminate | intros [Hi _]; lia].
  - destruct (nth_error timestamps (Z.to_nat i)) as [x|].
    + rewrite Qle_bool_iff. split.
      * intros Hle. split; [exact Hpos | now exists x].
      * intros (_ & y & Hy & Hle). now injection Hy as ->.
    + split; [discriminate | intros (_ & y & Hy & _); discriminate].
Qed.

Lemma nondecreasing_nth (l : list Z) :
  Spec.nondecreasing l ->
  forall i j x y, i <= j -> nth_error l i = Some x -> nth_error l j = Some y ->
                  (x <= y)%Z.
Proof.
  induction l as [|a l IH]; intros Hsorted i j x y Hij Hi Hj.
  - destruct i; discriminate.
  - assert (Spec.nondecreasing l) as Hrest.
    { simpl in Hsorted. destruct l; [exact I | apply Hsorted]. }
    assert (forall k z, nth_error l k = Some z -> (a <= z)%Z) as Hhead.
    { intros k. induction k as [|k IHk]; intros z Hz.
      - destruct l as [|b l]; [discriminate|]. injection Hz as ->.
        apply Hsorted.
      - destruct l as [|b l]; [discriminate|].
        assert (a <= b)%Z by apply Hsorted.
        assert (b <= z)%Z; [|lia].
        apply (IH Hrest 0 (S k) b z); [lia | reflexivity | exact Hz]. }
    destruct i as [|i], j as [|j]; simpl in Hi, Hj.
    + injection Hi as ->. injection Hj as ->. lia.
    + injection Hi as ->. eapply Hhead. exact Hj.
    + lia.
    + apply (IH Hrest i j); auto. lia.
Qed.

(** The loop keeps [timestamps[left] <= t] and [t < timestamps[j]] for
    every [j] after [right]. *)
Lemma search_invariant (timestamps : list Z) (t : Q)
  (Hsorted : Spec.nondecreasing timestamps)
  (Hlen : (Z.of_nat (length timestamps) <= 2 ^ 31)%Z) (fuel : nat) :
  forall left right,
    (0 <= left <= right)%Z -> (right < Z.of_nat (length timestamps))%Z ->
    (right - left <= Z.of_nat fuel)%Z ->
    PgsRendererHelper.atMost timestamps left t = true ->
    (forall j, (right < j)%Z -> PgsRendererHelper.atMost timestamps j t = false) ->
    exists i,
      PgsRendererHelper.search fuel timestamps t left right = Ok i
      /\ (0 <= i)%Z
      /\ PgsRendererHelper.atMost timestamps i t = true
      /\ forall j, (i < j)%Z -> PgsRendererHelper.atMost timestamps j t = false.
Proof.
  induction fuel as [|fuel IH]; intros left right Hlr Hr Hfuel Hleft Hright.
  - simpl. destruct (Z.ltb_spec left right); [lia|].
    exists left. repeat split; auto; try lia.
    intros j Hj. apply Hright. lia.
  - cbn [PgsRendererHelper.search].
    destruct (Z.ltb_spec left right) as [Hlt|Hge].
    + assert (Z.shiftr (uint32 (left + right + 1)) 1 = (left + right + 1) / 2)%Z
        as ->.
      { unfold uint32. rewrite Z.mod_small by lia.
        now rewrite Z.shiftr_div_pow2 by lia. }
      set (mid := ((left + right + 1) / 2)%Z).
      assert (left < mid <= right)%Z as Hmid.
      { unfold mid. Z.div_mod_to_equations. lia. }
      destruct (PgsRendererHelper.atMost timestamps mid t) eqn:Hcmp.
      * apply IH; auto; lia.
      * apply IH; auto; try lia.
        intros j Hj.
        destruct (PgsRendererHelper.atMost timestamps j t) eqn:Hj'; [|reflexivity].
        apply atMost_true in Hj'. destruct Hj' as (Hj0 & y & Hy & Hyt).
        assert (PgsRendererHelper.atMost timestamps mid t = true) as Hcontra;
          [|congruence].
        apply atMost_true. split; [lia|].
        destruct (nth_error timestamps (Z.to_nat mid)) as [x|] eqn:Hx.
        -- exists x. split; [reflexivity|].
           apply Qle_trans with (inject_Z y); [|exact Hyt].
           rewrite <- Zle_Qle.
           apply (@nondecreasing_nth timestamps Hsorted
                    (Z.to_nat mid) (Z.to_nat j)); auto. lia.
        -- apply nth_error_None in Hx. lia.
    + exists left. repeat split; auto; try lia.
      intros j Hj. apply Hright. lia.
Qed.


(** The cases of [getIndexFromTimestamps] on a sorted list. *)
Lemma getIndexFromTimestamps_cases (time : Q) (timestamps : list Z)
  (Hsorted : Spec.nondecreasing timestamps)
  (Hlen : (Z.of_nat (length timestamps) <= 2 ^ 31)%Z) :
  let t := (time * inject_Z 90000)%Q in
  (timestamps = [] ->
   PgsRendererHelper.getIndexFromTimestamps time timestamps = Ok (-1)%Z)
  /\ (forall first, nth_error timestamps 0 = Some first -> (t < inject_Z first)%Q ->
      PgsRendererHelper.getIndexFromTimestamps time timestamps = Ok (-1)%Z)
  /\ (forall last, nth_error timestamps (length timestamps - 1) = Some last ->
      (inject_Z last <= t)%Q ->
      PgsRendererHelper.getIndexFromTimestamps time timestamps = Ok (-1)%Z)
  /\ (forall first last,
      nth_error timestamps 0 = Some first ->
      nth_error timestamps (length timestamps - 1) = Some last ->
      (inject_Z first <= t)%Q -> (t < inject_Z last)%Q ->
      exists i,
        PgsRendererHelper.getIndexFromTimestamps time timestamps
        = Ok (Z.of_nat i)
        /\ Spec.largestAtMost timestamps t i).
Proof.
  intros t. unfold PgsRendererHelper.getIndexFromTimestamps. fold t.
  split; [intros ->; reflexivity|].
  assert (forall x, nth_error timestamps 0 = Some x ->
                    PgsRendererHelper.atMost timestamps 0 t
                    = Qle_bool (inject_Z x) t) as Hfirst.
  { intros x Hx. unfold PgsRendererHelper.atMost. simpl Z.to_nat.
    now rewrite Hx. }
  assert (forall x, nth_error timestamps (length timestamps - 1) = Some x ->
                    PgsRendererHelper.atMost timestamps
                      (Z.of_nat (length timestamps) - 1) t
                    = Qle_bool (inject_Z x) t) as Hlast.
  { intros x Hx. unfold PgsRendererHelper.atMost.
    assert (length timestamps <> 0).
    { intros H0. rewrite H0 in Hx. destruct timestamps; discriminate. }
    destruct (Z.ltb_spec (Z.of_nat (length timestamps) - 1) 0); [lia|].
    replace (Z.to_nat (Z.of_nat (length timestamps) - 1))
      with (length timestamps - 1) by lia.
    now rewrite Hx. }
  assert (forall x, nth_error timestamps 0 = Some x ->
                    (Z.of_nat (length timestamps) =? 0)%Z = false) as Hne.
  { intros x Hx. destruct timestamps; [discriminate|]. reflexivity. }
  split; [|split].
  - intros first Hx Hlt. rewrite (Hne _ Hx), (Hfirst _ Hx).
    destruct (PgsRendererHelper.atMost timestamps
                (Z.of_nat (length timestamps) - 1) t); [reflexivity|].
    destruct (Qle_bool (inject_Z first) t) eqn:Hle; [|reflexivity].
    apply Qle_bool_iff in Hle. exfalso. apply (Qlt_not_le _ _ Hlt Hle).
  - intros last Hx Hle.
    assert (length timestamps <> 0).
    { intros H0. rewrite H0 in Hx. destruct timestamps; discriminate. }
    destruct (Z.eqb_spec (Z.of_nat (length timestamps)) 0); [lia|].
    rewrite (Hlast _ Hx). apply Qle_bool_iff in Hle. now rewrite Hle.
  - intros first last Hx Hy Hle Hlt.
    rewrite (Hne _ Hx), (Hlast _ Hy), (Hfirst _ Hx).
    assert (Qle_bool (inject_Z last) t = false) as ->.
    { destruct (Qle_bool (inject_Z last) t) eqn:Hb; [|reflexivity].
      apply Qle_bool_iff in Hb. exfalso. apply (Qlt_not_le _ _ Hlt Hb). }
    apply Qle_bool_iff in Hle. rewrite Hle. cbn [negb].
    assert (length timestamps <> 0).
    { intros H0. rewrite H0 in Hy. destruct timestamps; discriminate. }
    destruct (@search_invariant timestamps t Hsorted Hlen (length timestamps)
                0%Z (Z.of_nat (length timestamps) - 1)%Z)
      as (i & Hrun & Hi0 & Hi & Hmax); try lia.
    + now rewrite (Hfirst _ Hx).
    + intros j Hj. unfold PgsRendererHelper.atMost.
      destruct (Z.ltb_spec j 0); [reflexivity|].
      destruct (nth_error timestamps (Z.to_nat j)) eqn:Hnth; [|reflexivity].
      assert (nth_error timestamps (Z.to_nat j) <> None) as Hsome by congruence.
      apply nth_error_Some in Hsome. lia.
    + exists (Z.to_nat i). rewrite Z2Nat.id by exact Hi0.
      split; [exact Hrun|]. split.
      * apply atMost_true in Hi. apply Hi.
      * intros j y Hj Hyt.
        destruct (Nat.le_gt_cases j (Z.to_nat i)) as [|Hgt]; [assumption|].
        assert (PgsRendererHelper.atMost timestamps (Z.of_nat j) t = true) as Hj'.
        { apply atMost_true. split; [lia|]. exists y.
          rewrite Nat2Z.id. split; assumption. }
        rewrite Hmax in Hj' by lia. discriminate.
Qed.



(** ** The backward scan: claims *)

Lemma firstn_snoc {A : Type} (l : list A) :
  forall n x, nth_error l n = Some x -> firstn (S n) l = firstn n l ++ [x].
Proof.
  induction l as [|a l IH]; intros n x Hn.
  - destruct n; discriminate.
  - destruct n as [|n].
    + injection Hn as ->. reflexivity.
    + cbn [firstn app]. f_equal. now apply IH.
Qed.

Lemma slice_single {A : Type} (l : list A) (index : nat) (x : A) :
  nth_error l index = Some x -> Spec.slice l index index = [x].
Proof.
  intros Hx. unfold Spec.slice.
  replace (S index - index) with 1 by lia.
  destruct (skipn index l) as [|y rest] eqn:Hskip.
  - apply (f_equal (@length A)) in Hskip. rewrite length_skipn in Hskip.
    assert (nth_error l index <> None) as Hsome by congruence.
    apply nth_error_Some in Hsome. simpl in Hskip. lia.
  - destruct (skipn_cons_inv _ _ Hskip) as [Hy _].
    rewrite Hx in Hy. injection Hy as ->. reflexivity.
Qed.

Lemma slice_snoc {A : Type} (l : list A) (stop index : nat) (x : A) :
  stop <= index -> nth_error l (S index) = Some x ->
  Spec.slice l stop (S index) = Spec.slice l stop index ++ [x].
Proof.
  intros Hle Hx. unfold Spec.slice.
  replace (S (S index) - stop) with (S (S index - stop)) by lia.
  apply firstn_snoc. rewrite nth_error_skipn.
  replace (stop + (S index - stop)) with (S index) by lia. exact Hx.
Qed.

(** The scan from [index] with any accumulators [ctx]. *)
Lemma scan_from (displaySets : list DisplaySet.t) (index : nat) :
  forall ctx,
    index < length displaySets ->
    exists stop,
      stop <= index
      /\ (stop = 0 \/ exists d, nth_error displaySets stop = Some d
                                /\ Pgs.stateIsNot0 d = true)
      /\ (forall j d, stop < j <= index -> nth_error displaySets j = Some d ->
                      Pgs.stateIsNot0 d = false)
      /\ Pgs.scan displaySets index ctx
         = Ok (fold_right Pgs.unshiftSet ctx (Spec.slice displaySets stop index)).
Proof.
  induction index as [|index IH]; intros ctx Hindex.
  - destruct (nth_error displaySets 0) as [d|] eqn:Hd.
    2:{ apply nth_error_None in Hd. lia. }
    exists 0. repeat split; auto.
    + intros j d' Hj. lia.
    + cbn [Pgs.scan]. rewrite Hd, (slice_single _ _ Hd).
      now destruct (Pgs.stateIsNot0 d).
  - destruct (nth_error displaySets (S index)) as [d|] eqn:Hd.
    2:{ apply nth_error_None in Hd. lia. }
    destruct (Pgs.stateIsNot0 d) eqn:Hstate.
    + exists (S index). repeat split; auto.
      * right. now exists d.
      * intros j d' Hj. lia.
      * cbn [Pgs.scan]. rewrite Hd, Hstate, (slice_single _ _ Hd). reflexivity.
    + destruct (IH (Pgs.unshiftSet d ctx)) as (stop & Hle & Hstop & Hnone & Hrun);
        [lia|].
      exists stop. repeat split; auto.
      * intros j d' Hj Hd'.
        destruct (Nat.eq_dec j (S index)) as [->|Hne].
        -- rewrite Hd in Hd'. now injection Hd' as <-.
        -- apply (Hnone j d'); [lia | exact Hd'].
      * cbn [Pgs.scan]. rewrite Hd, Hstate, Hrun.
        rewrite (slice_snoc _ Hle Hd), fold_right_app. reflexivity.
Qed.

(** C2, as stated, fails: the scan also stops at a display set that has
    no composition. In the stream below the scan from index 2 stops at
    index 1, which is neither index 0 nor the start of an epoch, and the
    palette of index 0 is left out. *)
Lemma scan_stops_without_composition :
  ~ scanStopsBy Spec.epochStart
      [Example.epochSet 90000; Example.bareSet 180000; Example.normalSet 270000]
      2.
Proof.
  intros (stop & Hle & Hstop & _ & Hrun).
  destruct stop as [|[|[|stop]]]; try lia.
  - vm_compute in Hrun. discriminate.
  - destruct Hstop as [|(d & Hd & Hb)]; [discriminate|].
    injection Hd as <-. discriminate.
  - destruct Hstop as [|(d & Hd & Hb)]; [discriminate|].
    injection Hd as <-. discriminate.
Qed.

(** C2, amended. The scan from index [i] visits [i], [i-1], ... and stops
    exactly at the first visited display set that has no composition or
    whose composition has a state other than Normal (its own definitions
    are still accumulated), or at index 0, whichever comes first; the
    accumulators hold the definitions of the display sets from the stopping
    point to [i] and of no display set before it. *)
Theorem scan_stops_at_boundary (displaySets : list DisplaySet.t) (index : nat)
  (Hindex : index < length displaySets) :
  scanStopsBy
    (fun d => match DisplaySet.presentationComposition d with
              | None => true
              | Some _ => Spec.epochStart d
              end)
    displaySets index.
Proof.
  destruct (@scan_from displaySets index (Pgs.makeContext [] [] []) Hindex)
    as (stop & Hle & Hstop & Hnone & Hrun).
  assert (forall d, Pgs.stateIsNot0 d
                    = match DisplaySet.presentationComposition d with
                      | None => true
                      | Some _ => Spec.epochStart d
                      end) as Hsame.
  { intros d. unfold Pgs.stateIsNot0, Spec.epochStart.
    now destruct (DisplaySet.presentationComposition d). }
  exists stop. repeat split; auto.
  - destruct Hstop as [|(d & Hd & Hb)]; [now left|].
    right. exists d. now rewrite <- Hsame.
  - intros j d Hj Hd. rewrite <- Hsame. now apply (Hnone j d).
Qed.

Lemma scan_stops_at_boundary_witness :
  2 < length [Example.epochSet 90000; Example.bareSet 180000;
              Example.normalSet 270000]
  /\ scanStopsBy
       (fun d => match DisplaySet.presentationComposition d with
                 | None => true
                 | Some _ => Spec.epochStart d
                 end)
       [Example.epochSet 90000; Example.bareSet 180000;
        Example.normalSet 270000] 2.
Proof.
  assert (2 < length [Example.epochSet 90000; Example.bareSet 180000;
                      Example.normalSet 270000]) as Hindex.
  { simpl. lia. }
  split; [exact Hindex|].
  exact (@scan_stops_at_boundary _ 2 Hindex).
Defined.

(** The object and palette accumulators are in arrival order; the window
    accumulator takes the segments of one display set last to first. *)
Lemma unshift_windows (segments : list WindowDefinitionSegment.t) :
  forall acc,
    fold_left (fun ctxWindows windowDefinition =>
                 WindowDefinitionSegment.windows windowDefinition ++ ctxWindows)
              segments acc
    = concat (rev (map WindowDefinitionSegment.windows segments)) ++ acc.
Proof.
  induction segments as [|s segments IH]; intros acc; simpl.
  - reflexivity.
  - rewrite IH, concat_app. simpl. rewrite app_nil_r, <- app_assoc.
    reflexivity.
Qed.

Lemma contextOf_order (sets : list DisplaySet.t) :
  Pgs.ctxObjects (Spec.contextOf sets)
  = flat_map DisplaySet.objectDefinitions sets
  /\ Pgs.ctxPalettes (Spec.contextOf sets)
     = flat_map DisplaySet.paletteDefinitions sets
  /\ Pgs.ctxWindows (Spec.contextOf sets)
     = flat_map (fun d => concat (rev (map WindowDefinitionSegment.windows
                                         (DisplaySet.windowDefinitions d))))
                sets.
Proof.
  induction sets as [|d sets (IHo & IHp & IHw)]; simpl.
  - repeat split.
  - rewrite IHo, IHp, unshift_windows, IHw. repeat split.
Qed.

(** C7. The code departs from the claim on the windows: of a display set
    with the window segments [window1; window2] and [window3], the scan
    lists [window3] before [window1], while the arrival order is
    [window1; window2; window3]. *)
Theorem windows_of_later_segment_first :
  (exists ctx,
     Pgs.scan [Example.twoSegments] 0 (Pgs.makeContext [] [] []) = Ok ctx
     /\ Pgs.ctxWindows ctx
        = [Example.window3; Example.window1; Example.window2])
  /\ Spec.windowsOf Example.twoSegments
     = [Example.window1; Example.window2; Example.window3].
Proof.
  split; [|reflexivity].
  eexists. split; reflexivity.
Qed.

(** ** Loading: claims *)

Section LoadingFacts.

Variable R : Type.
Variable eof : R -> bool.
Variable read : R -> Result (DisplaySet.t * R).

(** Whatever the outcome of the loop, the timestamps stay the timestamps
    of the display sets. *)
Lemma loadLoop_timestamps (fuel : nat) :
  forall reader this,
    Pgs.updateTimestamps this
    = map DisplaySet.presentationTimestamp (Pgs.displaySets this) ->
    Pgs.updateTimestamps (snd (Pgs.loadLoop eof read fuel reader this))
    = map DisplaySet.presentationTimestamp
        (Pgs.displaySets (snd (Pgs.loadLoop eof read fuel reader this))).
Proof.
  induction fuel as [|fuel IH]; intros reader this Hinv; simpl.
  - now destruct (eof reader).
  - destruct (eof reader); [exact Hinv|].
    destruct (read reader) as [[displaySet reader']| |]; try exact Hinv.
    apply IH. simpl. rewrite map_app, Hinv. reflexivity.
Qed.

Lemma loadFromReader_timestamps (fuel : nat) (reader : R) (this : Pgs.t) :
  Pgs.updateTimestamps (snd (Pgs.loadFromReader eof read fuel reader this))
  = map DisplaySet.presentationTimestamp
      (Pgs.displaySets (snd (Pgs.loadFromReader eof read fuel reader this))).
Proof.
  unfold Pgs.loadFromReader. now apply loadLoop_timestamps.
Qed.

End LoadingFacts.

(** A scripted reader of display sets only is read to its end. *)
Lemma loadLoop_scripted (sets : list DisplaySet.t) :
  forall fuel this,
    length sets <= fuel ->
    Pgs.loadLoop ScriptedReader.eof ScriptedReader.read fuel (map (@Ok _) sets) this
    = (Ok tt,
       Pgs.make (Pgs.displaySets this ++ sets)
         (Pgs.updateTimestamps this
            ++ map DisplaySet.presentationTimestamp sets)
         (Pgs.subtitleCache this)).
Proof.
  induction sets as [|d sets IH]; intros fuel this Hfuel.
  - destruct this. destruct fuel; simpl; now rewrite !app_nil_r.
  - destruct fuel as [|fuel]; [simpl in Hfuel; lia|].
    simpl. rewrite IH by (simpl in Hfuel; lia). simpl.
    now rewrite <- !app_assoc.
Qed.

(** C8. When [loadFromReader] completes, [updateTimestamps] has the length
    of [displaySets], its entry [i] is the presentation timestamp of
    display set [i], and it is strictly increasing when the presentation
    timestamps of the display sets are. *)
Theorem loadFromReader_timestamps_parallel (R : Type) (eof : R -> bool)
  (read : R -> Result (DisplaySet.t * R)) (fuel : nat) (reader : R)
  (this this' : Pgs.t)
  (Hdone : Pgs.loadFromReader eof read fuel reader this = (Ok tt, this'))
  (Hstream : Spec.increasing
               (map DisplaySet.presentationTimestamp (Pgs.displaySets this'))) :
  length (Pgs.updateTimestamps this') = length (Pgs.displaySets this')
  /\ (forall i d, nth_error (Pgs.displaySets this') i = Some d ->
                  nth_error (Pgs.updateTimestamps this') i
                  = Some (DisplaySet.presentationTimestamp d))
  /\ Spec.increasing (Pgs.updateTimestamps this').
Proof.
  pose proof (loadFromReader_timestamps eof read fuel reader this) as Hts.
  rewrite Hdone in Hts. simpl in Hts. rewrite Hts. repeat split.
  - apply length_map.
  - intros i d Hd. now apply map_nth_error.
  - exact Hstream.
Qed.

Lemma loadFromReader_timestamps_parallel_witness :
  Pgs.updateTimestamps
    (snd (Pgs.loadFromReader ScriptedReader.eof ScriptedReader.read 2
            [Ok (Example.epochSet 90000); Ok (Example.normalSet 180000)]
            Example.loaded))
  = [90000; 180000]%Z
  /\ Spec.increasing
       (Pgs.updateTimestamps
          (snd (Pgs.loadFromReader ScriptedReader.eof ScriptedReader.read 2
                  [Ok (Example.epochSet 90000); Ok (Example.normalSet 180000)]
                  Example.loaded))).
Proof.
  split; [reflexivity|].
  refine (proj2 (proj2
    (@loadFromReader_timestamps_parallel ScriptedReader.t ScriptedReader.eof
       ScriptedReader.read 2
       [Ok (Example.epochSet 90000); Ok (Example.normalSet 180000)]
       Example.loaded _ eq_refl _))).
  simpl. lia.
Defined.

(** C9, as stated, fails: [loadFromReader] empties the state before it
    reads. A load whose first read fails leaves the stream that was loaded
    before it empty. *)
Lemma failed_load_clears_state :
  Pgs.loadFromReader ScriptedReader.eof ScriptedReader.read 1
    [Throw TransportError] Example.loaded
  = (Throw TransportError, Pgs.make [] [] (SubtitleCache.new 8))
  /\ Pgs.displaySets Example.loaded <> []
  /\ snd (Pgs.loadFromReader ScriptedReader.eof ScriptedReader.read 1
            [Throw TransportError] Example.loaded)
     <> Example.loaded.
Proof.
  split; [reflexivity|]. split; [discriminate|].
  simpl. discriminate.
Qed.

(** C9, amended. A load from a url that fails before [loadFromReader] is
    entered (the fetch is rejected, the status is not ok, or the body cannot
    be read) surfaces the error and leaves the display sets, the timestamps
    and the cache as they were. A [loadFromReader] whose first read fails
    surfaces the error and leaves the state empty: no display set, no
    timestamp, no cache entry. *)
Theorem failed_load_state (R : Type) (eof : R -> bool)
  (read : R -> Result (DisplaySet.t * R)) (fuel : nat) (this : Pgs.t) (e : Error) :
  Pgs.loadFromUrl eof read fuel (Throw e) this = (Throw e, this)
  /\ (forall status reader,
        Pgs.loadFromUrl eof read fuel
          (Ok (Pgs.makeResponse false status reader)) this
        = (Throw (HttpError status), this))
  /\ (forall status,
        Pgs.loadFromUrl eof read fuel
          (Ok (Pgs.makeResponse true status (Throw e))) this
        = (Throw e, this))
  /\ (forall reader,
        eof reader = false -> read reader = Throw e ->
        Pgs.loadFromReader eof read (S fuel) reader this
        = (Throw e,
           Pgs.make [] []
             (SubtitleCache.make (SubtitleCache.maxSize (Pgs.subtitleCache this))
                                 []))
        /\ forall status,
             Pgs.loadFromUrl eof read (S fuel)
               (Ok (Pgs.makeResponse true status (Ok reader))) this
             = (Throw e,
                Pgs.make [] []
                  (SubtitleCache.make
                     (SubtitleCache.maxSize (Pgs.subtitleCache this)) []))).
Proof.
  split; [reflexivity|]. split; [reflexivity|]. split; [reflexivity|].
  intros reader Heof Hread.
  assert (Pgs.loadFromReader eof read (S fuel) reader this
          = (Throw e,
             Pgs.make [] []
               (SubtitleCache.make
                  (SubtitleCache.maxSize (Pgs.subtitleCache this)) [])))
    as Hload.
  { unfold Pgs.loadFromReader. simpl. now rewrite Heof, Hread. }
  split; [exact Hload|].
  intros status. unfold Pgs.loadFromUrl. simpl. exact Hload.
Qed.

Lemma failed_load_state_witness :
  Pgs.loadFromUrl ScriptedReader.eof ScriptedReader.read 1
    (Ok (Pgs.makeResponse true 200 (Ok [Throw TransportError]))) Example.loaded
  = (Throw TransportError, Pgs.make [] [] (SubtitleCache.make 8 [])).
Proof.
  exact (proj2 (proj2 (proj2 (proj2
    (@failed_load_state ScriptedReader.t ScriptedReader.eof ScriptedReader.read
       0 Example.loaded TransportError)))
    [Throw TransportError] eq_refl eq_refl) 200%Z).
Defined.

(** ** The cache: facts about the map *)

Lemma get_None_keys {V : Type} (m : JsMap.t V) (k : Z) :
  JsMap.get m k = None <-> ~ In k (JsMap.keys m).
Proof.
  induction m as [|[k' v] m IH]; simpl.
  - tauto.
  - destruct (Z.eqb_spec k' k) as [->|Hne].
    + split; [discriminate | intros Hn; elim Hn; now left].
    + rewrite IH. tauto.
Qed.

Lemma has_false_keys {V : Type} (m : JsMap.t V) (k : Z) :
  JsMap.has m k = false <-> ~ In k (JsMap.keys m).
Proof.
  unfold JsMap.has. rewrite <- get_None_keys.
  destruct (JsMap.get m k); split; congruence.
Qed.

Lemma set_fresh {V : Type} (m : JsMap.t V) (k : Z) (v : V) :
  JsMap.get m k = None -> JsMap.set m k v = m ++ [(k, v)].
Proof.
  induction m as [|[k' v'] m IH]; simpl; intros Hget.
  - reflexivity.
  - destruct (k' =? k)%Z; [discriminate|]. now rewrite IH.
Qed.

Lemma keys_delete_incl {V : Type} (m : JsMap.t V) (k x : Z) :
  In x (JsMap.keys (JsMap.delete m k)) -> In x (JsMap.keys m).
Proof.
  induction m as [|[k' v] m IH]; simpl; [tauto|].
  destruct (k' =? k)%Z; simpl; tauto.
Qed.

Lemma NoDup_delete {V : Type} (m : JsMap.t V) (k : Z) :
  NoDup (JsMap.keys m) ->
  NoDup (JsMap.keys (JsMap.delete m k))
  /\ ~ In k (JsMap.keys (JsMap.delete m k)).
Proof.
  induction m as [|[k' v] m IH]; simpl; intros Hnd.
  - split; [constructor | tauto].
  - inversion Hnd as [|? ? Hnotin Hnd']; subst.
    destruct (Z.eqb_spec k' k) as [->|Hne].
    + split; assumption.
    + destruct (IH Hnd') as [IH1 IH2]. simpl. split.
      * constructor; [|exact IH1].
        intros Hin. apply Hnotin. eapply keys_delete_incl. exact Hin.
      * intros [Heq|Hin]; [congruence | tauto].
Qed.

Lemma length_delete {V : Type} (m : JsMap.t V) (k : Z) :
  JsMap.has m k = true -> S (length (JsMap.delete m k)) = length m.
Proof.
  unfold JsMap.has.
  induction m as [|[k' v] m IH]; simpl; [discriminate|].
  destruct (k' =? k)%Z; [reflexivity|].
  intros Hhas. simpl. now rewrite IH.
Qed.

Lemma delete_app_l {V : Type} (m1 m2 : JsMap.t V) (k : Z) :
  In k (JsMap.keys m1) ->
  JsMap.delete (m1 ++ m2) k = JsMap.delete m1 k ++ m2.
Proof.
  induction m1 as [|[k' v] m1 IH]; simpl; [tauto|].
  destruct (Z.eqb_spec k' k) as [->|Hne]; [reflexivity|].
  intros [Heq|Hin]; [congruence|]. now rewrite IH.
Qed.

Lemma set_cache (c : SubtitleCache.t) (index : Z) (value : option SubtitleData.t) :
  NoDup (JsMap.keys (SubtitleCache.cache c)) ->
  SubtitleCache.set c index value
  = SubtitleCache.make (SubtitleCache.maxSize c) (kept c index ++ [(index, value)]).
Proof.
  intros Hnd. unfold SubtitleCache.set, kept. f_equal.
  destruct (JsMap.has (SubtitleCache.cache c) index) eqn:Hhas.
  - apply set_fresh, get_None_keys. now apply NoDup_delete.
  - apply has_false_keys in Hhas.
    destruct (SubtitleCache.maxSize c <=? JsMap.size (SubtitleCache.cache c)).
    + destruct (SubtitleCache.cache c) as [|[k v] m]; simpl.
      * reflexivity.
      * rewrite Z.eqb_refl. apply set_fresh, get_None_keys.
        intros Hin. apply Hhas. now right.
    + now apply set_fresh, get_None_keys.
Qed.

Lemma get_cache (c : SubtitleCache.t) (index : Z) :
  NoDup (JsMap.keys (SubtitleCache.cache c)) ->
  SubtitleCache.get c index
  = match JsMap.get (SubtitleCache.cache c) index with
    | Some (Some data) =>
        (Some (Some data),
         SubtitleCache.make (SubtitleCache.maxSize c)
           (JsMap.delete (SubtitleCache.cache c) index ++ [(index, Some data)]))
    | _ => (None, c)
    end.
Proof.
  intros Hnd. unfold SubtitleCache.get.
  destruct (JsMap.get (SubtitleCache.cache c) index) as [[data|]|];
    try reflexivity.
  rewrite set_fresh; [reflexivity|].
  apply get_None_keys. now apply NoDup_delete.
Qed.

Lemma kept_ok (c : SubtitleCache.t) (index : Z) :
  0 < SubtitleCache.maxSize c -> cache_ok c ->
  NoDup (JsMap.keys (kept c index))
  /\ ~ In index (JsMap.keys (kept c index))
  /\ S (length (kept c index)) <= SubtitleCache.maxSize c.
Proof.
  intros Hpos [Hnd Hsize]. unfold kept, JsMap.size in *.
  destruct (JsMap.has (SubtitleCache.cache c) index) eqn:Hhas.
  - destruct (@NoDup_delete _ _ index Hnd) as [H1 H2].
    pose proof (length_delete _ _ Hhas). repeat split; auto; lia.
  - apply has_false_keys in Hhas.
    destruct (Nat.leb_spec (SubtitleCache.maxSize c)
                (length (SubtitleCache.cache c))) as [Hfull|Hroom].
    + destruct (SubtitleCache.cache c) as [|[k v] m]; simpl in *.
      * repeat split; auto; lia.
      * inversion Hnd; subst. repeat split; auto; lia.
    + repeat split; auto; lia.
Qed.

Lemma keys_snoc {V : Type} (m : JsMap.t V) (k : Z) (v : V) :
  JsMap.keys (m ++ [(k, v)]) = JsMap.keys m ++ [k].
Proof. unfold JsMap.keys. now rewrite map_app. Qed.

Lemma NoDup_snoc (l : list Z) (k : Z) :
  NoDup l -> ~ In k l -> NoDup (l ++ [k]).
Proof.
  intros Hnd Hk. apply NoDup_app; [exact Hnd | repeat constructor; auto |].
  intros x Hx [<-|[]]. now apply Hk.
Qed.

Lemma set_ok (c : SubtitleCache.t) (index : Z) (value : option SubtitleData.t) :
  0 < SubtitleCache.maxSize c -> cache_ok c ->
  cache_ok (SubtitleCache.set c index value).
Proof.
  intros Hpos Hok. rewrite set_cache by apply Hok.
  destruct (@kept_ok c index Hpos Hok) as (Hnd & Hnotin & Hlen).
  unfold cache_ok, JsMap.size. simpl. rewrite keys_snoc, length_app. simpl.
  split; [now apply NoDup_snoc | lia].
Qed.

Lemma get_ok (c : SubtitleCache.t) (index : Z) :
  cache_ok c -> cache_ok (snd (SubtitleCache.get c index)).
Proof.
  intros [Hnd Hsize]. rewrite get_cache by exact Hnd.
  destruct (JsMap.get (SubtitleCache.cache c) index) as [[data|]|] eqn:Hget;
    simpl; try (split; assumption).
  destruct (@NoDup_delete _ _ index Hnd) as [H1 H2].
  assert (JsMap.has (SubtitleCache.cache c) index = true) as Hhas
    by (unfold JsMap.has; now rewrite Hget).
  pose proof (length_delete _ _ Hhas).
  unfold cache_ok, JsMap.size in *. simpl. rewrite keys_snoc, length_app. simpl.
  split; [now apply NoDup_snoc | lia].
Qed.

Lemma get_maxSize (c : SubtitleCache.t) (index : Z) :
  SubtitleCache.maxSize (snd (SubtitleCache.get c index))
  = SubtitleCache.maxSize c.
Proof.
  unfold SubtitleCache.get.
  now destruct (JsMap.get (SubtitleCache.cache c) index) as [[data|]|].
Qed.

Lemma steps_ok (ops : list Spec.CacheOp) :
  forall c, 0 < SubtitleCache.maxSize c -> cache_ok c ->
    cache_ok (fold_left Spec.step ops c)
    /\ SubtitleCache.maxSize (fold_left Spec.step ops c) = SubtitleCache.maxSize c.
Proof.
  induction ops as [|op ops IH]; intros c Hpos Hok; simpl.
  - split; [exact Hok | reflexivity].
  - destruct op as [index|index value]; simpl.
    + destruct (IH (snd (SubtitleCache.get c index))) as [H1 H2].
      * now rewrite get_maxSize.
      * now apply get_ok.
      * split; [exact H1|]. now rewrite H2, get_maxSize.
    + destruct (IH (SubtitleCache.set c index value)) as [H1 H2]; auto.
      now apply set_ok.
Qed.

(** ** Lookups: claims *)

Lemma computeSubtitleAtIndex_displaySets (this1 this2 : Pgs.t) (index : Z) :
  Pgs.displaySets this1 = Pgs.displaySets this2 ->
  Pgs.computeSubtitleAtIndex this1 index = Pgs.computeSubtitleAtIndex this2 index.
Proof.
  intros Hsame. unfold Pgs.computeSubtitleAtIndex. now rewrite Hsame.
Qed.

(** What a lookup does to the state, when the compiler returns. *)
Lemma getSubtitleAtIndex_state (this : Pgs.t) (index : Z)
  (result : option SubtitleData.t) :
  NoDup (JsMap.keys (SubtitleCache.cache (Pgs.subtitleCache this))) ->
  Pgs.computeSubtitleAtIndex this index = Ok result ->
  exists value,
    Pgs.getSubtitleAtIndex this index
    = (Ok value,
       Pgs.make (Pgs.displaySets this) (Pgs.updateTimestamps this)
         (SubtitleCache.make (SubtitleCache.maxSize (Pgs.subtitleCache this))
            (kept (Pgs.subtitleCache this) index ++ [(index, value)])))
    /\ (JsMap.get (SubtitleCache.cache (Pgs.subtitleCache this)) index
        = Some value /\ value <> None
        \/ value = result).
Proof.
  intros Hnd Hcompute. unfold Pgs.getSubtitleAtIndex.
  rewrite get_cache by exact Hnd.
  destruct (JsMap.get (SubtitleCache.cache (Pgs.subtitleCache this)) index)
    as [[data|]|] eqn:Hget.
  - exists (Some data). split.
    + unfold kept, JsMap.has. rewrite Hget. reflexivity.
    + left. split; [reflexivity | discriminate].
  - exists result. split; [|now right].
    rewrite (@computeSubtitleAtIndex_displaySets
               (Pgs.make (Pgs.displaySets this) (Pgs.updateTimestamps this)
                  (Pgs.subtitleCache this)) this index eq_refl), Hcompute.
    cbn [Pgs.displaySets Pgs.updateTimestamps Pgs.subtitleCache].
    now rewrite set_cache by exact Hnd.
  - exists result. split; [|now right].
    rewrite (@computeSubtitleAtIndex_displaySets
               (Pgs.make (Pgs.displaySets this) (Pgs.updateTimestamps this)
                  (Pgs.subtitleCache this)) this index eq_refl), Hcompute.
    cbn [Pgs.displaySets Pgs.updateTimestamps Pgs.subtitleCache].
    now rewrite set_cache by exact Hnd.
Qed.

Lemma kept_suffix (c : SubtitleCache.t) (index : Z)
  (older newer : JsMap.t (option SubtitleData.t)) :
  SubtitleCache.cache c = older ++ newer ->
  ~ In index (JsMap.keys newer) ->
  length newer < SubtitleCache.maxSize c ->
  exists older', kept c index = older' ++ newer.
Proof.
  intros Hcache Hnotin Hlen. unfold kept, JsMap.size. rewrite Hcache.
  destruct (JsMap.has (older ++ newer) index) eqn:Hhas.
  - exists (JsMap.delete older index). apply delete_app_l.
    destruct (in_dec Z.eq_dec index (JsMap.keys older)) as [Hin|Hout];
      [exact Hin|].
    assert (JsMap.has (older ++ newer) index = false) as Habs; [|congruence].
    apply has_false_keys. unfold JsMap.keys. rewrite map_app.
    intros Hin. apply in_app_or in Hin. tauto.
  - destruct (Nat.leb_spec (SubtitleCache.maxSize c) (length (older ++ newer)))
      as [Hfull|Hroom].
    + destruct older as [|entry older].
      * simpl in Hfull. lia.
      * exists older. reflexivity.
    + now exists older.
Qed.

(** After lookups on distinct indices, these indices are the newest keys
    of the cache, in the order of the lookups. *)
Lemma lookups_suffix (indices : list Z) :
  forall this older newer,
    cache_ok (Pgs.subtitleCache this) ->
    SubtitleCache.maxSize (Pgs.subtitleCache this) = 8 ->
    SubtitleCache.cache (Pgs.subtitleCache this) = older ++ newer ->
    NoDup (JsMap.keys newer ++ indices) ->
    length (JsMap.keys newer ++ indices) <= 8 ->
    (forall i, In i indices ->
               exists r, Pgs.computeSubtitleAtIndex this i = Ok r) ->
    cache_ok (Pgs.subtitleCache (Spec.lookups this indices))
    /\ SubtitleCache.maxSize (Pgs.subtitleCache (Spec.lookups this indices)) = 8
    /\ Pgs.displaySets (Spec.lookups this indices) = Pgs.displaySets this
    /\ exists older' newer',
         SubtitleCache.cache (Pgs.subtitleCache (Spec.lookups this indices))
         = older' ++ newer'
         /\ JsMap.keys newer' = JsMap.keys newer ++ indices.
Proof.
  induction indices as [|index indices IH];
    intros this older newer Hok Hmax Hcache Hnd Hlen Hcompute.
  - simpl. split; [exact Hok|]. split; [exact Hmax|]. split; [reflexivity|].
    exists older, newer. split; [exact Hcache | now rewrite app_nil_r].
  - destruct (Hcompute index (or_introl eq_refl)) as [r Hr].
    destruct (@getSubtitleAtIndex_state this index r (proj1 Hok) Hr)
      as (value & Hrun & _).
    assert (~ In index (JsMap.keys newer)) as Hfresh.
    { intros Hin. apply NoDup_remove_2 in Hnd. apply Hnd.
      apply in_or_app. now left. }
    assert (length newer < 8) as Hshort.
    { rewrite length_app in Hlen. unfold JsMap.keys in Hlen.
      rewrite length_map in Hlen. simpl in Hlen. lia. }
    destruct (@kept_suffix (Pgs.subtitleCache this) index older newer Hcache
                Hfresh ltac:(lia)) as [older' Hkept].
    destruct (@kept_ok (Pgs.subtitleCache this) index ltac:(lia) Hok)
      as (Hknd & Hkfresh & Hklen).
    cbn [Spec.lookups fold_left]. rewrite Hrun. cbn [snd].
    destruct (IH (Pgs.make (Pgs.displaySets this) (Pgs.updateTimestamps this)
                    (SubtitleCache.make
                       (SubtitleCache.maxSize (Pgs.subtitleCache this))
                       (kept (Pgs.subtitleCache this) index ++ [(index, value)])))
                older' (newer ++ [(index, value)]))
      as (Hok' & Hmax' & Hsets & older'' & newer'' & Hcache' & Hkeys').
    + unfold cache_ok, JsMap.size. simpl. rewrite keys_snoc, length_app. simpl.
      split; [now apply NoDup_snoc | lia].
    + exact Hmax.
    + simpl. now rewrite Hkept, app_assoc.
    + rewrite keys_snoc, <- app_assoc. exact Hnd.
    + rewrite keys_snoc, <- app_assoc. exact Hlen.
    + intros i Hi.
      destruct (Hcompute i (or_intror Hi)) as [ri Hri]. exists ri.
      now rewrite <- Hri.
    + fold (Spec.lookups
              (Pgs.make (Pgs.displaySets this) (Pgs.updateTimestamps this)
                 (SubtitleCache.make
                    (SubtitleCache.maxSize (Pgs.subtitleCache this))
                    (kept (Pgs.subtitleCache this) index ++ [(index, value)])))
              indices).
      split; [exact Hok'|]. split; [exact Hmax'|]. split; [exact Hsets|].
      exists older'', newer''. split; [exact Hcache'|].
      now rewrite Hkeys', keys_snoc, <- app_assoc.
Qed.

(** C4. The code departs from the claim: the absent outcome is stored,
    but [SubtitleCache.get] answers [null] ("not in cache") for it, so the
    second [getSubtitleAtIndex] takes the compute branch again. On a new
    [Pgs], index 0: the first lookup returns absent and stores the marker;
    the cache then holds key 0, and [get] on it is [null]. *)
Theorem absent_entry_reads_as_miss :
  Pgs.getSubtitleAtIndex Pgs.new 0
  = (Ok None, Pgs.make [] [] (SubtitleCache.make 8 [(0%Z, None)]))
  /\ JsMap.has (SubtitleCache.cache
                  (Pgs.subtitleCache (snd (Pgs.getSubtitleAtIndex Pgs.new 0)))) 0
     = true
  /\ fst (SubtitleCache.get
            (Pgs.subtitleCache (snd (Pgs.getSubtitleAtIndex Pgs.new 0))) 0)
     = None.
Proof. repeat split. Qed.

(** The same for every cache: a stored absent marker is never a hit. *)
Lemma absent_entry_never_hits (c : SubtitleCache.t) (index : Z) :
  JsMap.get (SubtitleCache.cache c) index = Some None ->
  SubtitleCache.get c index = (None, c).
Proof.
  intros Hget. unfold SubtitleCache.get. now rewrite Hget.
Qed.

Lemma getSubtitleAtIndex_miss (this : Pgs.t) (index : Z) :
  JsMap.get (SubtitleCache.cache (Pgs.subtitleCache this)) index = None ->
  fst (Pgs.getSubtitleAtIndex this index)
  = Pgs.computeSubtitleAtIndex this index.
Proof.
  intros Hget. unfold Pgs.getSubtitleAtIndex, SubtitleCache.get.
  rewrite Hget.
  rewrite (@computeSubtitleAtIndex_displaySets
             (Pgs.make (Pgs.displaySets this) (Pgs.updateTimestamps this)
                (Pgs.subtitleCache this)) this index eq_refl).
  now destruct (Pgs.computeSubtitleAtIndex this index).
Qed.

(** Nine lookups on distinct indices, from an empty cache of capacity 8:
    the keys of the cache are the last eight indices. *)
Lemma nine_lookups (this : Pgs.t) (first : Z) (rest : list Z) :
  SubtitleCache.cache (Pgs.subtitleCache this) = [] ->
  SubtitleCache.maxSize (Pgs.subtitleCache this) = 8 ->
  NoDup (first :: rest) -> length rest = 8 ->
  (forall i, In i (first :: rest) ->
             exists r, Pgs.computeSubtitleAtIndex this i = Ok r) ->
  JsMap.keys (SubtitleCache.cache
                (Pgs.subtitleCache (Spec.lookups this (first :: rest)))) = rest
  /\ Pgs.displaySets (Spec.lookups this (first :: rest)) = Pgs.displaySets this.
Proof.
  intros Hempty Hmax Hnd Hlen Hcompute.
  assert (cache_ok (Pgs.subtitleCache this)) as Hok.
  { unfold cache_ok, JsMap.size. rewrite Hempty. simpl. split; [constructor|lia]. }
  destruct (Hcompute first (or_introl eq_refl)) as [r Hr].
  destruct (@getSubtitleAtIndex_state this first r (proj1 Hok) Hr)
    as (value & Hrun & _).
  assert (kept (Pgs.subtitleCache this) first = []) as Hkept.
  { unfold kept, JsMap.size. rewrite Hempty, Hmax. reflexivity. }
  rewrite Hkept in Hrun.
  cbn [Spec.lookups fold_left]. rewrite Hrun. cbn [snd].
  set (this1 := Pgs.make (Pgs.displaySets this) (Pgs.updateTimestamps this)
                  (SubtitleCache.make
                     (SubtitleCache.maxSize (Pgs.subtitleCache this))
                     ([] ++ [(first, value)]))).
  fold (Spec.lookups this1 rest).
  destruct (@lookups_suffix rest this1 [(first, value)] [])
    as (Hok' & Hmax' & Hsets & older & newer & Hcache & Hkeys).
  - unfold cache_ok, JsMap.size. simpl. rewrite Hmax.
    split; [repeat constructor; auto | lia].
  - exact Hmax.
  - reflexivity.
  - simpl. now inversion Hnd.
  - simpl. lia.
  - intros i Hi. destruct (Hcompute i (or_intror Hi)) as [ri Hri].
    exists ri. now rewrite <- Hri.
  - split; [|exact Hsets].
    destruct Hok' as [_ Hsize]. unfold JsMap.size in Hsize.
    rewrite Hmax', Hcache, length_app in Hsize.
    simpl in Hkeys.
    assert (length newer = 8) as Hnewer.
    { rewrite <- Hlen, <- Hkeys. unfold JsMap.keys. now rewrite length_map. }
    destruct older as [|entry older]; [|simpl in Hsize; lia].
    rewrite Hcache. exact Hkeys.
Qed.

(** C5. From a new cache of capacity 8, no sequence of [get] and [set]
    leaves more than 8 entries. A [get] that hits moves the entry to the
    end of the map, the most recently used place. A [set] of a new index
    into a full cache drops the entry at the front, the least recently
    used, and appends the new one. After lookups on nine distinct indices
    from an empty cache, the first index is not in the cache, [get] on it
    is a miss, and a lookup on it compiles again, to the value that the
    first lookup returned. *)
Theorem cache_is_bounded_lru :
  (forall ops,
     JsMap.size (SubtitleCache.cache
                   (fold_left Spec.step ops (SubtitleCache.new 8))) <= 8)
  /\ (forall c index data,
        NoDup (JsMap.keys (SubtitleCache.cache c)) ->
        JsMap.get (SubtitleCache.cache c) index = Some (Some data) ->
        SubtitleCache.get c index
        = (Some (Some data),
           SubtitleCache.make (SubtitleCache.maxSize c)
             (JsMap.delete (SubtitleCache.cache c) index
                ++ [(index, Some data)])))
  /\ (forall c index value oldest others,
        NoDup (JsMap.keys (SubtitleCache.cache c)) ->
        SubtitleCache.cache c = oldest :: others ->
        SubtitleCache.maxSize c <= JsMap.size (SubtitleCache.cache c) ->
        JsMap.has (SubtitleCache.cache c) index = false ->
        SubtitleCache.set c index value
        = SubtitleCache.make (SubtitleCache.maxSize c)
            (others ++ [(index, value)]))
  /\ (forall this first rest,
        SubtitleCache.cache (Pgs.subtitleCache this) = [] ->
        SubtitleCache.maxSize (Pgs.subtitleCache this) = 8 ->
        NoDup (first :: rest) -> length rest = 8 ->
        (forall i, In i (first :: rest) ->
                   exists r, Pgs.computeSubtitleAtIndex this i = Ok r) ->
        let final := Spec.lookups this (first :: rest) in
        JsMap.has (SubtitleCache.cache (Pgs.subtitleCache final)) first = false
        /\ fst (SubtitleCache.get (Pgs.subtitleCache final) first) = None
        /\ fst (Pgs.getSubtitleAtIndex final first)
           = Pgs.computeSubtitleAtIndex final first
        /\ fst (Pgs.getSubtitleAtIndex final first)
           = fst (Pgs.getSubtitleAtIndex this first)).
Proof.
  split; [|split; [|split]].
  - intros ops.
    destruct (@steps_ok ops (SubtitleCache.new 8)) as [[_ Hsize] Hmax].
    + simpl. lia.
    + unfold cache_ok, JsMap.size. simpl. split; [constructor | lia].
    + rewrite Hmax in Hsize. exact Hsize.
  - intros c index data Hnd Hget. rewrite get_cache by exact Hnd.
    now rewrite Hget.
  - intros c index value oldest others Hnd Hcache Hfull Hhas.
    rewrite set_cache by exact Hnd. unfold kept. rewrite Hhas.
    apply Nat.leb_le in Hfull. rewrite Hfull, Hcache. reflexivity.
  - intros this first rest Hempty Hmax Hnd Hlen Hcompute final.
    destruct (@nine_lookups this first rest Hempty Hmax Hnd Hlen Hcompute)
      as [Hkeys Hsets].
    fold final in Hkeys, Hsets.
    assert (JsMap.get (SubtitleCache.cache (Pgs.subtitleCache final)) first
            = None) as Hmiss.
    { apply get_None_keys. rewrite Hkeys. now inversion Hnd. }
    split; [|split; [|split]].
    + unfold JsMap.has. now rewrite Hmiss.
    + unfold SubtitleCache.get. now rewrite Hmiss.
    + now apply getSubtitleAtIndex_miss.
    + rewrite !getSubtitleAtIndex_miss; auto.
      * now apply computeSubtitleAtIndex_displaySets.
      * now rewrite Hempty.
Qed.

Lemma cache_is_bounded_lru_witness :
  JsMap.has
    (SubtitleCache.cache
       (Pgs.subtitleCache
          (Spec.lookups Example.loaded [0; 1; 2; 3; 4; 5; 6; 7; 8]%Z))) 0
  = false
  /\ fst (Pgs.getSubtitleAtIndex
            (Spec.lookups Example.loaded [0; 1; 2; 3; 4; 5; 6; 7; 8]%Z) 0)
     = fst (Pgs.getSubtitleAtIndex Example.loaded 0).
Proof.
  assert (NoDup [0; 1; 2; 3; 4; 5; 6; 7; 8]%Z) as Hnd.
  { repeat (constructor;
            [simpl; intros H; repeat (destruct H as [H|H]; try discriminate);
             exact H|]).
    constructor. }
  assert (forall i, In i [0; 1; 2; 3; 4; 5; 6; 7; 8]%Z ->
                    exists r, Pgs.computeSubtitleAtIndex Example.loaded i = Ok r)
    as Hcompute.
  { intros i Hi. simpl in Hi.
    repeat (destruct Hi as [<-|Hi]; [eexists; vm_compute; reflexivity|]).
    destruct Hi. }
  destruct (proj2 (proj2 (proj2 cache_is_bounded_lru))
              Example.loaded 0%Z [1; 2; 3; 4; 5; 6; 7; 8]%Z
              eq_refl eq_refl Hnd eq_refl Hcompute)
    as (Hhas & _ & _ & Hsame).
  split; [exact Hhas | exact Hsame].
Defined.

(** ** Lookup by time: claims *)

Lemma increasing_nondecreasing (l : list Z) :
  Spec.increasing l -> Spec.nondecreasing l.
Proof.
  induction l as [|x l IH]; simpl; [tauto|].
  destruct l as [|y l]; [tauto|].
  intros [Hlt Hrest]. split; [lia | now apply IH].
Qed.

Lemma increasing_nth (l : list Z) :
  Spec.increasing l ->
  forall i j x y, i < j -> nth_error l i = Some x -> nth_error l j = Some y ->
                  (x < y)%Z.
Proof.
  induction l as [|a l IH]; intros Hinc i j x y Hij Hi Hj.
  - destruct i; discriminate.
  - assert (Spec.increasing l) as Hrest.
    { simpl in Hinc. destruct l; [exact I | apply Hinc]. }
    destruct j as [|j]; [lia|]. simpl in Hj.
    destruct i as [|i]; simpl in Hi.
    + injection Hi as ->.
      destruct l as [|b l]; [destruct j; discriminate|].
      assert (x < b)%Z by apply Hinc.
      destruct j as [|j]; simpl in Hj.
      * injection Hj as ->. assumption.
      * assert (b < y)%Z; [|lia].
        apply (IH Hrest 0 (S j) b y); [lia | reflexivity | exact Hj].
    + apply (IH Hrest i j); auto. lia.
Qed.

Lemma ticks_of_seconds (x : Z) :
  (inject_Z x / inject_Z 90000 * inject_Z 90000 == inject_Z x)%Q.
Proof.
  rewrite Qmult_comm. apply Qmult_div_r. discriminate.
Qed.

(** At the time of timestamp [i], not the last one, of a strictly
    increasing list, the index is [i]. *)
Lemma getIndexFromTimestamps_exact (timestamps : list Z) (i : nat) (x : Z) :
  Spec.increasing timestamps ->
  (Z.of_nat (length timestamps) <= 2 ^ 31)%Z ->
  nth_error timestamps i = Some x ->
  S i < length timestamps ->
  PgsRendererHelper.getIndexFromTimestamps (inject_Z x / inject_Z 90000)
    timestamps = Ok (Z.of_nat i).
Proof.
  intros Hinc Hlen Hx Hi.
  pose proof (increasing_nondecreasing _ Hinc) as Hsorted.
  destruct (nth_error timestamps 0) as [first|] eqn:Hfirst.
  2:{ apply nth_error_None in Hfirst. lia. }
  destruct (nth_error timestamps (length timestamps - 1)) as [last|] eqn:Hlast.
  2:{ apply nth_error_None in Hlast. lia. }
  pose proof (ticks_of_seconds x) as Ht.
  assert (first <= x)%Z as Hfx.
  { apply (@nondecreasing_nth timestamps Hsorted 0 i); auto. lia. }
  assert (x < last)%Z as Hxl.
  { apply (@increasing_nth timestamps Hinc i (length timestamps - 1)); auto.
    lia. }
  destruct (proj2 (proj2 (proj2
              (@getIndexFromTimestamps_cases (inject_Z x / inject_Z 90000)
                 timestamps Hsorted Hlen))) first last Hfirst Hlast)
    as (i' & Hrun & (x' & Hx' & Hle') & Hmax).
  - rewrite Ht. now rewrite <- Zle_Qle.
  - rewrite Ht. now rewrite <- Zlt_Qlt.
  - rewrite Hrun. f_equal. f_equal.
    assert (i <= i') as H1.
    { apply (Hmax i x Hx). rewrite Ht. apply Qle_refl. }
    rewrite Ht, <- Zle_Qle in Hle'.
    destruct (Nat.eq_dec i i') as [|Hne]; [congruence|].
    assert (x < x')%Z; [|lia].
    apply (@increasing_nth timestamps Hinc i i'); auto. lia.
Qed.




(** ** Rectangles: further properties *)

(** X1. The union of a rectangle that is not empty with an area is the
    smallest rectangle that includes both. *)
Theorem union_is_bounding_box (this : Rect.t) (x y width height : Z)
  (Hthis : Rect.empty this = false) :
  let r := Rect.union this x y (Some width) (Some height) in
  Rect.empty r = false
  /\ covers r (Rect.x this) (Rect.y this) (Rect.width this) (Rect.height this)
  /\ covers r x y width height
  /\ forall outer,
       covers outer (Rect.x this) (Rect.y this) (Rect.width this)
         (Rect.height this) ->
       covers outer x y width height ->
       covers outer (Rect.x r) (Rect.y r) (Rect.width r) (Rect.height r).
Proof.
  unfold Rect.union, covers. rewrite Hthis. cbn.
  repeat split; try lia.
  all: intros; lia.
Qed.

Lemma union_is_bounding_box_witness :
  Rect.union (Rect.make false 10 10 5 5) 0 12 (Some 4%Z) (Some 20%Z)
  = Rect.make false 0 10 15 22
  /\ covers (Rect.union (Rect.make false 10 10 5 5) 0 12 (Some 4%Z) (Some 20%Z))
       0 12 4 20.
Proof.
  split; [reflexivity|].
  exact (proj1 (proj2 (proj2
    (@union_is_bounding_box (Rect.make false 10 10 5 5) 0 12 4 20 eq_refl)))).
Defined.

Lemma union_swap (r : Rect.t) (a b : Z * Z * Z * Z) :
  unions [a; b] r = unions [b; a] r.
Proof.
  destruct a as [[[xa ya] wa] ha], b as [[[xb yb] wb] hb].
  unfold unions, Rect.union. cbn.
  destruct (Rect.empty r); cbn; f_equal; lia.
Qed.

(** X2. The rectangle that a sequence of unions builds does not depend on
    the order of the unions. *)
Theorem unions_any_order (areas1 areas2 : list (Z * Z * Z * Z)) (r : Rect.t)
  (Hperm : Permutation areas1 areas2) :
  unions areas1 r = unions areas2 r.
Proof.
  revert r. induction Hperm as [|a l1 l2 _ IH|a b l|l1 l2 l3 _ IH1 _ IH2];
    intros r.
  - reflexivity.
  - unfold unions in *. cbn [fold_left]. apply IH.
  - change (unions (b :: a :: l) r) with (unions l (unions [b; a] r)).
    change (unions (a :: b :: l) r) with (unions l (unions [a; b] r)).
    now rewrite union_swap.
  - now rewrite IH1.
Qed.

Lemma unions_any_order_witness :
  unions [(10, 10, 5, 5); (0, 12, 4, 20); (3, 3, 1, 1)]%Z Rect.new
  = unions [(3, 3, 1, 1); (10, 10, 5, 5); (0, 12, 4, 20)]%Z Rect.new.
Proof.
  apply unions_any_order.
  apply Permutation_sym.
  exact (Permutation_cons_append [(10, 10, 5, 5); (0, 12, 4, 20)]%Z
           (3, 3, 1, 1)%Z).
Defined.

(** ** The array reader: further properties *)

Lemma subarray_skipn (array : list byte) (position count : nat) :
  ArrayBinaryReader.subarray array position (position + count)
  = firstn count (skipn position array).
Proof.
  unfold ArrayBinaryReader.subarray. f_equal. lia.
Qed.

Lemma array_readBytes_slice (r : ArrayBinaryReader.t) (count : nat) :
  fst (ArrayBinaryReader.readBytes r count)
  = firstn count (skipn (ArrayBinaryReader.position_ r)
                    (ArrayBinaryReader.array r))
  /\ snd (ArrayBinaryReader.readBytes r count)
     = ArrayBinaryReader.make (ArrayBinaryReader.array r)
         (ArrayBinaryReader.position_ r + count).
Proof.
  unfold ArrayBinaryReader.readBytes.
  cbn [fst snd ArrayBinaryReader.array ArrayBinaryReader.position_].
  now rewrite subarray_skipn.
Qed.

Lemma readByteTimes_bytes (count : nat) :
  forall array position,
    readByteTimes count (ArrayBinaryReader.make array position)
    = (map (fun b => number (u8 b)) (firstn count (skipn position array))
         ++ repeat undefined
              (count - length (firstn count (skipn position array))),
       ArrayBinaryReader.make array (position + count)).
Proof.
  induction count as [|count IH]; intros array position.
  - simpl. now rewrite Nat.add_0_r.
  - cbn [readByteTimes]. unfold ArrayBinaryReader.readByte.
    cbn [ArrayBinaryReader.array ArrayBinaryReader.position_].
    rewrite IH. replace (S position + count) with (position + S count) by lia.
    f_equal.
    destruct (skipn position array) as [|b rest] eqn:Hskip.
    + assert (nth_error array position = None) as ->.
      { apply nth_error_None.
        apply (f_equal (@length byte)) in Hskip.
        rewrite length_skipn in Hskip. simpl in Hskip. lia. }
      assert (skipn (S position) array = []) as ->.
      { apply skipn_all2.
        apply (f_equal (@length byte)) in Hskip.
        rewrite length_skipn in Hskip. simpl in Hskip. lia. }
      rewrite !firstn_nil. simpl. now rewrite Nat.sub_0_r.
    + destruct (skipn_cons_inv _ _ Hskip) as [-> ->]. reflexivity.
Qed.

(** X3. [readBytes(count)] of an [ArrayBinaryReader] returns the bytes
    from the position to the end of the array, at most [count] of them,
    and moves the position by [count] also when fewer are left;
    [readBytesCopy] returns the same; [count] calls of [readByte] read the
    same bytes, then [undefined] for every byte that is missing, and leave
    the reader in the same state. *)
Theorem array_readBytes_is_slice (r : ArrayBinaryReader.t) (count : nat) :
  ArrayBinaryReader.readBytes r count
  = (firstn count (skipn (ArrayBinaryReader.position r)
                     (ArrayBinaryReader.array r)),
     ArrayBinaryReader.make (ArrayBinaryReader.array r)
       (ArrayBinaryReader.position r + count))
  /\ ArrayBinaryReader.readBytesCopy r count = ArrayBinaryReader.readBytes r count
  /\ length (fst (ArrayBinaryReader.readBytes r count))
     = Nat.min count (ArrayBinaryReader.length r - ArrayBinaryReader.position r)
  /\ readByteTimes count r
     = (map (fun b => number (u8 b)) (fst (ArrayBinaryReader.readBytes r count))
          ++ repeat undefined
               (count - length (fst (ArrayBinaryReader.readBytes r count))),
        snd (ArrayBinaryReader.readBytes r count)).
Proof.
  assert (ArrayBinaryReader.readBytes r count
          = (firstn count (skipn (ArrayBinaryReader.position r)
                             (ArrayBinaryReader.array r)),
             ArrayBinaryReader.make (ArrayBinaryReader.array r)
               (ArrayBinaryReader.position r + count))) as Hread.
  { unfold ArrayBinaryReader.readBytes, ArrayBinaryReader.position.
    cbn [ArrayBinaryReader.array ArrayBinaryReader.position_].
    now rewrite subarray_skipn. }
  split; [exact Hread|]. split; [|split].
  - rewrite Hread. unfold ArrayBinaryReader.readBytesCopy,
      ArrayBinaryReader.position.
    now rewrite subarray_skipn.
  - rewrite Hread. cbn [fst].
    rewrite length_firstn, length_skipn. reflexivity.
  - rewrite Hread. cbn [fst snd]. destruct r as [array position].
    apply readByteTimes_bytes.
Qed.

(** ** The combined reader: further properties *)

Lemma blit_length (result : list byte) :
  forall chunk offset, length (CombinedBinaryReader.blit result chunk offset)
                       = length result.
Proof.
  induction result as [|b result IH]; intros chunk offset; simpl.
  - reflexivity.
  - destruct offset; [destruct chunk|]; simpl; now rewrite ?IH.
Qed.

Lemma blit_splice (result : list byte) :
  forall chunk offset,
    offset + length chunk <= length result ->
    CombinedBinaryReader.blit result chunk offset
    = firstn offset result ++ chunk ++ skipn (offset + length chunk) result.
Proof.
  induction result as [|b result IH]; intros chunk offset Hfit.
  - destruct chunk; [|simpl in Hfit; lia]. now destruct offset.
  - destruct offset as [|offset].
    + destruct chunk as [|c chunk]; [reflexivity|].
      cbn [CombinedBinaryReader.blit]. rewrite IH by (simpl in Hfit; lia).
      reflexivity.
    + cbn [CombinedBinaryReader.blit]. rewrite IH by (simpl in Hfit; lia).
      reflexivity.
Qed.

Lemma firstn_add {A : Type} (a b : nat) (l : list A) :
  firstn (a + b) l = firstn a l ++ firstn b (skipn a l).
Proof.
  revert l. induction a as [|a IH]; intros l.
  - reflexivity.
  - destruct l as [|x l]; [now rewrite !firstn_nil|].
    simpl. now rewrite IH.
Qed.

Lemma app_firstn_skipn {A : Type} (l r : list A) (n : nat) :
  firstn (length l) (l ++ r) = l /\ skipn (length l + n) (l ++ r) = skipn n r.
Proof.
  induction l as [|x l [IH1 IH2]]; simpl.
  - split; reflexivity.
  - split; [now rewrite IH1 | exact IH2].
Qed.

Lemma splice_compose {A : Type} (left chunk right more : list A) (a b : nat) :
  length left = a -> length chunk = b ->
  firstn (a + b) (left ++ chunk ++ right) ++ more
    ++ skipn (a + b + length more) (left ++ chunk ++ right)
  = left ++ (chunk ++ more) ++ skipn (length more) right.
Proof.
  intros <- <-. rewrite <- length_app, (app_assoc left chunk right).
  destruct (app_firstn_skipn (left ++ chunk) right (length more)) as [-> ->].
  now rewrite <- !app_assoc.
Qed.

(** With no byte left the skipping loop leaves [currentSubReader] null
    and the rest of the reader as it was. *)
Lemma advance_exhausted (len : nat) (r : CombinedBinaryReader.t) :
  combined_remains len r [] ->
  exists index,
    CombinedBinaryReader.advance
      (S (length (CombinedBinaryReader.subReaders r))) r
    = Ok (CombinedBinaryReader.make (CombinedBinaryReader.subReaders r)
            (CombinedBinaryReader.length_ r) (CombinedBinaryReader.position_ r)
            index None).
Proof.
  destruct r as [subReaders length_ position_ index current].
  intros (-> & Hlen & Hcur). cbn in Hlen, Hcur.
  cbn [CombinedBinaryReader.subReaders CombinedBinaryReader.length_
       CombinedBinaryReader.position_].
  destruct current as [c|].
  - destruct Hcur as (-> & cur & rest & Hskip & Hzero & Hinput).
    assert (length rest < S (length subReaders)) as Hfuel.
    { apply (f_equal (@length ArrayBinaryReader.t)) in Hskip.
      rewrite length_skipn in Hskip. simpl in Hskip. lia. }
    destruct (@advance_end rest (S (length subReaders)) subReaders
                length_ position_ index cur Hfuel Hskip Hzero
                (eq_sym Hinput)) as (c' & ->).
    now exists c'.
  - exists index. now rewrite advance_null.
Qed.

Lemma readBytesLoop_bytes (count len : nat) (fuel : nat) :
  forall r input result offset,
    combined_remains len r input ->
    offset <= count -> length result = count -> count - offset <= fuel ->
    exists r',
      CombinedBinaryReader.readBytesLoop fuel r count result offset
      = Ok (firstn offset result ++ firstn (count - offset) input
              ++ skipn (offset + length (firstn (count - offset) input)) result,
            r')
      /\ combined_remains len r' (skipn (count - offset) input)
      /\ CombinedBinaryReader.position_ r'
         = CombinedBinaryReader.position_ r
           + length (firstn (count - offset) input).
Proof.
  induction fuel as [|fuel IH];
    intros r input result offset Hr Hoffset Hresult Hfuel.
  - assert (offset = count) as -> by lia.
    exists r. simpl. rewrite Nat.ltb_irrefl, Nat.sub_diag. simpl.
    rewrite !Nat.add_0_r, firstn_skipn.
    split; [reflexivity|]. split; [exact Hr | reflexivity].
  - cbn [CombinedBinaryReader.readBytesLoop].
    destruct (Nat.ltb_spec offset count) as [Hlt|Hge].
    2:{ assert (offset = count) as -> by lia.
        exists r. rewrite Nat.sub_diag. simpl.
        rewrite !Nat.add_0_r, firstn_skipn.
        split; [reflexivity|]. split; [exact Hr | reflexivity]. }
    destruct input as [|b input].
    + destruct (advance_exhausted Hr) as (index & ->).
      cbn [Js.bind CombinedBinaryReader.currentSubReader].
      eexists. split; [|split].
      * rewrite firstn_nil. simpl. now rewrite Nat.add_0_r, firstn_skipn.
      * rewrite skipn_nil.
        destruct Hr as (Hl & Hp & _).
        split; [exact Hl|]. split; [exact Hp | reflexivity].
      * rewrite firstn_nil. simpl. lia.
    + destruct r as [subReaders length_ position_ index current].
      destruct Hr as (Hl & Hp & Hcur). cbn in Hl, Hp, Hcur. subst len.
      destruct current as [c|]; [|discriminate].
      destruct Hcur as (-> & cur & rest & Hskip & Hzero & Hinput).
      assert (length rest < S (length subReaders)) as Hadv.
      { apply (f_equal (@length ArrayBinaryReader.t)) in Hskip.
        rewrite length_skipn in Hskip. simpl in Hskip. lia. }
      destruct (@advance_next rest (S (length subReaders)) subReaders
                  length_ position_ index cur b input Hadv Hskip Hzero
                  (eq_sym Hinput))
        as (c' & cur' & rest' & Hrun & Hskip' & Hzero' & tail & Htail & Hin).
      cbn [CombinedBinaryReader.subReaders]. rewrite Hrun.
      cbn [Js.bind CombinedBinaryReader.currentSubReader
           CombinedBinaryReader.subReaders CombinedBinaryReader.length_
           CombinedBinaryReader.position_ CombinedBinaryReader.subReaderIndex].
      destruct (skipn_cons_inv _ _ Hskip') as [-> _].
      pose proof (f_equal (@length byte) Htail) as Havail.
      rewrite length_skipn in Havail. simpl in Havail.
      unfold ArrayBinaryReader.length, ArrayBinaryReader.position.
      set (toRead := Nat.min (length (ArrayBinaryReader.array cur')
                              - ArrayBinaryReader.position_ cur')
                             (count - offset)).
      assert (1 <= toRead <= S (length tail)) as HtoRead by (unfold toRead; lia).
      assert (toRead <= count - offset) as Hroom by (unfold toRead; lia).
      destruct (array_readBytes_slice cur' toRead) as [Hchunk Hcur'].
      rewrite (surjective_pairing (ArrayBinaryReader.readBytes cur' toRead)).
      rewrite Hchunk, Hcur', Htail.
      set (chunk := firstn toRead (b :: tail)).
      assert (length chunk = toRead) as Hclen.
      { unfold chunk. rewrite length_firstn. simpl. lia. }
      assert (firstn toRead (b :: input) = chunk) as Hprefix.
      { unfold chunk. rewrite Hin.
        change (b :: tail ++ concat (map ArrayBinaryReader.array rest'))
          with ((b :: tail) ++ concat (map ArrayBinaryReader.array rest')).
        rewrite firstn_app.
        replace (toRead - length (b :: tail)) with 0 by (simpl; lia).
        simpl firstn at 2. now rewrite app_nil_r. }
      assert (skipn toRead (b :: input)
              = skipn toRead (b :: tail)
                  ++ concat (map ArrayBinaryReader.array rest')) as Hsuffix.
      { rewrite Hin.
        change (b :: tail ++ concat (map ArrayBinaryReader.array rest'))
          with ((b :: tail) ++ concat (map ArrayBinaryReader.array rest')).
        rewrite skipn_app.
        replace (toRead - length (b :: tail)) with 0 by (simpl; lia).
        reflexivity. }
      destruct (IH (CombinedBinaryReader.make
                      (set_nth subReaders c'
                         (ArrayBinaryReader.make (ArrayBinaryReader.array cur')
                            (ArrayBinaryReader.position_ cur' + toRead)))
                      length_ (position_ + toRead) c' (Some c'))
                  (skipn toRead (b :: input))
                  (CombinedBinaryReader.blit result chunk offset)
                  (offset + toRead))
        as (r' & Hloop & Hr' & Hpos).
      * split; [reflexivity|]. split.
        -- cbn [CombinedBinaryReader.position_ CombinedBinaryReader.length_].
           rewrite length_skipn. cbn [length] in *.
           assert (toRead <= S (length input)) by (rewrite Hin, length_app; lia).
           lia.
        -- cbn. split; [reflexivity|].
           eexists _, rest'. split; [|split].
           ++ eapply skipn_set_nth. exact Hskip'.
           ++ exact Hzero'.
           ++ cbn [ArrayBinaryReader.position_ ArrayBinaryReader.array].
              rewrite Hsuffix. f_equal.
              rewrite <- Htail, skipn_skipn. f_equal. lia.
      * lia.
      * rewrite blit_length. exact Hresult.
      * lia.
      * exists r'. rewrite Hloop.
        rewrite blit_splice by lia. rewrite Hclen.
        replace (count - offset) with (toRead + (count - (offset + toRead)))
          by lia.
        rewrite (firstn_add toRead), Hprefix.
        replace (toRead + (count - (offset + toRead)) - toRead)
          with (count - (offset + toRead)) in * by lia.
        set (more := firstn (count - (offset + toRead))
                       (skipn toRead (b :: input))) in *.
        assert (length (firstn offset result) = offset) as Hleft.
        { rewrite length_firstn. lia. }
        split; [|split].
        -- f_equal. f_equal.
           rewrite (@splice_compose _ (firstn offset result) chunk
                      (skipn (offset + toRead) result) more offset toRead
                      Hleft Hclen).
           rewrite length_app, Hclen, skipn_skipn.
           do 3 f_equal. lia.
        -- rewrite skipn_skipn in Hr'.
           replace (toRead + (count - (offset + toRead)) )
             with (count - (offset + toRead) + toRead) by lia.
           exact Hr'.
        -- rewrite Hpos. cbn. rewrite length_app, Hclen. lia.
Qed.

Lemma skipn_repeat {A : Type} (x : A) (n k : nat) :
  skipn k (repeat x n) = repeat x (n - k).
Proof.
  revert k. induction n as [|n IH]; intros k.
  - now rewrite skipn_nil.
  - destruct k as [|k]; [reflexivity|]. simpl. apply IH.
Qed.

(** X4. On a [CombinedBinaryReader] with the bytes [input] left,
    [readBytes(count)] returns [count] bytes: the next bytes of the input,
    across the chunk boundaries, and zeros for the bytes that the input
    does not have; the reader is left with the rest of the input and its
    position has moved by the number of bytes that were there. *)
Theorem combined_readBytes_crosses_chunks (len : nat)
  (r : CombinedBinaryReader.t) (input : list byte) (count : nat)
  (Hr : combined_remains len r input) :
  exists r',
    CombinedBinaryReader.readBytes r count
    = Ok (firstn count input ++ repeat x00 (count - length input), r')
    /\ combined_remains len r' (skipn count input)
    /\ CombinedBinaryReader.position r'
       = CombinedBinaryReader.position r + Nat.min count (length input).
Proof.
  destruct (@readBytesLoop_bytes count len count r input (repeat x00 count) 0
              Hr ltac:(lia) (repeat_length _ _) ltac:(lia))
    as (r' & Hloop & Hr' & Hpos).
  rewrite Nat.sub_0_r in *. exists r'. split; [|split].
  - unfold CombinedBinaryReader.readBytes. rewrite Hloop. simpl.
    rewrite skipn_repeat, length_firstn.
    replace (count - Nat.min count (length input)) with (count - length input)
      by lia.
    reflexivity.
  - exact Hr'.
  - unfold CombinedBinaryReader.position. rewrite Hpos, length_firstn.
    reflexivity.
Qed.

Lemma combined_readBytes_crosses_chunks_witness :
  exists r',
    CombinedBinaryReader.readBytes
      (CombinedBinaryReader.new [[x01; x02]; []; [x03]]) 5
    = Ok ([x01; x02; x03; x00; x00], r')
    /\ CombinedBinaryReader.position r' = 3.
Proof.
  destruct (@combined_readBytes_crosses_chunks _ _ _ 5
              (combined_remains_new [[x01; x02]; []; [x03]]))
    as (r' & Hread & _ & Hpos).
  exists r'. split; [exact Hread | exact Hpos].
Defined.

(** X5. A reader built by [push] is the reader built at once: pushing a
    chunk onto a new reader over [chunks] gives the new reader over
    [chunks] followed by the chunk. Pushed in the middle of reading, the
    chunk is appended to the bytes that are left, when the reader has a
    current sub-reader or has run off the end of its list. *)
Theorem push_appends (chunks : list (list byte)) (chunk : list byte) :
  CombinedBinaryReader.push (CombinedBinaryReader.new chunks) chunk
  = CombinedBinaryReader.new (chunks ++ [chunk])
  /\ forall len r input,
       combined_remains len r input ->
       (CombinedBinaryReader.currentSubReader r = None ->
        CombinedBinaryReader.subReaderIndex r
        = length (CombinedBinaryReader.subReaders r)) ->
       combined_remains (len + length chunk) (CombinedBinaryReader.push r chunk)
         (input ++ chunk).
Proof.
  split.
  - unfold CombinedBinaryReader.push, CombinedBinaryReader.new.
    cbn [CombinedBinaryReader.subReaders CombinedBinaryReader.length_
         CombinedBinaryReader.position_ CombinedBinaryReader.subReaderIndex
         CombinedBinaryReader.currentSubReader].
    rewrite map_app, fold_left_app. cbn [map fold_left].
    unfold ArrayBinaryReader.length at 2. cbn [ArrayBinaryReader.array
      ArrayBinaryReader.new]. f_equal.
    destruct chunks; reflexivity.
  - intros len r input (-> & Hlen & Hcur) Hnull.
    destruct r as [subReaders length_ position_ index current].
    cbn in Hlen, Hcur, Hnull.
    unfold combined_remains, CombinedBinaryReader.push.
    cbn [CombinedBinaryReader.subReaders CombinedBinaryReader.length_
         CombinedBinaryReader.position_ CombinedBinaryReader.subReaderIndex
         CombinedBinaryReader.currentSubReader].
    split; [reflexivity|]. split; [rewrite length_app; lia|].
    destruct current as [c|].
    + destruct Hcur as (-> & cur & rest & Hskip & Hzero & Hinput).
      split; [reflexivity|].
      exists cur, (rest ++ [ArrayBinaryReader.new chunk]). split; [|split].
      * rewrite skipn_app, Hskip.
        assert (index < length subReaders) as Hin.
        { apply (f_equal (@length ArrayBinaryReader.t)) in Hskip.
          rewrite length_skipn in Hskip. simpl in Hskip. lia. }
        replace (index - length subReaders) with 0 by lia. reflexivity.
      * apply Forall_app. split; [exact Hzero|]. now repeat constructor.
      * rewrite Hinput, map_app, concat_app. simpl.
        now rewrite app_nil_r, app_assoc.
    + rewrite <- (Hnull eq_refl). split; [reflexivity|].
      exists (ArrayBinaryReader.new chunk), []. split; [|split].
      * rewrite (Hnull eq_refl), skipn_app, skipn_all, Nat.sub_diag.
        reflexivity.
      * constructor.
      * rewrite Hcur. simpl. now rewrite app_nil_r.
Qed.

Lemma push_appends_witness :
  combined_remains (0 + length [x05; x06])
    (CombinedBinaryReader.push (CombinedBinaryReader.new []) [x05; x06])
    ([] ++ [x05; x06]).
Proof.
  exact (proj2 (push_appends [] [x05; x06]) 0 (CombinedBinaryReader.new []) []
           (combined_remains_new []) (fun _ => eq_refl)).
Defined.

(** ** The decoder: further properties *)

Lemma set_nth_length {A : Type} (l : list A) :
  forall i v, length (set_nth l i v) = length l.
Proof.
  induction l as [|a l IH]; intros i v; [reflexivity|].
  destruct i; simpl; now rewrite ?IH.
Qed.

Lemma set_nth_nth_error {A : Type} (l : list A) :
  forall i v j,
    nth_error (set_nth l i v) j
    = if (j =? i) && (i <? length l) then Some v else nth_error l j.
Proof.
  induction l as [|a l IH]; intros i v j.
  - simpl. rewrite andb_false_r. reflexivity.
  - destruct i as [|i], j as [|j]; try reflexivity.
    simpl set_nth. simpl nth_error. rewrite IH. reflexivity.
Qed.

(** What a sequence of stores leaves in a typed array. *)
Lemma emit_typed (k : NumArray.Kind) (pixels : list Value) :
  forall cells idx,
    exists cells',
      Spec.emit (NumArray.TypedArray k cells) idx pixels
      = NumArray.TypedArray k cells'
      /\ length cells' = length cells
      /\ forall i,
           nth_error cells' i
           = if (idx <=? i) && (i <? idx + length pixels) && (i <? length cells)
             then Some (NumArray.toElement k (nth (i - idx) pixels undefined))
             else nth_error cells i.
Proof.
  induction pixels as [|p pixels IH]; intros cells idx.
  - exists cells. repeat split. intros i. simpl.
    destruct (Nat.leb_spec idx i), (Nat.ltb_spec i (idx + 0)); try reflexivity.
    lia.
  - cbn [Spec.emit NumArray.store].
    destruct (IH (set_nth cells idx (NumArray.toElement k p)) (S idx))
      as (cells' & Hrun & Hlen & Hnth).
    exists cells'. rewrite set_nth_length in *.
    split; [exact Hrun|]. split; [exact Hlen|].
    intros i. rewrite Hnth, set_nth_nth_error. cbn [length].
    destruct (Nat.leb_spec (S idx) i), (Nat.leb_spec idx i),
      (Nat.ltb_spec i (S idx + length pixels)),
      (Nat.ltb_spec i (idx + S (length pixels))),
      (Nat.ltb_spec i (length cells)), (Nat.eqb_spec i idx),
      (Nat.ltb_spec idx (length cells));
      cbn [andb]; try lia; try reflexivity;
      try (replace (i - idx) with (S (i - S idx)) by lia; reflexivity);
      try (subst i; rewrite Nat.sub_diag; reflexivity);
      try (subst i; symmetry; apply nth_error_None; lia).
Qed.

Lemma emit_kept_outside (k : NumArray.Kind) (pixels : list Value)
  (cells : list Z) (idx : nat) :
  exists cells',
    Spec.emit (NumArray.TypedArray k cells) idx pixels
    = NumArray.TypedArray k cells'
    /\ kept_outside cells cells' idx (idx + length pixels).
Proof.
  destruct (emit_typed k pixels cells idx) as (cells' & Hrun & Hlen & Hnth).
  exists cells'. split; [exact Hrun|]. split; [exact Hlen|].
  intros i Hi. rewrite Hnth.
  destruct (Nat.leb_spec idx i), (Nat.ltb_spec i (idx + length pixels));
    cbn [andb]; try reflexivity; lia.
Qed.

Lemma kept_outside_trans (cells1 cells2 cells3 : list Z) (a b c : nat) :
  a <= b -> b <= c ->
  kept_outside cells1 cells2 a b -> kept_outside cells2 cells3 b c ->
  kept_outside cells1 cells3 a c.
Proof.
  intros Hab Hbc [Hl1 H1] [Hl2 H2]. split; [congruence|].
  intros i Hi. rewrite H2 by lia. apply H1. lia.
Qed.

(** The loop on an [ArrayBinaryReader] only writes from [idx] up to the
    count that it returns. *)
Lemma decodeLoop_kept_outside (k : NumArray.Kind) (source : NumArray.t)
  (data : list byte) (len : nat) (fuel : nat) :
  forall pos cells idx n target',
    RunLengthEncoding.decodeLoop fuel (ArrayBinaryReader.make data pos)
      len source (NumArray.TypedArray k cells) idx = Ok (n, target') ->
    idx <= n
    /\ exists cells',
         target' = NumArray.TypedArray k cells'
         /\ kept_outside cells cells' idx n.
Proof.
  induction fuel as [|fuel IH]; intros pos cells idx n target' Hrun.
  - discriminate.
  - cbn [RunLengthEncoding.decodeLoop] in Hrun.
    cbn [BinaryReader.position BinaryReader.readByte ArrayBinaryReader.ops
         ArrayBinaryReader.position ArrayBinaryReader.position_
         ArrayBinaryReader.readByte ArrayBinaryReader.array Js.bind] in Hrun.
    destruct (pos <? len).
    2:{ injection Hrun as <- <-. split; [lia|].
        exists cells. split; [reflexivity|]. split; reflexivity. }
    assert (forall pixels pos',
              RunLengthEncoding.decodeLoop fuel (ArrayBinaryReader.make data pos')
                len source
                (Spec.emit (NumArray.TypedArray k cells) idx pixels)
                (idx + length pixels) = Ok (n, target') ->
              idx <= n
              /\ exists cells',
                   target' = NumArray.TypedArray k cells'
                   /\ kept_outside cells cells' idx n) as Hstep.
    { intros pixels pos' Hnext.
      destruct (emit_kept_outside k pixels cells idx) as (cells1 & Hemit & Hk1).
      rewrite Hemit in Hnext.
      destruct (IH _ _ _ _ _ Hnext) as (Hle & cells' & -> & Hk2).
      split; [lia|]. exists cells'. split; [reflexivity|].
      apply (@kept_outside_trans cells cells1 cells' idx (idx + length pixels) n);
        auto; lia. }
    match type of Hrun with context [strictNeq0 ?b] =>
      destruct (strictNeq0 b) end.
    { match type of Hrun with
      | context [NumArray.store _ idx ?v] => apply (Hstep [v] (S pos))
      end.
      cbn [Spec.emit length]. replace (idx + 1) with (S idx) by lia.
      exact Hrun. }
    match type of Hrun with context [strictEq0 ?b] =>
      destruct (strictEq0 b) end.
    { apply (Hstep [] (S (S pos))). cbn [Spec.emit length].
      now rewrite Nat.add_0_r. }
    repeat match type of Hrun with
           | context [if truthy ?z then _ else _] => destruct (truthy z)
           end;
      cbn [Js.bind ArrayBinaryReader.position_ ArrayBinaryReader.array] in Hrun;
      rewrite fillUnrolled_emit in Hrun;
      match type of Hrun with
      | context [Spec.emit _ idx (repeat ?v ?m)] =>
          eapply Hstep with (pixels := repeat v m);
          rewrite repeat_length; exact Hrun
      end.
Qed.

(** X6. On every input, palette and typed-array buffer, [decode] on an
    [ArrayBinaryReader] and on a [Uint8Array] returns, keeps the length of
    the buffer, and leaves every cell from the returned count on as it
    was. *)
Theorem decode_keeps_rest_of_buffer (input : list byte) (source : NumArray.t)
  (k : NumArray.Kind) (cells : list Z) :
  exists n cells',
    RunLengthEncoding.decode (inl (ArrayBinaryReader.new input)) source
      (NumArray.TypedArray k cells) = Ok (n, NumArray.TypedArray k cells')
    /\ RunLengthEncoding.decode (R := ArrayBinaryReader.t) (inr input) source
         (NumArray.TypedArray k cells) = Ok (n, NumArray.TypedArray k cells')
    /\ length cells' = length cells
    /\ forall i, n <= i -> nth_error cells' i = nth_error cells i.
Proof.
  destruct (@decodeLoop_array_total (S (length input)) input (length input)
              source (NumArray.TypedArray k cells) 0 0)
    as (n & target' & Hrun); [lia|].
  destruct (@decodeLoop_kept_outside _ _ _ _ _ _ _ _ _ _ Hrun)
    as (_ & cells' & -> & Hlen & Hkept).
  exists n, cells'. split; [exact Hrun|]. split.
  - rewrite decode_fast_array. exact Hrun.
  - split; [exact Hlen|]. intros i Hi. apply Hkept. now right.
Qed.

(** X7. On an input that the decoding rule covers, [decode] into a typed
    array leaves in cell [i] the pixel [i] of the rule, converted to the
    element type, for every [i] below the pixel count that is inside the
    buffer; pixels beyond the end of the buffer are dropped but counted,
    and the cells from the count on keep their content. *)
Theorem decode_fills_typed_array (input : list byte) (source : NumArray.t)
  (k : NumArray.Kind) (cells : list Z) (pixels : list Value)
  (Hrule : Spec.rleDecode source input = Some pixels) :
  exists cells',
    RunLengthEncoding.decode (R := ArrayBinaryReader.t) (inr input) source
      (NumArray.TypedArray k cells)
    = Ok (length pixels, NumArray.TypedArray k cells')
    /\ length cells' = length cells
    /\ forall i, i < length cells ->
         nth_error cells' i
         = if i <? length pixels
           then Some (NumArray.toElement k (nth i pixels undefined))
           else nth_error cells i.
Proof.
  destruct (emit_typed k pixels cells 0) as (cells' & Hemit & Hlen & Hnth).
  exists cells'. split; [|split; [exact Hlen|]].
  - rewrite decode_fast_array, (@decode_array_rule _ _ _ _ Hrule).
    now rewrite Hemit.
  - intros i Hi. rewrite Hnth. simpl. rewrite Nat.sub_0_r.
    apply Nat.ltb_lt in Hi. rewrite Hi, andb_true_r. reflexivity.
Qed.

Lemma decode_fills_typed_array_witness :
  exists cells',
    RunLengthEncoding.decode (R := ArrayBinaryReader.t)
      (inr [x01; x00; x03; x02]) (NumArray.NumberArray [number 7; number (-1)])
      (NumArray.TypedArray NumArray.Uint8 [9; 9; 9]%Z)
    = Ok (5, NumArray.TypedArray NumArray.Uint8 cells')
    /\ nth_error cells' 0 = Some 255%Z.
Proof.
  destruct (@decode_fills_typed_array [x01; x00; x03; x02]
              (NumArray.NumberArray [number 7; number (-1)]) NumArray.Uint8
              [9; 9; 9]%Z
              [number (-1); number 7; number 7; number 7; undefined] eq_refl)
    as (cells' & Hrun & _ & Hnth).
  exists cells'. split; [exact Hrun|].
  assert (0 < length [9; 9; 9]%Z) as H0 by (simpl; lia).
  exact (Hnth 0 H0).
Defined.

(** ** The timestamp index: further properties *)

(** The loop without any order on the list: it ends, inside the bounds,
    at an index whose timestamp is at most the time. *)
Lemma search_bounds (timestamps : list Z) (t : Q)
  (Hlen : (Z.of_nat (length timestamps) <= 2 ^ 31)%Z) (fuel : nat) :
  forall left right,
    (0 <= left <= right)%Z -> (right < Z.of_nat (length timestamps))%Z ->
    (right - left <= Z.of_nat fuel)%Z ->
    PgsRendererHelper.atMost timestamps left t = true ->
    exists i,
      PgsRendererHelper.search fuel timestamps t left right = Ok i
      /\ (left <= i <= right)%Z
      /\ PgsRendererHelper.atMost timestamps i t = true.
Proof.
  induction fuel as [|fuel IH]; intros left right Hlr Hr Hfuel Hleft.
  - simpl. destruct (Z.ltb_spec left right); [lia|].
    exists left. repeat split; auto; lia.
  - cbn [PgsRendererHelper.search].
    destruct (Z.ltb_spec left right) as [Hlt|Hge].
    + assert (Z.shiftr (uint32 (left + right + 1)) 1 = (left + right + 1) / 2)%Z
        as ->.
      { unfold uint32. rewrite Z.mod_small by lia.
        now rewrite Z.shiftr_div_pow2 by lia. }
      set (mid := ((left + right + 1) / 2)%Z).
      assert (left < mid <= right)%Z as Hmid.
      { unfold mid. Z.div_mod_to_equations. lia. }
      destruct (PgsRendererHelper.atMost timestamps mid t) eqn:Hcmp.
      * destruct (IH mid right) as (i & Hrun & Hi & Hle); auto; try lia.
        exists i. repeat split; auto; lia.
      * destruct (IH left (mid - 1)%Z) as (i & Hrun & Hi & Hle); auto; try lia.
        exists i. repeat split; auto; lia.
    + exists left. repeat split; auto; lia.
Qed.





(** X10. On a list in non-decreasing order the index does not go back
    when the time goes on: of two times that both have an index, the later
    time has the later or the same index. *)
Theorem getIndexFromTimestamps_monotone (time1 time2 : Q) (timestamps : list Z)
  (i1 i2 : Z)
  (Hsorted : Spec.nondecreasing timestamps)
  (Hlen : (Z.of_nat (length timestamps) <= 2 ^ 31)%Z)
  (Htimes : (time1 <= time2)%Q)
  (H1 : PgsRendererHelper.getIndexFromTimestamps time1 timestamps = Ok i1)
  (H2 : PgsRendererHelper.getIndexFromTimestamps time2 timestamps = Ok i2)
  (Hfound1 : (0 <= i1)%Z) (Hfound2 : (0 <= i2)%Z) :
  (i1 <= i2)%Z.
Proof.
  assert (forall time i,
            PgsRendererHelper.getIndexFromTimestamps time timestamps = Ok i ->
            (0 <= i)%Z ->
            exists n, i = Z.of_nat n
                      /\ Spec.largestAtMost timestamps
                           (time * inject_Z 90000) n) as Hfound.
  { intros time i Hrun Hi.
    destruct (nth_error timestamps 0) as [first|] eqn:Hfirst.
    2:{ destruct timestamps; [|discriminate].
        vm_compute in Hrun. injection Hrun as <-. lia. }
    destruct (nth_error timestamps (length timestamps - 1)) as [last|] eqn:Hlast.
    2:{ apply nth_error_None in Hlast.
        assert (nth_error timestamps 0 <> None) as Hsome by congruence.
        apply nth_error_Some in Hsome. lia. }
    destruct (@getIndexFromTimestamps_cases time timestamps Hsorted Hlen)
      as (_ & Hbefore & Hafter & Hinside).
    destruct (Qlt_le_dec (time * inject_Z 90000) (inject_Z first)) as [Hlt|Hge].
    { rewrite (Hbefore first Hfirst Hlt) in Hrun. injection Hrun as <-. lia. }
    destruct (Qlt_le_dec (time * inject_Z 90000) (inject_Z last)) as [Hlt|Hge'].
    2:{ rewrite (Hafter last Hlast Hge') in Hrun. injection Hrun as <-. lia. }
    destruct (Hinside first last Hfirst Hlast Hge Hlt) as (n & Hn & Hlargest).
    exists n. split; [congruence | exact Hlargest]. }
  destruct (Hfound time1 i1 H1 Hfound1) as (n1 & -> & (x1 & Hx1 & Hle1) & _).
  destruct (Hfound time2 i2 H2 Hfound2) as (n2 & -> & _ & Hmax2).
  apply inj_le. apply (Hmax2 n1 x1 Hx1).
  apply Qle_trans with (time1 * inject_Z 90000)%Q; [exact Hle1|].
  apply Qmult_le_compat_r; [exact Htimes | discriminate].
Qed.

Lemma getIndexFromTimestamps_monotone_witness :
  PgsRendererHelper.getIndexFromTimestamps (3 # 2)
    [90000; 180000; 270000; 360000]%Z = Ok 0%Z
  /\ PgsRendererHelper.getIndexFromTimestamps (5 # 2)
       [90000; 180000; 270000; 360000]%Z = Ok 1%Z
  /\ (0 <= 1)%Z.
Proof.
  split; [reflexivity|]. split; [reflexivity|].
  apply (@getIndexFromTimestamps_monotone (3 # 2) (5 # 2)
           [90000; 180000; 270000; 360000]%Z 0 1).
  - simpl. lia.
  - simpl. lia.
  - unfold Qle. simpl. lia.
  - reflexivity.
  - reflexivity.
  - lia.
  - lia.
Defined.

(** ** The cache and the lookups: further properties *)

Lemma In_delete {V : Type} (m : JsMap.t V) (k : Z) (e : Z * V) :
  In e (JsMap.delete m k) -> In e m.
Proof.
  induction m as [|[k' v] m IH]; simpl; [tauto|].
  destruct (k' =? k)%Z; simpl; tauto.
Qed.

Lemma In_set {V : Type} (m : JsMap.t V) (k : Z) (v : V) (e : Z * V) :
  In e (JsMap.set m k v) -> In e m \/ e = (k, v).
Proof.
  induction m as [|[k' v'] m IH]; simpl.
  - intros [<-|[]]. now right.
  - destruct (k' =? k)%Z; simpl.
    + intros [<-|Hin]; [now right | left; now right].
    + intros [<-|Hin]; [left; now left|].
      destruct (IH Hin); [left; now right | now right].
Qed.

Lemma get_In {V : Type} (m : JsMap.t V) (k : Z) (v : V) :
  JsMap.get m k = Some v -> In (k, v) m.
Proof.
  induction m as [|[k' v'] m IH]; simpl; [discriminate|].
  destruct (Z.eqb_spec k' k) as [->|Hne].
  - intros [= ->]. now left.
  - intros Hget. right. now apply IH.
Qed.

Lemma In_cache_set (c : SubtitleCache.t) (k : Z) (v : option SubtitleData.t)
  (e : Z * option SubtitleData.t) :
  In e (SubtitleCache.cache (SubtitleCache.set c k v)) ->
  In e (SubtitleCache.cache c) \/ e = (k, v).
Proof.
  unfold SubtitleCache.set. cbn [SubtitleCache.cache]. intros Hin.
  apply In_set in Hin. destruct Hin as [Hin|Heq]; [left | now right].
  destruct (JsMap.has (SubtitleCache.cache c) k).
  - eapply In_delete. exact Hin.
  - destruct (SubtitleCache.maxSize c <=? JsMap.size (SubtitleCache.cache c));
      [|exact Hin].
    destruct (JsMap.firstKey (SubtitleCache.cache c)); [|exact Hin].
    eapply In_delete. exact Hin.
Qed.

Lemma In_cache_get (c : SubtitleCache.t) (k : Z)
  (e : Z * option SubtitleData.t) :
  In e (SubtitleCache.cache (snd (SubtitleCache.get c k))) ->
  In e (SubtitleCache.cache c).
Proof.
  unfold SubtitleCache.get.
  destruct (JsMap.get (SubtitleCache.cache c) k) as [[data|]|] eqn:Hget;
    cbn [snd SubtitleCache.cache]; auto.
  intros Hin. apply In_set in Hin. destruct Hin as [Hin| ->].
  - eapply In_delete. exact Hin.
  - now apply get_In.
Qed.

Lemma getSubtitleAtIndex_coherent (this : Pgs.t) (index : Z) :
  coherent this ->
  fst (Pgs.getSubtitleAtIndex this index)
  = Pgs.computeSubtitleAtIndex this index
  /\ coherent (snd (Pgs.getSubtitleAtIndex this index))
  /\ Pgs.displaySets (snd (Pgs.getSubtitleAtIndex this index))
     = Pgs.displaySets this.
Proof.
  intros Hcoh. unfold Pgs.getSubtitleAtIndex.
  pose proof (@In_cache_get (Pgs.subtitleCache this) index) as Hsub.
  destruct (SubtitleCache.get (Pgs.subtitleCache this) index)
    as [cached cache] eqn:Hget.
  cbn [snd] in Hsub.
  set (this1 := Pgs.make (Pgs.displaySets this) (Pgs.updateTimestamps this)
                  cache).
  assert (forall i, Pgs.computeSubtitleAtIndex this1 i
                    = Pgs.computeSubtitleAtIndex this i) as Hcompute.
  { intros i. now apply computeSubtitleAtIndex_displaySets. }
  assert (coherent this1) as Hcoh1.
  { intros k v Hin. rewrite Hcompute. apply Hcoh. now apply Hsub. }
  destruct cached as [cached|].
  - cbn [fst snd]. split; [|split; [exact Hcoh1 | reflexivity]].
    unfold SubtitleCache.get in Hget.
    destruct (JsMap.get (SubtitleCache.cache (Pgs.subtitleCache this)) index)
      as [[data|]|] eqn:Hentry; try discriminate.
    injection Hget as <- _. symmetry. apply Hcoh. now apply get_In.
  - rewrite Hcompute.
    destruct (Pgs.computeSubtitleAtIndex this index) as [result| |] eqn:Hresult;
      cbn [fst snd]; (split; [reflexivity|]);
      (split; [|reflexivity]); try exact Hcoh1.
    intros k v Hin. cbn [Pgs.subtitleCache] in Hin.
    apply In_cache_set in Hin.
    transitivity (Pgs.computeSubtitleAtIndex this k);
      [now apply computeSubtitleAtIndex_displaySets|].
    destruct Hin as [Hin|[= -> ->]]; [|exact Hresult].
    apply Hcoh. now apply Hsub.
Qed.

(** X11. The cache is transparent: from a state whose cache is coherent
    with its display sets (an empty cache is), after any sequence of
    lookups, [getSubtitleAtIndex] returns what [computeSubtitleAtIndex]
    returns on the display sets, and the cache stays coherent. *)
Theorem lookup_returns_compiled (this : Pgs.t) (indices : list Z) (index : Z)
  (Hcoherent : coherent this) :
  fst (Pgs.getSubtitleAtIndex (Spec.lookups this indices) index)
  = Pgs.computeSubtitleAtIndex this index
  /\ coherent (Spec.lookups this indices)
  /\ Pgs.displaySets (Spec.lookups this indices) = Pgs.displaySets this.
Proof.
  assert (coherent (Spec.lookups this indices)
          /\ Pgs.displaySets (Spec.lookups this indices)
             = Pgs.displaySets this) as [Hcoh Hsets].
  { revert this Hcoherent.
    induction indices as [|i indices IH]; intros this Hcoh.
    - split; [exact Hcoh | reflexivity].
    - destruct (@getSubtitleAtIndex_coherent this i Hcoh) as (_ & Hcoh1 & Hsets1).
      destruct (IH _ Hcoh1) as [Hcoh2 Hsets2].
      split; [exact Hcoh2|]. cbn [Spec.lookups fold_left] in *.
      unfold Spec.lookups in Hsets2. now rewrite Hsets2. }
  split; [|split; [exact Hcoh | exact Hsets]].
  destruct (@getSubtitleAtIndex_coherent _ index Hcoh) as (-> & _ & _).
  now apply computeSubtitleAtIndex_displaySets.
Qed.

Lemma lookup_returns_compiled_witness :
  fst (Pgs.getSubtitleAtIndex (Spec.lookups Example.loaded [0; 5; 0]%Z) 0)
  = Pgs.computeSubtitleAtIndex Example.loaded 0.
Proof.
  refine (proj1 (@lookup_returns_compiled Example.loaded [0; 5; 0]%Z 0 _)).
  intros index value Hin. destruct Hin.
Defined.

Lemma getIndexFromTimestamps_outside (time : Q) (timestamps : list Z) :
  timestamps = []
  \/ (exists first, nth_error timestamps 0 = Some first
                    /\ (time * inject_Z 90000 < inject_Z first)%Q)
  \/ (exists last, nth_error timestamps (length timestamps - 1) = Some last
                   /\ (inject_Z last <= time * inject_Z 90000)%Q) ->
  PgsRendererHelper.getIndexFromTimestamps time timestamps = Ok (-1)%Z.
Proof.
  unfold PgsRendererHelper.getIndexFromTimestamps.
  intros [->|[(first & Hfirst & Hlt)|(last & Hlast & Hle)]].
  - reflexivity.
  - destruct timestamps as [|x rest]; [discriminate|].
    injection Hfirst as ->.
    destruct (Z.of_nat (length (first :: rest)) =? 0)%Z; [reflexivity|].
    destruct (PgsRendererHelper.atMost (first :: rest)
                (Z.of_nat (length (first :: rest)) - 1) _); [reflexivity|].
    unfold PgsRendererHelper.atMost. simpl.
    destruct (Qle_bool (inject_Z first) (time * inject_Z 90000)) eqn:Hb;
      [|reflexivity].
    apply Qle_bool_iff in Hb. exfalso. apply (Qlt_not_le _ _ Hlt Hb).
  - assert (length timestamps <> 0).
    { intros H0. rewrite H0 in Hlast. destruct timestamps; discriminate. }
    destruct (Z.eqb_spec (Z.of_nat (length timestamps)) 0); [lia|].
    unfold PgsRendererHelper.atMost at 1.
    destruct (Z.ltb_spec (Z.of_nat (length timestamps) - 1) 0); [lia|].
    replace (Z.to_nat (Z.of_nat (length timestamps) - 1))
      with (length timestamps - 1) by lia.
    rewrite Hlast. apply Qle_bool_iff in Hle. now rewrite Hle.
Qed.



(** ** The subtitle compiler: further properties *)

Lemma scan_step (displaySets : list DisplaySet.t) (index : nat)
  (ctx : Pgs.Context) :
  Pgs.scan displaySets index ctx
  = match nth_error displaySets index with
    | None => Throw TypeError
    | Some currentSet =>
        if Pgs.stateIsNot0 currentSet
        then Ok (Pgs.unshiftSet currentSet ctx)
        else match index with
             | O => Ok (Pgs.unshiftSet currentSet ctx)
             | S index' =>
                 Pgs.scan displaySets index' (Pgs.unshiftSet currentSet ctx)
             end
    end.
Proof. destruct index; reflexivity. Qed.

Lemma scan_after_boundary (displaySets : list DisplaySet.t) (k : nat)
  (boundary : DisplaySet.t) :
  nth_error displaySets k = Some boundary ->
  Pgs.stateIsNot0 boundary = true ->
  forall index ctx,
    k <= index ->
    Pgs.scan displaySets index ctx
    = Pgs.scan (skipn k displaySets) (index - k) ctx.
Proof.
  intros Hk Hstop index.
  induction index as [|index IH]; intros ctx Hle.
  - assert (k = 0) as -> by lia. reflexivity.
  - rewrite (scan_step displaySets), (scan_step (skipn k displaySets)).
    rewrite nth_error_skipn.
    replace (k + (S index - k)) with (S index) by lia.
    destruct (nth_error displaySets (S index)) as [d|] eqn:Hd; [|reflexivity].
    destruct (Pgs.stateIsNot0 d) eqn:Hstate; [reflexivity|].
    destruct (Nat.eq_dec k (S index)) as [->|Hne]; [congruence|].
    replace (S index - k) with (S (index - k)) by lia.
    apply IH. lia.
Qed.

(** X13. The compiled subtitle does not depend on what comes before the
    start of its epoch: when display set [k] has no composition or a
    composition state other than Normal, compiling index [index >= k] on
    the stream gives what compiling index [index - k] gives on the stream
    without its first [k] display sets. *)
Theorem compile_ignores_earlier_epochs (this this' : Pgs.t) (k index : nat)
  (boundary : DisplaySet.t)
  (Hk : nth_error (Pgs.displaySets this) k = Some boundary)
  (Hstop : Pgs.stateIsNot0 boundary = true)
  (Hle : k <= index)
  (Hdrop : Pgs.displaySets this' = skipn k (Pgs.displaySets this)) :
  Pgs.computeSubtitleAtIndex this (Z.of_nat index)
  = Pgs.computeSubtitleAtIndex this' (Z.of_nat (index - k)).
Proof.
  unfold Pgs.computeSubtitleAtIndex. rewrite Hdrop, length_skipn.
  rewrite !Nat2Z.id, nth_error_skipn.
  replace (k + (index - k)) with index by lia.
  assert (k < length (Pgs.displaySets this)) as Hin.
  { apply nth_error_Some. congruence. }
  destruct (Z.ltb_spec (Z.of_nat index) 0), (Z.ltb_spec (Z.of_nat (index - k)) 0);
    try lia.
  destruct (Z.leb_spec (Z.of_nat (length (Pgs.displaySets this)))
              (Z.of_nat index)),
    (Z.leb_spec (Z.of_nat (length (Pgs.displaySets this) - k))
       (Z.of_nat (index - k))); try lia; cbn [orb]; [reflexivity|].
  destruct (nth_error (Pgs.displaySets this) index) as [d|]; [|reflexivity].
  destruct (DisplaySet.presentationComposition d); [|reflexivity].
  now rewrite (scan_after_boundary _ Hk Hstop _ Hle).
Qed.

Lemma compile_ignores_earlier_epochs_witness :
  Pgs.computeSubtitleAtIndex
    (Pgs.make [Example.normalSet 1; Example.epochSet 2; Example.normalSet 3]
       [1; 2; 3]%Z (SubtitleCache.new 8)) (Z.of_nat 2)
  = Pgs.computeSubtitleAtIndex
      (Pgs.make [Example.epochSet 2; Example.normalSet 3] [2; 3]%Z
         (SubtitleCache.new 8)) (Z.of_nat (2 - 1)).
Proof.
  apply (@compile_ignores_earlier_epochs _ _ 1 2 (Example.epochSet 2)).
  - reflexivity.
  - reflexivity.
  - lia.
  - reflexivity.
Defined.

Lemma scan_app (displaySets more : list DisplaySet.t) (index : nat) :
  forall ctx,
    index < length displaySets ->
    Pgs.scan (displaySets ++ more) index ctx = Pgs.scan displaySets index ctx.
Proof.
  induction index as [|index IH]; intros ctx Hin;
    rewrite (scan_step (displaySets ++ more)), (scan_step displaySets);
    rewrite nth_error_app1 by lia.
  - reflexivity.
  - destruct (nth_error displaySets (S index)) as [d|]; [|reflexivity].
    destruct (Pgs.stateIsNot0 d); [reflexivity|]. apply IH. lia.
Qed.

(** X14. Display sets that arrive later do not change what was compiled:
    for an index inside the stream, compiling gives the same on the stream
    and on the stream with more display sets appended. *)
Theorem compile_ignores_later_sets (this this' : Pgs.t)
  (more : list DisplaySet.t) (index : Z)
  (Hindex : (0 <= index < Z.of_nat (length (Pgs.displaySets this)))%Z)
  (Hmore : Pgs.displaySets this' = Pgs.displaySets this ++ more) :
  Pgs.computeSubtitleAtIndex this' index
  = Pgs.computeSubtitleAtIndex this index.
Proof.
  unfold Pgs.computeSubtitleAtIndex. rewrite Hmore, length_app.
  destruct (Z.ltb_spec index 0); [lia|].
  destruct (Z.leb_spec (Z.of_nat (length (Pgs.displaySets this) + length more))
              index),
    (Z.leb_spec (Z.of_nat (length (Pgs.displaySets this))) index); try lia.
  cbn [orb]. rewrite nth_error_app1 by lia.
  destruct (nth_error (Pgs.displaySets this) (Z.to_nat index)) as [d|];
    [|reflexivity].
  destruct (DisplaySet.presentationComposition d); [|reflexivity].
  rewrite scan_app by lia. reflexivity.
Qed.

Lemma compile_ignores_later_sets_witness :
  Pgs.computeSubtitleAtIndex
    (Pgs.make [Example.epochSet 1; Example.epochSet 2] [1; 2]%Z
       (SubtitleCache.new 8)) 0
  = Pgs.computeSubtitleAtIndex
      (Pgs.make [Example.epochSet 1] [1%Z] (SubtitleCache.new 8)) 0.
Proof.
  apply (@compile_ignores_later_sets _ _ [Example.epochSet 2]).
  - simpl. lia.
  - reflexivity.
Defined.

Lemma rleDecode_cases (source : NumArray.t) (input : list byte) :
  (exists pixels, Spec.rleDecode source input = Some pixels)
  \/ Spec.rleDecode source input = None.
Proof.
  destruct (Spec.rleDecode source input) as [pixels|];
    [left; now exists pixels | now right].
Qed.

(** An image that [getPixelDataFromComposition] returns has as many
    pixels as its width times its height. *)
Lemma getPixelData_size (composition : CompositionObject.t)
  (palette : PaletteDefinitionSegment.t)
  (ctxObjects : list ObjectDefinitionSegment.t) (image : ImageData.t) :
  Pgs.getPixelDataFromComposition composition palette ctxObjects
  = Ok (Some image) ->
  (0 < ImageData.width image)%Z /\ (0 < ImageData.height image)%Z
  /\ length (ImageData.data image)
     = Z.to_nat (ImageData.width image * ImageData.height image).
Proof.
  unfold Pgs.getPixelDataFromComposition.
  destruct (Pgs.gather composition ctxObjects) as [[width height] dataChunks].
  destruct dataChunks as [|chunk chunks]; [discriminate|].
  destruct (Z.leb_spec width 0); [discriminate|].
  destruct (Z.leb_spec height 0); [discriminate|]. cbn [orb].
  destruct (rleDecode_cases (PaletteDefinitionSegment.rgba palette)
              (concat (chunk :: chunks))) as [[pixels Hrule]|Hcut].
  - rewrite (@decode_combined_rule _ _ _ _ Hrule).
    destruct (emit_typed NumArray.Uint32 pixels
                (repeat 0%Z (Z.to_nat (width * height))) 0)
      as (cells' & -> & Hlen & _).
    cbn [Js.bind]. intros [= <-]. cbn.
    rewrite Hlen, repeat_length. repeat split; lia.
  - rewrite (@decode_combined_cut _ _ _ Hcut). discriminate.
Qed.

Lemma compile_entries (palette : PaletteDefinitionSegment.t)
  (ctx : Pgs.Context) (compositionObjects : list CompositionObject.t) :
  forall compositionData result,
    Pgs.compile compositionObjects palette ctx compositionData = Ok result ->
    exists added,
      result = compositionData ++ added
      /\ (compositionObjects <> [] \/ added = [])
      /\ forall entry, In entry added ->
           In (SubtitleCompositionData.compositionObject entry)
              compositionObjects
           /\ In (SubtitleCompositionData.window entry) (Pgs.ctxWindows ctx)
           /\ WindowDefinition.id (SubtitleCompositionData.window entry)
              = CompositionObject.windowId
                  (SubtitleCompositionData.compositionObject entry)
           /\ length (ImageData.data (SubtitleCompositionData.pixelData entry))
              = Z.to_nat
                  (ImageData.width (SubtitleCompositionData.pixelData entry)
                   * ImageData.height (SubtitleCompositionData.pixelData entry)).
Proof.
  induction compositionObjects as [|object rest IH];
    intros compositionData result Hrun; cbn [Pgs.compile] in Hrun.
  - injection Hrun as <-. exists []. rewrite app_nil_r.
    split; [reflexivity|]. split; [now right|]. intros entry [].
  - assert (forall added,
              (forall entry, In entry added ->
                 In (SubtitleCompositionData.compositionObject entry) rest
                 /\ In (SubtitleCompositionData.window entry) (Pgs.ctxWindows ctx)
                 /\ WindowDefinition.id (SubtitleCompositionData.window entry)
                    = CompositionObject.windowId
                        (SubtitleCompositionData.compositionObject entry)
                 /\ length (ImageData.data
                              (SubtitleCompositionData.pixelData entry))
                    = Z.to_nat
                        (ImageData.width
                           (SubtitleCompositionData.pixelData entry)
                         * ImageData.height
                             (SubtitleCompositionData.pixelData entry))) ->
              forall entry, In entry added ->
                 In (SubtitleCompositionData.compositionObject entry)
                    (object :: rest)
                 /\ In (SubtitleCompositionData.window entry) (Pgs.ctxWindows ctx)
                 /\ WindowDefinition.id (SubtitleCompositionData.window entry)
                    = CompositionObject.windowId
                        (SubtitleCompositionData.compositionObject entry)
                 /\ length (ImageData.data
                              (SubtitleCompositionData.pixelData entry))
                    = Z.to_nat
                        (ImageData.width
                           (SubtitleCompositionData.pixelData entry)
                         * ImageData.height
                             (SubtitleCompositionData.pixelData entry)))
      as Hweaken.
    { intros added Hall entry Hin.
      destruct (Hall entry Hin) as (H1 & H2). split; [now right | exact H2]. }
    destruct (find _ (Pgs.ctxWindows ctx)) as [window|] eqn:Hfind.
    2:{ destruct (IH _ _ Hrun) as (added & Hres & _ & Hall).
        exists added. split; [exact Hres|]. split; [left; discriminate|].
        now apply (Hweaken added). }
    destruct (Pgs.getPixelDataFromComposition object palette (Pgs.ctxObjects ctx))
      as [[image|]| |] eqn:Hpixels; cbn [Js.bind] in Hrun; try discriminate.
    + destruct (IH _ _ Hrun) as (added & Hres & _ & Hall).
      exists (SubtitleCompositionData.make object window image :: added).
      split; [now rewrite Hres, <- app_assoc|].
      split; [left; discriminate|].
      intros entry [<-|Hin].
      * apply find_some in Hfind. destruct Hfind as [Hwin Hid].
        apply Z.eqb_eq in Hid. cbn.
        split; [now left|]. split; [exact Hwin|]. split; [exact Hid|].
        apply (getPixelData_size _ _ _ Hpixels).
      * now apply (Hweaken added).
    + destruct (IH _ _ Hrun) as (added & Hres & _ & Hall).
      exists added. split; [exact Hres|]. split; [left; discriminate|].
      now apply (Hweaken added).
Qed.



(** ** The cache: further properties *)

(** X16. The cache holds the eight indices looked up last: after lookups
    on up to eight distinct indices, whose compilations return, every one
    of them is a key of the cache. *)
Theorem recent_lookups_are_cached (this : Pgs.t) (indices : list Z)
  (Hok : cache_ok (Pgs.subtitleCache this))
  (Hmax : SubtitleCache.maxSize (Pgs.subtitleCache this) = 8)
  (Hdistinct : NoDup indices) (Hcount : length indices <= 8)
  (Hcompute : forall i, In i indices ->
                exists r, Pgs.computeSubtitleAtIndex this i = Ok r) :
  forall i, In i indices ->
    JsMap.has (SubtitleCache.cache
                 (Pgs.subtitleCache (Spec.lookups this indices))) i = true.
Proof.
  destruct (@lookups_suffix indices this
              (SubtitleCache.cache (Pgs.subtitleCache this)) [] Hok Hmax
              (eq_sym (app_nil_r _)) Hdistinct Hcount Hcompute)
    as (_ & _ & _ & older & newer & Hcache & Hkeys).
  intros i Hi. simpl in Hkeys.
  destruct (JsMap.has _ i) eqn:Hhas; [reflexivity|].
  apply has_false_keys in Hhas. exfalso. apply Hhas.
  rewrite Hcache. unfold JsMap.keys in *. rewrite map_app, Hkeys.
  apply in_or_app. now right.
Qed.

Lemma recent_lookups_are_cached_witness :
  JsMap.has (SubtitleCache.cache
               (Pgs.subtitleCache (Spec.lookups Example.loaded [3; 0; 7]%Z))) 0
  = true.
Proof.
  apply (@recent_lookups_are_cached Example.loaded [3; 0; 7]%Z).
  - split; [constructor | simpl; lia].
  - reflexivity.
  - repeat (constructor;
            [simpl; intros H; repeat (destruct H as [H|H]; try discriminate);
             exact H|]).
    constructor.
  - simpl. lia.
  - intros i Hi. simpl in Hi.
    repeat (destruct Hi as [<-|Hi]; [eexists; vm_compute; reflexivity|]).
    destruct Hi.
  - simpl. tauto.
Defined.


Lemma get_delete_other {V : Type} (m : JsMap.t V) (k k' : Z) :
  k' <> k -> JsMap.get (JsMap.delete m k) k' = JsMap.get m k'.
Proof.
  intros Hne. induction m as [|[k0 v] m IH]; simpl; [reflexivity|].
  destruct (Z.eqb_spec k0 k) as [->|Hk].
  - destruct (Z.eqb_spec k k'); [congruence | reflexivity].
  - simpl. now rewrite IH.
Qed.

Lemma get_snoc {V : Type} (m : JsMap.t V) (k k' : Z) (v : V) :
  JsMap.get (m ++ [(k, v)]) k'
  = match JsMap.get m k' with
    | Some v' => Some v'
    | None => if (k =? k')%Z then Some v else None
    end.
Proof.
  induction m as [|[k0 v0] m IH]; simpl; [reflexivity|].
  destruct (k0 =? k')%Z; [reflexivity | exact IH].
Qed.

(** X18. After [set(index, data)], [get(index)] returns the data and
    leaves the cache as it is; the [set] changes no other key, except that
    it removes the oldest key when the index is new and the cache is
    full. *)
Theorem set_then_get (c : SubtitleCache.t) (index : Z) (data : SubtitleData.t)
  (Hkeys : NoDup (JsMap.keys (SubtitleCache.cache c))) :
  SubtitleCache.get (SubtitleCache.set c index (Some data)) index
  = (Some (Some data), SubtitleCache.set c index (Some data))
  /\ forall other,
       other <> index ->
       JsMap.get (SubtitleCache.cache (SubtitleCache.set c index (Some data)))
         other
       = if negb (JsMap.has (SubtitleCache.cache c) index)
            && (SubtitleCache.maxSize c <=? JsMap.size (SubtitleCache.cache c))
            && match JsMap.firstKey (SubtitleCache.cache c) with
               | Some oldest => (oldest =? other)%Z
               | None => false
               end
         then None
         else JsMap.get (SubtitleCache.cache c) other.
Proof.
  rewrite set_cache by exact Hkeys.
  assert (NoDup (JsMap.keys (kept c index))
          /\ ~ In index (JsMap.keys (kept c index))) as [Hnd Hfresh].
  { unfold kept. destruct (JsMap.has (SubtitleCache.cache c) index) eqn:Hhas.
    - now apply NoDup_delete.
    - apply has_false_keys in Hhas.
      destruct (SubtitleCache.maxSize c <=? JsMap.size (SubtitleCache.cache c));
        [|split; assumption].
      destruct (SubtitleCache.cache c) as [|[k v] m]; [split; assumption|].
      simpl in *. inversion Hkeys; subst. split; [assumption | tauto]. }
  split.
  - unfold SubtitleCache.get. cbn [SubtitleCache.cache SubtitleCache.maxSize].
    rewrite get_snoc.
    assert (JsMap.get (kept c index) index = None) as Hnone
      by now apply get_None_keys.
    rewrite Hnone, Z.eqb_refl. f_equal. f_equal.
    assert (JsMap.delete (kept c index ++ [(index, Some data)]) index
            = kept c index) as ->.
    { clear Hnd Hnone. induction (kept c index) as [|[k v] m IH]; simpl.
      - now rewrite Z.eqb_refl.
      - destruct (Z.eqb_spec k index) as [->|Hne].
        + elim Hfresh. now left.
        + rewrite IH; [reflexivity|]. intros Hin. apply Hfresh. now right. }
    apply set_fresh. exact Hnone.
  - intros other Hne. cbn [SubtitleCache.cache]. rewrite get_snoc.
    destruct (Z.eqb_spec index other) as [->|_]; [congruence|].
    assert (forall o : option (option SubtitleData.t),
              match o with Some v' => Some v' | None => None end = o) as Hid
      by (now intros [?|]).
    rewrite Hid. unfold kept.
    destruct (JsMap.has (SubtitleCache.cache c) index); cbn [negb andb].
    + now apply get_delete_other.
    + destruct (SubtitleCache.maxSize c <=? JsMap.size (SubtitleCache.cache c));
        cbn [andb]; [|reflexivity].
      destruct (SubtitleCache.cache c) as [|[k v] m]; [reflexivity|].
      simpl. destruct (Z.eqb_spec k other) as [->|Hk]; [|reflexivity].
      apply get_None_keys. simpl in Hkeys. now inversion Hkeys.
Qed.

Lemma set_then_get_witness :
  fst (SubtitleCache.get
         (SubtitleCache.set (SubtitleCache.new 8) 4
            (Some (SubtitleData.make 128 64 []))) 4)
  = Some (Some (SubtitleData.make 128 64 [])).
Proof.
  rewrite (proj1 (@set_then_get (SubtitleCache.new 8) 4
                    (SubtitleData.make 128 64 []) (NoDup_nil Z))).
  reflexivity.
Defined.



(** ** Reading a combined reader to its end *)

Lemma combinedReadByteTimes_input (len : nat) (input : list byte) :
  forall r,
    combined_remains len r input ->
    exists r',
      combinedReadByteTimes (length input) r
      = Ok (map (fun b => number (u8 b)) input, r')
      /\ combined_remains len r' [].
Proof.
  induction input as [|b input IH]; intros r Hr.
  - exists r. split; [reflexivity | exact Hr].
  - destruct (combined_remains_cons Hr) as [_ (r1 & Hread & Hr1)].
    destruct (IH r1 Hr1) as (r' & Hrest & Hr').
    exists r'. split; [|exact Hr'].
    cbn [length combinedReadByteTimes map]. cbn in Hread.
    rewrite Hread. cbn [Js.bind]. rewrite Hrest. reflexivity.
Qed.

(** X20. Read byte by byte, a [CombinedBinaryReader] over chunks gives the
    bytes of the chunks in order, as one stream; after the last byte [eof]
    holds, and one more [readByte] throws a type error (an
    [ArrayBinaryReader] returns [undefined] there). *)
Theorem combined_reads_concatenation (chunks : list (list byte)) :
  exists r',
    combinedReadByteTimes (length (concat chunks))
      (CombinedBinaryReader.new chunks)
    = Ok (map (fun b => number (u8 b)) (concat chunks), r')
    /\ CombinedBinaryReader.eof r' = true
    /\ CombinedBinaryReader.readByte r' = Throw TypeError
    /\ fst (ArrayBinaryReader.readByte
              (snd (readByteTimes (length (concat chunks))
                      (ArrayBinaryReader.new (concat chunks)))))
       = undefined.
Proof.
  destruct (combinedReadByteTimes_input (combined_remains_new chunks))
    as (r' & Hrun & Hr').
  exists r'. split; [exact Hrun|]. split; [|split].
  - destruct Hr' as (_ & Hpos & _). unfold CombinedBinaryReader.eof.
    apply Nat.leb_le. simpl in Hpos. lia.
  - exact (combined_remains_end Hr').
  - unfold ArrayBinaryReader.new. rewrite readByteTimes_bytes. cbn [snd].
    unfold ArrayBinaryReader.readByte. cbn [fst ArrayBinaryReader.array
      ArrayBinaryReader.position_].
    assert (nth_error (concat chunks) (0 + length (concat chunks)) = None) as ->
      by (apply nth_error_None; lia).
    reflexivity.
Qed.

(** ** References that resolve nowhere *)

Lemma find_none_all {A : Type} (f : A -> bool) (l : list A) :
  (forall x, In x l -> f x = false) -> find f l = None.
Proof.
  induction l as [|a l IH]; intros Hall; simpl; [reflexivity|].
  rewrite (Hall a (or_introl eq_refl)). apply IH.
  intros x Hx. apply Hall. now right.
Qed.

Lemma In_firstn {A : Type} (l : list A) :
  forall n x, In x (firstn n l) -> In x l.
Proof.
  induction l as [|a l IH]; intros n x Hin.
  - now rewrite firstn_nil in Hin.
  - destruct n as [|n]; [destruct Hin|].
    destruct Hin as [<-|Hin]; [now left | right; eauto].
Qed.

Lemma In_skipn {A : Type} (l : list A) :
  forall n x, In x (skipn n l) -> In x l.
Proof.
  induction l as [|a l IH]; intros n x Hin.
  - now rewrite skipn_nil in Hin.
  - destruct n as [|n]; [exact Hin|]. right. eauto.
Qed.

Lemma In_slice {A : Type} (l : list A) (stop index : nat) (x : A) :
  In x (Spec.slice l stop index) -> In x l.
Proof.
  unfold Spec.slice. intros Hin.
  apply In_firstn in Hin. eapply In_skipn. exact Hin.
Qed.

Lemma compile_without_windows (palette : PaletteDefinitionSegment.t)
  (ctx : Pgs.Context) (compositionObjects : list CompositionObject.t) :
  (forall object window,
     In object compositionObjects -> In window (Pgs.ctxWindows ctx) ->
     WindowDefinition.id window <> CompositionObject.windowId object) ->
  forall compositionData,
    Pgs.compile compositionObjects palette ctx compositionData
    = Ok compositionData.
Proof.
  induction compositionObjects as [|object rest IH]; intros Hnone acc.
  - reflexivity.
  - cbn [Pgs.compile]. rewrite find_none_all.
    + apply IH. intros o w Ho Hw. apply Hnone; [now right | exact Hw].
    + intros w Hw. apply Z.eqb_neq. apply Hnone; [now left | exact Hw].
Qed.

(** X21. A reference that resolves nowhere gives absent, not an
    exception: an index outside the stream, a display set without a
    composition, a composition whose palette id no display set of the
    stream defines, and a composition none of whose objects names a window
    that a display set of the stream defines all compile to absent. *)
Theorem unresolved_reference_is_absent (this : Pgs.t) (index : Z) :
  ((index < 0)%Z \/ (Z.of_nat (length (Pgs.displaySets this)) <= index)%Z ->
   Pgs.computeSubtitleAtIndex this index = Ok None)
  /\ (forall displaySet,
        nth_error (Pgs.displaySets this) (Z.to_nat index) = Some displaySet ->
        DisplaySet.presentationComposition displaySet = None ->
        Pgs.computeSubtitleAtIndex this index = Ok None)
  /\ (forall displaySet composition,
        (0 <= index)%Z ->
        nth_error (Pgs.displaySets this) (Z.to_nat index) = Some displaySet ->
        DisplaySet.presentationComposition displaySet = Some composition ->
        (forall d p, In d (Pgs.displaySets this) ->
                     In p (DisplaySet.paletteDefinitions d) ->
                     PaletteDefinitionSegment.id p
                     <> PresentationCompositionSegment.paletteId composition)
        \/ (forall d s w object,
              In d (Pgs.displaySets this) ->
              In s (DisplaySet.windowDefinitions d) ->
              In w (WindowDefinitionSegment.windows s) ->
              In object
                 (PresentationCompositionSegment.compositionObjects composition) ->
              WindowDefinition.id w <> CompositionObject.windowId object) ->
        Pgs.computeSubtitleAtIndex this index = Ok None).
Proof.
  unfold Pgs.computeSubtitleAtIndex. split; [|split].
  - intros [Hneg|Hbig].
    + destruct (Z.ltb_spec index 0); [reflexivity | lia].
    + destruct (Z.leb_spec (Z.of_nat (length (Pgs.displaySets this))) index);
        [now rewrite orb_true_r | lia].
  - intros displaySet -> ->. now destruct (_ || _).
  - intros displaySet composition Hindex Hset Hcomposition Hmissing.
    assert (Z.to_nat index < length (Pgs.displaySets this)) as Hin.
    { apply nth_error_Some. congruence. }
    destruct (Z.ltb_spec index 0); [lia|].
    destruct (Z.leb_spec (Z.of_nat (length (Pgs.displaySets this))) index);
      [lia|]. cbn [orb]. rewrite Hset, Hcomposition.
    destruct (@scan_from (Pgs.displaySets this) (Z.to_nat index)
                (Pgs.makeContext [] [] []) Hin)
      as (stop & _ & _ & _ & ->).
    cbn [Js.bind].
    fold (Spec.contextOf (Spec.slice (Pgs.displaySets this) stop
                            (Z.to_nat index))).
    destruct (contextOf_order (Spec.slice (Pgs.displaySets this) stop
                                 (Z.to_nat index)))
      as (_ & Hpalettes & Hwindows).
    destruct Hmissing as [Hpalette|Hwindow].
    + rewrite find_none_all; [reflexivity|].
      intros p Hp. rewrite Hpalettes in Hp. apply in_flat_map in Hp.
      destruct Hp as (d & Hd & Hp). apply Z.eqb_neq.
      apply (Hpalette d p); [eapply In_slice; exact Hd | exact Hp].
    + destruct (find _ _) as [palette|]; [|reflexivity].
      rewrite compile_without_windows; [reflexivity|].
      intros object w Hobject Hw. rewrite Hwindows in Hw.
      apply in_flat_map in Hw. destruct Hw as (d & Hd & Hw).
      apply in_concat in Hw. destruct Hw as (ws & Hws & Hw).
      apply in_rev in Hws. apply in_map_iff in Hws.
      destruct Hws as (s & <- & Hs).
      apply (Hwindow d s w object); auto. eapply In_slice. exact Hd.
Qed.

Lemma unresolved_reference_is_absent_witness :
  Pgs.computeSubtitleAtIndex
    (Pgs.make [Example.normalSet 90000] [90000%Z] (SubtitleCache.new 8)) 0
  = Ok None.
Proof.
  refine (proj2 (proj2 (@unresolved_reference_is_absent
            (Pgs.make [Example.normalSet 90000] [90000%Z] (SubtitleCache.new 8))
            0)) (Example.normalSet 90000) _ _ eq_refl eq_refl _).
  - lia.
  - left. intros d p Hd Hp. simpl in Hd. destruct Hd as [<-|[]].
    destruct Hp.
Defined.
